(** * A shallow embedding of the two-phase simplex LP engine and the
      branch-and-bound IP engine (classes [FOP], [Linearform], [Constraint],
      [LP], [LP::Tableau], [IP::Node] and [IP]).

    Conventions of the embedding.
    - A C++ [double] is a primitive binary64 [float]; every arithmetic
      operation and comparison below is the IEEE-754 one the program executes.
    - [uint32_t] and [int32_t] values are integers in [Z]; the conversions
      between the two and the unsigned wrap-around are written [u32] and [i32].
    - [std::vector] is a [list]; an index that is out of range is undefined
      behaviour in the program: a read then yields the default element and a
      write leaves the list as it is, and the theorems that depend on such an
      access carry the range condition as a hypothesis.
    - [std::unordered_map<uint32_t, double>] is a [gmap Z float].
    - Member functions are state-passing functions on the record of the
      object's fields; loops that may not terminate take a [fuel] argument and
      return [None] when it runs out.
    - The scalar code path of [Tableau::elimination] is modelled, that is
      [enableMatrixEliminationParallel = false], its initial value. *)

From Stdlib Require Import ZArith Floats Lia Bool.
From Stdlib Require Uint63.
From stdpp Require Import base option list gmap strings.

Set Warnings "-inexact-float".

Local Open Scope Z_scope.

(** ** Machine integers *)

Definition u32 (z : Z) : Z := z mod 2 ^ 32.

Definition i32 (z : Z) : Z :=
  let w := u32 z in if w <? 2 ^ 31 then w else w - 2 ^ 32.

(** [size_t] *)
Definition u64 (z : Z) : Z := z mod 2 ^ 64.

(** ** Vectors indexed by machine integers *)

Definition vget {A : Type} (d : A) (v : list A) (k : Z) : A :=
  default d (v !! Z.to_nat k).

Definition vset {A : Type} (v : list A) (k : Z) (x : A) : list A :=
  <[Z.to_nat k := x]> v.

(** [for (uint32_t k = lo; k < hi; k++)] visits [range lo hi] in order. *)
Definition range (lo hi : Z) : list Z := seqZ lo (hi - lo).

(** [for (uint32_t j = j0; ...; j++) if (p j) return j; return -1;] with [n]
    iterations left; the function returns an [int32_t]. *)
Fixpoint firstFrom (p : Z -> bool) (j : Z) (n : nat) : Z :=
  match n with
  | O => -1
  | S n' => if p j then i32 j else firstFrom p (j + 1) n'
  end.

(** ** Doubles: [floor], [round] and the constants of [<limits>] *)

Definition FP64_INF : float := infinity.
Definition FP64_NAN : float := nan.

(** The double whose value is the natural number [z < 2^53] (exact). *)
Definition of_Zabs (z : Z) : float := PrimFloat.of_uint63 (Uint63.of_Z z).

(** [std::floor]: the largest integral value not above [x]; zeros,
    infinities and NaN are returned as they are, and so is every double whose
    exponent makes it integral already. *)
Definition floor (x : float) : float :=
  match Prim2SF x with
  | S754_finite s m e =>
      if 0 <=? e then x
      else
        let q := Z.pos m / 2 ^ (- e) in
        let r := Z.pos m mod 2 ^ (- e) in
        let up := if r =? 0 then q else q + 1 in
        if s then PrimFloat.opp (of_Zabs up) else of_Zabs q
  | _ => x
  end.

(** [std::round]: the nearest integral value, halfway cases away from zero. *)
Definition round (x : float) : float :=
  match Prim2SF x with
  | S754_finite s m e =>
      if 0 <=? e then x
      else
        let q := (2 * Z.pos m + 2 ^ (- e)) / 2 ^ (- e + 1) in
        if s then PrimFloat.opp (of_Zabs q) else of_Zabs q
  | _ => x
  end.

(** ** class FOP *)

Module FOP.

Definition EPS : float := 1e-4%float.

Definition isInt (x : float) : bool := (abs (x - round x) <=? EPS)%float.

Definition isZero (x : float) : bool := (abs x <=? EPS)%float.

(** [x >= EPS] *)
Definition isPos (x : float) : bool := (EPS <=? x)%float.

End FOP.

(** ** enum class Relation *)

Inductive Relation := LEQ | EQ | GEQ.

Global Instance Relation_eq_dec : EqDecision Relation.
Proof. solve_decision. Defined.

(** ** class Linearform *)

Module Linearform.

Record t := mk { terms : gmap Z float }.

Definition empty : t := mk ∅.

Definition add (coef : float) (varIndex : Z) (lf : t) : t :=
  match terms lf !! varIndex with
  | Some c => mk (<[varIndex := (c + coef)%float]> (terms lf))
  | None => mk (<[varIndex := coef]> (terms lf))
  end.

Definition negate (lf : t) : t := mk (PrimFloat.opp <$> terms lf).

End Linearform.

(** ** class Constraint *)

Module Constraint.

Record t := mk {
  linearform : Linearform.t;
  relation : Relation;
  rightConst : float
}.

(** A default-constructed constraint: no term, [EQ], right side 0. *)
Definition new : t := mk Linearform.empty EQ 0%float.

Definition add (coef : float) (varIndex : Z) (c : t) : t :=
  mk (Linearform.add coef varIndex (linearform c)) (relation c) (rightConst c).

Definition set (rel : Relation) (r : float) (c : t) : t :=
  mk (linearform c) rel r.

Definition leq (r : float) (c : t) : t := set LEQ r c.
Definition eq (r : float) (c : t) : t := set EQ r c.
Definition geq (r : float) (c : t) : t := set GEQ r c.

Definition getTerms (c : t) : gmap Z float := Linearform.terms (linearform c).

Definition getRightConst (c : t) : float := rightConst c.

Definition stdOfNegativeRightConst (c : t) : t :=
  if (0 <=? rightConst c)%float then c
  else
    mk (Linearform.negate (linearform c))
       (match relation c with LEQ => GEQ | GEQ => LEQ | EQ => EQ end)
       (- rightConst c)%float.

Definition haveSlackVar (c : t) : bool := bool_decide (relation c ≠ EQ).

Definition getSlackVarCoef (c : t) : float :=
  match relation c with
  | LEQ => 1%float
  | GEQ => (-1)%float
  | EQ => 0%float
  end.

Definition haveArtificialVar (c : t) : bool := bool_decide (relation c ≠ LEQ).

End Constraint.

(** ** class LP::Tableau *)

Module Tableau.

Record t := mk {
  arr : list float;          (* the flattened two-dimensional array *)
  rows : Z;
  cols : Z;
  baseVarIndexs : list Z     (* -1 stands for an artificial variable *)
}.

(** [arr[cols * i + j]], the index computed in [uint32_t]. *)
Definition idx (tb : t) (i j : Z) : Z := u32 (cols tb * i + j).

Definition get (tb : t) (i j : Z) : float := vget 0%float (arr tb) (idx tb i j).

Definition set (tb : t) (i j : Z) (x : float) : t :=
  mk (vset (arr tb) (idx tb i j) x) (rows tb) (cols tb) (baseVarIndexs tb).

Definition setBase (tb : t) (i : Z) (b : Z) : t :=
  mk (arr tb) (rows tb) (cols tb) (vset (baseVarIndexs tb) i b).

Definition base (tb : t) (i : Z) : Z := vget 0 (baseVarIndexs tb) i.

Definition init (r c : Z) : t :=
  mk (replicate (Z.to_nat (u32 (r * c))) 0%float) r c
     (replicate (Z.to_nat r) 0).

Definition scaleRow (i : Z) (s : float) (tb : t) : t :=
  foldl (fun tb k => set tb i k (get tb i k / s)%float) tb (range 0 (cols tb)).

Definition addRowToRow (i j : Z) (s : float) (tb : t) : t :=
  foldl (fun tb k => set tb j k (get tb j k + get tb i k * s)%float)
        tb (range 0 (cols tb)).

Definition elimination (i j : Z) (tb : t) : t :=
  let aij := get tb i j in
  let tb1 :=
    foldl (fun tb k =>
             if bool_decide (k ≠ i)
             then addRowToRow i k (- get tb k j / aij)%float tb
             else tb)
          tb (range 0 (rows tb)) in
  let tb2 :=
    foldl (fun tb k => if bool_decide (k ≠ i) then set tb k j 0%float else tb)
          tb1 (range 0 (rows tb)) in
  scaleRow i aij tb2.

End Tableau.

(** ** class LP *)

Module LP.

Inductive Type_ := BOUNDED | UNBOUNDED | INFEASIBLE.

Global Instance Type_eq_dec : EqDecision Type_.
Proof. solve_decision. Defined.

(** The fields of an [LP] object.  [solutionType] and [extremum] have no
    initial value in the program: [None] stands for "not assigned yet". *)
Record t := mk {
  tableau : Tableau.t;
  isMin : bool;
  objFunc : Linearform.t;
  multiCon : list Constraint.t;
  varCount : Z;
  varRangeMultiCon : list Constraint.t;
  solutionType : option Type_;
  solution : list float;
  unboundedDirection : list float;
  extremum : option float
}.

Definition withTableau (lp : t) (tb : Tableau.t) : t :=
  mk tb (isMin lp) (objFunc lp) (multiCon lp) (varCount lp)
     (varRangeMultiCon lp) (solutionType lp) (solution lp)
     (unboundedDirection lp) (extremum lp).

Definition withResult (lp : t) (ty : option Type_) (sol dir : list float)
    (ext : option float) : t :=
  mk (tableau lp) (isMin lp) (objFunc lp) (multiCon lp) (varCount lp)
     (varRangeMultiCon lp) ty sol dir ext.

(** The column of the right-hand sides, [tableau.cols - 1]. *)
Definition lastCol (tb : Tableau.t) : Z := u32 (Tableau.cols tb - 1).

(** The loop runs while [j <= tableau.cols - 2], the bound computed in
    [uint32_t]. *)
Definition findNewBaseVarIndex (lp : t) : Z :=
  let tb := tableau lp in
  firstFrom (fun j => FOP.isPos (Tableau.get tb 0 j)) 0
            (Z.to_nat (u32 (Tableau.cols tb - 2) + 1)).

Definition minRatioStep (tb : Tableau.t) (baseVarIndex : Z)
    (st : float * Z) (i : Z) : float * Z :=
  if FOP.isPos (Tableau.get tb i baseVarIndex) then
    let ratio := (Tableau.get tb i (lastCol tb) / Tableau.get tb i baseVarIndex)%float in
    if (ratio <? st.1)%float then (ratio, i32 i) else st
  else st.

Definition findMinPosRatioRowIndex (baseVarIndex : Z) (lp : t) : Z :=
  let tb := tableau lp in
  (foldl (minRatioStep tb baseVarIndex) (1e300%float, -1)
         (range 1 (Tableau.rows tb))).2.

Definition isTableauHaveArtificialVar (lp : t) : bool :=
  let tb := tableau lp in
  existsb (fun i => Tableau.base tb i =? -1) (range 1 (Tableau.rows tb)).

(** [isMin ? 1 : -1] and [isMin ? -1 : 1], as doubles. *)
Definition sign (b : bool) : float := if b then 1%float else (-1)%float.

Definition unboundStep (lp : t) (newBaseVarIndex : Z)
    (st : list float * list float) (i : Z) : list float * list float :=
  let tb := tableau lp in
  let baseVarIndex := u32 (Tableau.base tb i) in
  if baseVarIndex <=? u32 (varCount lp - 1) then
    (vset st.1 baseVarIndex (Tableau.get tb i (lastCol tb)),
     vset st.2 baseVarIndex
          (Tableau.get tb i newBaseVarIndex * sign (isMin lp))%float)
  else st.

Definition handleUnbound (newBaseVarIndex : Z) (lp : t) : t :=
  let zeros := replicate (Z.to_nat (varCount lp)) 0%float in
  let r := foldl (unboundStep lp newBaseVarIndex) (zeros, zeros)
                 (range 1 (Tableau.rows (tableau lp))) in
  withResult lp (Some UNBOUNDED) r.1 r.2
             (Some (if isMin lp then (- FP64_INF)%float else FP64_INF)).

(** The last two statements of the loop body of the driver: eliminate on
    the pivot and record the new basic column of the row. *)
Definition pivot (rowIndex newBaseVarIndex : Z) (lp : t) : t :=
  let tb := Tableau.elimination (u32 rowIndex) (u32 newBaseVarIndex) (tableau lp) in
  withTableau lp (Tableau.setBase tb rowIndex newBaseVarIndex).

(** The [while (true)] loop of the driver followed by its final test; the
    boolean is the value the member function returns. *)
Fixpoint runMinSimplexMethod (fuel : nat) (lp : t) : option (bool * t) :=
  match fuel with
  | O => None
  | S fuel' =>
      let newBaseVarIndex := findNewBaseVarIndex lp in
      if newBaseVarIndex =? -1 then
        Some (negb (isTableauHaveArtificialVar lp), lp)
      else
        let rowIndex := findMinPosRatioRowIndex (u32 newBaseVarIndex) lp in
        if rowIndex =? -1 then
          Some (false, handleUnbound (u32 newBaseVarIndex) lp)
        else
          runMinSimplexMethod fuel' (pivot rowIndex newBaseVarIndex lp)
  end.

Definition slackVarCount (cons : list Constraint.t) : Z :=
  Z.of_nat (length (filter (fun c => Constraint.haveSlackVar c = true) cons)).

Definition initTableau (lp : t) : t :=
  let slack := u32 (slackVarCount (multiCon lp) + slackVarCount (varRangeMultiCon lp)) in
  withTableau lp
    (Tableau.init
       (u32 (1 + Z.of_nat (length (multiCon lp)) + Z.of_nat (length (varRangeMultiCon lp))))
       (u32 (varCount lp + slack + 1))).

(** The lambda [setTableauRow]; the state is the tableau with the captured
    counters [rowIndex] and [slackVarColIndex]. *)
Definition setTableauRow (st : Tableau.t * Z * Z) (con : Constraint.t)
    : Tableau.t * Z * Z :=
  let '(tb, rowIndex, slackVarColIndex) := st in
  let tb1 := map_fold (fun varIndex coef tb => Tableau.set tb rowIndex varIndex coef)
                      tb (Constraint.getTerms con) in
  let slackVarColIndex' :=
    if Constraint.haveSlackVar con then u32 (slackVarColIndex + 1)
    else slackVarColIndex in
  let tb2 :=
    if Constraint.haveSlackVar con
    then Tableau.set tb1 rowIndex slackVarColIndex' (Constraint.getSlackVarCoef con)
    else tb1 in
  let tb3 := Tableau.set tb2 rowIndex (lastCol tb2) (Constraint.getRightConst con) in
  let tb4 := Tableau.setBase tb3 rowIndex
               (if Constraint.haveArtificialVar con then -1 else i32 slackVarColIndex') in
  (tb4, u32 (rowIndex + 1), slackVarColIndex').

Definition insertConToTableau (lp : t) : t :=
  let st0 := (tableau lp, 1, u32 (varCount lp - 1)) in
  let st1 := foldl setTableauRow st0 (multiCon lp) in
  let st2 := foldl setTableauRow st1 (varRangeMultiCon lp) in
  withTableau lp st2.1.1.

(** The first loop of [checkInfeasible]: every row whose basis is an
    artificial variable is added to row 0. *)
Definition addArtificialRows (lp : t) : t :=
  let tb := tableau lp in
  withTableau lp
    (foldl (fun tb i =>
              if Tableau.base tb i =? -1
              then Tableau.addRowToRow i 0 1%float tb else tb)
           tb (range 1 (Tableau.rows tb))).

(** The last loop of [checkInfeasible]: row 0 is cleared. *)
Definition clearHead (lp : t) : t :=
  let tb := tableau lp in
  withTableau lp
    (foldl (fun tb j => Tableau.set tb 0 j 0%float) tb
           (range 0 (Tableau.cols tb))).

Definition checkInfeasible (fuel : nat) (lp : t) : option (bool * t) :=
  if negb (isTableauHaveArtificialVar lp) then Some (true, lp)
  else
    match runMinSimplexMethod fuel (addArtificialRows lp) with
    | None => None
    | Some (false, lp') => Some (false, lp')
    | Some (true, lp') => Some (true, clearHead lp')
    end.

Definition insertObjFuncToTableau (lp : t) : t :=
  withTableau lp
    (map_fold (fun varIndex coef tb =>
                 Tableau.set tb 0 varIndex (coef * sign (negb (isMin lp)))%float)
              (tableau lp) (Linearform.terms (objFunc lp))).

Definition handleNonZeroHead (lp : t) : t :=
  let tb := tableau lp in
  withTableau lp
    (foldl (fun tb i =>
              let baseVarIndex := u32 (Tableau.base tb i) in
              if negb (FOP.isZero (Tableau.get tb 0 baseVarIndex))
              then Tableau.addRowToRow i 0 (- Tableau.get tb 0 baseVarIndex)%float tb
              else tb)
           tb (range 1 (Tableau.rows tb))).

Definition boundStep (lp : t) (sol : list float) (i : Z) : list float :=
  let tb := tableau lp in
  let baseVarIndex := u32 (Tableau.base tb i) in
  if baseVarIndex <=? u32 (varCount lp - 1)
  then vset sol baseVarIndex (Tableau.get tb i (lastCol tb))
  else sol.

Definition handleBound (lp : t) : t :=
  let tb := tableau lp in
  let zeros := replicate (Z.to_nat (varCount lp)) 0%float in
  withResult lp (Some BOUNDED)
    (foldl (boundStep lp) zeros (range 1 (Tableau.rows tb)))
    (unboundedDirection lp)
    (Some (Tableau.get tb 0 (lastCol tb) * sign (isMin lp))%float).

(** The loop of the constructor that turns the variable ranges into
    constraints; the state is [varRangeMultiCon] with the counter [i]. *)
Definition varRangeStep (st : list Constraint.t * Z) (r : float * float)
    : list Constraint.t * Z :=
  let '(varMin, varMax) := r in
  let acc1 :=
    if (0 <? varMin)%float
    then st.1 ++ [Constraint.geq varMin (Constraint.add 1%float st.2 Constraint.new)]
    else st.1 in
  let acc2 :=
    if negb (is_infinity varMax)
    then acc1 ++ [Constraint.leq varMax (Constraint.add 1%float st.2 Constraint.new)]
    else acc1 in
  (acc2, u32 (st.2 + 1)).

(** The object when the constructor is about to call [checkInfeasible]:
    the ranges are constraints, the tableau is allocated and filled. *)
Definition construct (isMin : bool) (objFunc : Linearform.t)
    (multiCon : list Constraint.t) (varRange : list (float * float)) : t :=
  let lp0 := mk (Tableau.mk [] 0 0 []) isMin objFunc multiCon
                (u32 (Z.of_nat (length varRange)))
                (foldl varRangeStep ([], 0) varRange).1
                None [] [] None in
  insertConToTableau (initTableau lp0).

(** The object when phase 2 is about to call the driver. *)
Definition phase2Start (lp : t) : t :=
  handleNonZeroHead (insertObjFuncToTableau lp).

Definition setInfeasible (lp : t) : t :=
  withResult lp (Some INFEASIBLE) (solution lp) (unboundedDirection lp)
             (Some FP64_NAN).

(** The constructor [LP::LP]. *)
Definition new (fuel : nat) (isMin : bool) (objFunc : Linearform.t)
    (multiCon : list Constraint.t) (varRange : list (float * float)) : option t :=
  match checkInfeasible fuel (construct isMin objFunc multiCon varRange) with
  | None => None
  | Some (false, lp2) => Some (setInfeasible lp2)
  | Some (true, lp2) =>
      match runMinSimplexMethod fuel (phase2Start lp2) with
      | None => None
      | Some (true, lp4) => Some (handleBound lp4)
      | Some (false, lp4) => Some lp4
      end
  end.

End LP.

(** ** std::priority_queue over a std::vector

    [push] is [push_back] followed by [std::push_heap], [pop] is
    [std::pop_heap] followed by [pop_back], and [top] is [front].  The two
    heap algorithms are the ones of the GNU C++ library the Makefile builds
    against ([__push_heap] and [__adjust_heap] of [bits/stl_heap.h]); indices
    are signed ([ptrdiff_t]) and [/] truncates. *)

Module PriorityQueue.
Section Heap.

Context {A : Type} (comp : A -> A -> bool).

(** [__push_heap(first, holeIndex, topIndex, value, comp)]; the hole moves
    up at most [n] times. *)
Fixpoint push_heap_loop (n : nat) (first : list A) (holeIndex topIndex : Z)
    (value : A) : list A :=
  let parent := Z.quot (holeIndex - 1) 2 in
  match n with
  | O => vset first holeIndex value
  | S n' =>
      if (topIndex <? holeIndex) && comp (vget value first parent) value
      then push_heap_loop n' (vset first holeIndex (vget value first parent))
                          parent topIndex value
      else vset first holeIndex value
  end.

Definition push_heap_aux (first : list A) (holeIndex topIndex : Z) (value : A)
    : list A :=
  push_heap_loop (length first) first holeIndex topIndex value.

(** The [while] loop of [__adjust_heap]; it returns the vector with the
    final [holeIndex] and [secondChild]. *)
Fixpoint adjust_heap_loop (n : nat) (first : list A) (len : Z) (value : A)
    (holeIndex secondChild : Z) : list A * Z * Z :=
  match n with
  | O => (first, holeIndex, secondChild)
  | S n' =>
      if secondChild <? Z.quot (len - 1) 2 then
        let c := 2 * (secondChild + 1) in
        let c' := if comp (vget value first c) (vget value first (c - 1))
                  then c - 1 else c in
        adjust_heap_loop n' (vset first holeIndex (vget value first c'))
                         len value c' c'
      else (first, holeIndex, secondChild)
  end.

Definition adjust_heap (first : list A) (holeIndex len : Z) (value : A) : list A :=
  let topIndex := holeIndex in
  let '(first1, holeIndex1, secondChild1) :=
    adjust_heap_loop (length first) first len value holeIndex holeIndex in
  let '(first2, holeIndex2) :=
    if (Z.land len 1 =? 0) && (secondChild1 =? Z.quot (len - 2) 2) then
      let c := 2 * (secondChild1 + 1) in
      (vset first1 holeIndex1 (vget value first1 (c - 1)), c - 1)
    else (first1, holeIndex1) in
  push_heap_aux first2 holeIndex2 topIndex value.

Definition push (x : A) (c : list A) : list A :=
  let c' := c ++ [x] in
  push_heap_aux c' (Z.of_nat (length c') - 1) 0 x.

Definition top (c : list A) : option A := head c.

(** [std::pop_heap] moves the first element to the back and re-establishes
    the heap on the rest; [pop_back] then drops it. *)
Definition pop (c : list A) : list A :=
  match c, last c with
  | first0 :: _, Some value =>
      let len := Z.of_nat (length c) in
      if 1 <? len then
        let c1 := vset c (len - 1) first0 in
        removelast (adjust_heap c1 0 (len - 1) value)
      else removelast c
  | _, _ => c
  end.

End Heap.
End PriorityQueue.

(** ** class VarBimap *)

Module VarBimap.

Record t := mk { strToIndex : gmap string Z; indexToStr : list string }.

Definition empty : t := mk ∅ [].

Definition getVarCount (b : t) : Z := u32 (Z.of_nat (length (indexToStr b))).

Definition getVarIndex (varName : string) (b : t) : Z * t :=
  match strToIndex b !! varName with
  | Some j => (j, b)
  | None =>
      let newVarIndex := getVarCount b in
      (newVarIndex,
       mk (<[varName := newVarIndex]> (strToIndex b)) (indexToStr b ++ [varName]))
  end.

(** The guard compares in [size_t]: [indexToStr.size() - 1] wraps for an
    empty vector.  [None] stands for a read outside the vector. *)
Definition getVarName (varIndex : Z) (b : t) : option string :=
  if varIndex <=? u64 (Z.of_nat (length (indexToStr b)) - 1)
  then indexToStr b !! Z.to_nat varIndex
  else Some "[unknown-var]"%string.

End VarBimap.

(** ** class IP::Node *)

Module Node.

Inductive Type_ := IP_FEASIBLE | LP_FEASIBLE | INFEASIBLE | UNBOUNDED.

Global Instance Type_eq_dec : EqDecision Type_.
Proof. solve_decision. Defined.

Record t := mk {
  solution : list float;
  lowerBound : float;
  type : Type_;
  varRangeLeft : list (float * float);
  varRangeRight : list (float * float)
}.

Definition getSplitVarIndex (lp : LP.t) : Z :=
  let sol := LP.solution lp in
  firstFrom (fun i => negb (FOP.isInt (vget 0%float sol i))) 0 (length sol).

(** The function returns at its first statement; the code after it is
    never reached. *)
Definition getSplitValue (varRange : float * float) (varSolution : float) : float :=
  varSolution.

(** [struct cmp] *)
Definition cmp (a b : t) : bool := (lowerBound b <? lowerBound a)%float.

(** The constructor.  It reads [lp.solutionType] and [lp.extremum]; the
    result is [None] when the LP ran out of fuel or left one unassigned. *)
Definition new (fuel : nat) (objFunc : Linearform.t)
    (multiCon : list Constraint.t) (varRange : list (float * float)) : option t :=
  lp ← LP.new fuel true objFunc multiCon varRange;
  ty ← LP.solutionType lp;
  ext ← LP.extremum lp;
  let sol := LP.solution lp in
  Some
    match ty with
    | LP.INFEASIBLE => mk sol ext INFEASIBLE [] []
    | LP.UNBOUNDED => mk sol ext UNBOUNDED [] []
    | LP.BOUNDED =>
        let splitVarIndex := getSplitVarIndex lp in
        if splitVarIndex =? -1 then mk sol ext IP_FEASIBLE [] []
        else
          let r := vget (0%float, 0%float) varRange splitVarIndex in
          let splitValue := floor (getSplitValue r (vget 0%float sol splitVarIndex)) in
          mk sol ext LP_FEASIBLE
             (vset varRange splitVarIndex (r.1, splitValue))
             (vset varRange splitVarIndex ((splitValue + 1)%float, r.2))
    end.

End Node.

(** ** class IP *)

Module IP.

Inductive Type_ := BOUNDED | INFEASIBLE | UNBOUNDED.

Global Instance Type_eq_dec : EqDecision Type_.
Proof. solve_decision. Defined.

Record t := mk {
  isMin : bool;
  objFunc : Linearform.t;
  multiCon : list Constraint.t;
  bimap : VarBimap.t;
  nodeQueue : list Node.t;          (* the vector under the priority queue *)
  objValueUpperBound : float;
  nodeSolvedCount : Z;
  solutionType : Type_;
  solution : list float;
  extremum : option float           (* [None]: not assigned yet *)
}.

(** [objFunc.add(coef, bimap.getVarIndex(varName))] for every term. *)
Definition addTerms {X : Type} (add : float -> Z -> X -> X)
    (terms : list (float * string)) (st : X * VarBimap.t) : X * VarBimap.t :=
  foldl (fun st '(coef, varName) =>
           let '(j, b) := VarBimap.getVarIndex varName st.2 in
           (add coef j st.1, b))
        st terms.

(** The constructor [IP::IP(mode, terms)]. *)
Definition new (mode : string) (terms : list (float * string)) : t :=
  let '(obj, b) := addTerms Linearform.add terms (Linearform.empty, VarBimap.empty) in
  mk (bool_decide (mode = "min"%string)) obj [] b [] FP64_INF 0 INFEASIBLE [] None.

Definition addConstraint (terms : list (float * string)) (mode : string)
    (rightConst : float) (ip : t) : t :=
  let '(con, b) := addTerms Constraint.add terms (Constraint.new, bimap ip) in
  let con1 :=
    if bool_decide (mode = "<="%string) then Constraint.leq rightConst con
    else if bool_decide (mode = ">="%string) then Constraint.geq rightConst con
    else Constraint.eq rightConst con in
  mk (isMin ip) (objFunc ip)
     (multiCon ip ++ [Constraint.stdOfNegativeRightConst con1]) b
     (nodeQueue ip) (objValueUpperBound ip) (nodeSolvedCount ip)
     (solutionType ip) (solution ip) (extremum ip).

Definition checkNode (node : Node.t) (ip : t) : t :=
  let ip1 :=
    if bool_decide (Node.type node = Node.IP_FEASIBLE)
       && (Node.lowerBound node <? objValueUpperBound ip)%float
    then
      mk (isMin ip) (objFunc ip) (multiCon ip) (bimap ip) (nodeQueue ip)
         (Node.lowerBound node) (nodeSolvedCount ip)
         BOUNDED (Node.solution node) (extremum ip)
    else if bool_decide (Node.type node = Node.LP_FEASIBLE)
            && (Node.lowerBound node <? objValueUpperBound ip)%float
    then
      mk (isMin ip) (objFunc ip) (multiCon ip) (bimap ip)
         (PriorityQueue.push Node.cmp node (nodeQueue ip))
         (objValueUpperBound ip) (nodeSolvedCount ip)
         (solutionType ip) (solution ip) (extremum ip)
    else if bool_decide (Node.type node = Node.UNBOUNDED)
    then
      mk (isMin ip) (objFunc ip) (multiCon ip) (bimap ip) (nodeQueue ip)
         (objValueUpperBound ip) (nodeSolvedCount ip)
         UNBOUNDED (solution ip) (extremum ip)
    else ip in
  mk (isMin ip1) (objFunc ip1) (multiCon ip1) (bimap ip1) (nodeQueue ip1)
     (objValueUpperBound ip1) (u32 (nodeSolvedCount ip1 + 1))
     (solutionType ip1) (solution ip1) (extremum ip1).

Definition init (fuel : nat) (ip : t) : option t :=
  let obj := if negb (isMin ip) then Linearform.negate (objFunc ip) else objFunc ip in
  let ip1 := mk (isMin ip) obj (multiCon ip) (bimap ip) (nodeQueue ip)
                (objValueUpperBound ip) (nodeSolvedCount ip)
                (solutionType ip) (solution ip) (extremum ip) in
  let varCount := VarBimap.getVarCount (bimap ip) in
  let varRange := replicate (Z.to_nat varCount) (0%float, FP64_INF) in
  rootNode ← Node.new fuel obj (multiCon ip) varRange;
  Some (checkNode rootNode ip1).

(** [nodeQueue.pop()] *)
Definition popNode (ip : t) : t :=
  mk (isMin ip) (objFunc ip) (multiCon ip) (bimap ip)
     (PriorityQueue.pop Node.cmp (nodeQueue ip))
     (objValueUpperBound ip) (nodeSolvedCount ip)
     (solutionType ip) (solution ip) (extremum ip).

(** One iteration of the [while] loop of [solve]: take the top node, pop
    it, solve both children, check them. *)
Definition expand (fuel : nat) (ip : t) : option t :=
  node ← PriorityQueue.top (nodeQueue ip);
  leftChildNode ← Node.new fuel (objFunc ip) (multiCon ip) (Node.varRangeLeft node);
  rightChildNode ← Node.new fuel (objFunc ip) (multiCon ip) (Node.varRangeRight node);
  Some (checkNode rightChildNode (checkNode leftChildNode (popNode ip))).

Definition continue (ip : t) : bool :=
  (0 <? Z.of_nat (length (nodeQueue ip)))
  && bool_decide (solutionType ip ≠ UNBOUNDED).

Fixpoint loop (fuel n : nat) (ip : t) : option t :=
  if continue ip then
    match n with
    | O => None
    | S n' => ip' ← expand fuel ip; loop fuel n' ip'
    end
  else Some ip.

Definition finish (ip : t) : t :=
  mk (isMin ip) (objFunc ip) (multiCon ip) (bimap ip) (nodeQueue ip)
     (objValueUpperBound ip) (nodeSolvedCount ip) (solutionType ip)
     (solution ip)
     (Some (objValueUpperBound ip * LP.sign (isMin ip))%float).

(** [IP::solve]; [fuel] bounds both the pivots of every LP and the number
    of nodes expanded. *)
Definition solve (fuel : nat) (ip : t) : option t :=
  ip1 ← init fuel ip;
  ip2 ← loop fuel fuel ip1;
  Some (finish ip2).

End IP.

(** * Concrete problems *)

Module Examples.

(** [Linearform().add(c1, i1).add(c2, i2)...] *)
Definition linearform (l : list (float * Z)) : Linearform.t :=
  foldl (fun a '(c, i) => Linearform.add c i a) Linearform.empty l.

(** [Constraint().add(c1, i1).add(c2, i2)...] *)
Definition constraint (l : list (float * Z)) : Constraint.t :=
  foldl (fun a '(c, i) => Constraint.add c i a) Constraint.new l.

Definition nonneg2 : list (float * float) :=
  [(0%float, FP64_INF); (0%float, FP64_INF)].

(** Test 0 of [Tester::lpTests]: max x0 + x1 under 4 x0 + 3 x1 <= 17,
    2 x0 - 5 x1 >= -9 and x0 + 10 x1 >= 25. *)
Definition test0_obj : Linearform.t := linearform [(1%float, 0); (1%float, 1)].
Definition test0_con : list Constraint.t :=
  [ Constraint.leq 17 (constraint [(4%float, 0); (3%float, 1)]);
    Constraint.geq (-9) (constraint [(2%float, 0); ((-5)%float, 1)]);
    Constraint.geq 25 (constraint [(1%float, 0); (10%float, 1)]) ].


(** Test 2: max x0 under x0 - x1 <= 1 and 2 x0 - x1 <= 4. *)
Definition test2_obj : Linearform.t := linearform [(1%float, 0)].
Definition test2_con : list Constraint.t :=
  [ Constraint.leq 1 (constraint [(1%float, 0); ((-1)%float, 1)]);
    Constraint.leq 4 (constraint [(2%float, 0); ((-1)%float, 1)]) ].

(** min -0.00005 x0 under x0 <= 1: the optimum is x0 = 1. *)
Definition tiny_obj : Linearform.t := linearform [((-0.00005)%float, 0)].
Definition tiny_con : list Constraint.t :=
  [ Constraint.leq 1 (constraint [(1%float, 0)]) ].
Definition tiny_range : list (float * float) := [(0%float, FP64_INF)].


(** The states of the phase-2 driver on test 2: the start and the heads of
    the loop after one and two pivots. *)
Definition test2_s0 : LP.t :=
  LP.phase2Start (LP.construct false test2_obj test2_con nonneg2).


(** min -3 x0 - x1 under 4 x0 + 2 x1 <= 11, x0 >= 1 and x0 <= 2, the min
    form of "max 3 x + y" with x in [1, 2]: the relaxation has its optimum at
    (2, 1.5). *)
Definition branch_obj : Linearform.t := linearform [((-3)%float, 0); ((-1)%float, 1)].
Definition branch_con : list Constraint.t :=
  [ Constraint.leq 11 (constraint [(4%float, 0); (2%float, 1)]);
    Constraint.geq 1 (constraint [(1%float, 0)]);
    Constraint.leq 2 (constraint [(1%float, 0)]) ].

End Examples.

(** * States of the driver *)

(** [pivots lp lp']: the driver started on [lp] is at the head of its loop
    in state [lp'] after some number of iterations. *)
Inductive pivots : LP.t -> LP.t -> Prop :=
| pivots_here (lp : LP.t) : pivots lp lp
| pivots_next (lp lp' : LP.t) :
    LP.findNewBaseVarIndex lp <> -1 ->
    LP.findMinPosRatioRowIndex (u32 (LP.findNewBaseVarIndex lp)) lp <> -1 ->
    pivots (LP.pivot (LP.findMinPosRatioRowIndex (u32 (LP.findNewBaseVarIndex lp)) lp)
                     (LP.findNewBaseVarIndex lp) lp) lp' ->
    pivots lp lp'.

(** The ratio test of the driver finds no row for the entering column of [lp]. *)
Definition ratioTestFails (lp : LP.t) : Prop :=
  LP.findNewBaseVarIndex lp <> -1
  /\ LP.findMinPosRatioRowIndex (u32 (LP.findNewBaseVarIndex lp)) lp = -1.

(** The loops of [handleUnbound] and [handleBound] assign, row after row,
    a value to the entry of a result vector that the row's basic column
    names, when that column is a general variable. *)
Definition assignStep {A : Type} (key : Z -> Z) (val : Z -> A) (bound : Z)
    (st : list A) (i : Z) : list A :=
  if key i <=? bound then vset st (key i) (val i) else st.

(** * The incumbent and the sense of the problem *)

(** [new] is not above [old]: it is [old], or it is strictly less. *)
Definition nonIncreasing (old new : float) : Prop :=
  new = old \/ (new <? old)%float = true.

(** The statements [solve] executes on the state of the search: a call of
    [checkNode] or a pop of the queue. *)
Inductive solveSteps : IP.t -> IP.t -> Prop :=
| steps_done (ip : IP.t) : solveSteps ip ip
| steps_check (node : Node.t) (ip ip' : IP.t) :
    solveSteps (IP.checkNode node ip) ip' -> solveSteps ip ip'
| steps_pop (ip ip' : IP.t) :
    solveSteps (IP.popNode ip) ip' -> solveSteps ip ip'.


(** The problem with every objective coefficient negated and the sense
    switched between min and max. *)
Definition flipSense (ip : IP.t) : IP.t :=
  IP.mk (negb (IP.isMin ip)) (Linearform.negate (IP.objFunc ip)) (IP.multiCon ip)
        (IP.bimap ip) (IP.nodeQueue ip) (IP.objValueUpperBound ip)
        (IP.nodeSolvedCount ip) (IP.solutionType ip) (IP.solution ip)
        (IP.extremum ip).

(** * The heap under the node queue *)

(** The parent of index [i] in the implicit binary tree of the vector,
    [(i - 1) / 2] as the library computes it. *)
Definition parent (i : Z) : Z := Z.quot (i - 1) 2.

(** The first [len] entries of [first] are a heap for [comp]: no entry
    compares below its parent ([comp parent child = false]). *)
Definition heapUpto {A : Type} (comp : A -> A -> bool) (d : A) (len : Z)
    (first : list A) : Prop :=
  forall i, 1 <= i < len -> comp (vget d first (parent i)) (vget d first i) = false.

(** The vector is a heap but for a hole at [h] that [value] is to fill, on
    its way up: the entries around the hole are ordered as if [value] sat in
    it, except that [value] may still have to pass the parent of the hole. *)
Definition holeUp {A : Type} (comp : A -> A -> bool) (ok : A -> Prop) (d : A)
    (first : list A) (len h : Z) (value : A) : Prop :=
  0 <= h < len /\ len <= Z.of_nat (length first)
  /\ ok value
  /\ (forall i, 0 <= i < len -> i <> h -> ok (vget d first i))
  /\ (forall i, 1 <= i < len -> i <> h -> parent i <> h ->
        comp (vget d first (parent i)) (vget d first i) = false)
  /\ (forall c, 1 <= c < len -> parent c = h -> comp value (vget d first c) = false)
  /\ (1 <= h -> forall c, 1 <= c < len -> parent c = h ->
        comp (vget d first (parent h)) (vget d first c) = false).

(** The vector is a heap but for a hole at [h] on its way down. *)
Definition holeDown {A : Type} (comp : A -> A -> bool) (ok : A -> Prop) (d : A)
    (first : list A) (len h : Z) : Prop :=
  0 <= h < len /\ len <= Z.of_nat (length first)
  /\ (forall i, 0 <= i < len -> i <> h -> ok (vget d first i))
  /\ (forall i, 1 <= i < len -> i <> h -> parent i <> h ->
        comp (vget d first (parent i)) (vget d first i) = false)
  /\ (1 <= h -> forall c, 1 <= c < len -> parent c = h ->
        comp (vget d first (parent h)) (vget d first c) = false).

(** An open node: its relaxation is feasible with a fractional variable, and
    its lower bound is a number. *)
Definition openNode (y : Node.t) : Prop :=
  Node.type y = Node.LP_FEASIBLE /\ is_nan (Node.lowerBound y) = false.

(** A queue of nodes in the state the search keeps it in: a heap for
    [Node::cmp] of open nodes. *)
Definition queueOk (q : list Node.t) : Prop :=
  heapUpto Node.cmp (Node.mk [] 0%float Node.INFEASIBLE [] []) (Z.of_nat (length q)) q
  /\ Forall openNode q.

(** The state after [k] iterations of the [while] loop of [solve]. *)
Fixpoint iterations (fuel k : nat) (ip : IP.t) : option IP.t :=
  match k with
  | O => Some ip
  | S k' => ip' ← IP.expand fuel ip; iterations fuel k' ip'
  end.

(** minimize 0 x under x + y - z - w = 0.5: no integer point, and every
    relaxation has the optimum 0. *)
Definition tie_ip : IP.t :=
  IP.addConstraint [(1%float, "x"%string); (1%float, "y"%string);
                    ((-1)%float, "z"%string); ((-1)%float, "w"%string)]
                   "="%string 0.5 (IP.new "min"%string [(0%float, "x"%string)]).

(** The queue of [tie_ip] after [k] iterations, front first: the lower bound
    and the relaxed solution of every node. *)
Definition tie_queue (k : nat) : option (list (float * list float)) :=
  ip1 ← IP.init 8 tie_ip;
  ipk ← iterations 8 k ip1;
  Some (map (fun y => (Node.lowerBound y, Node.solution y)) (IP.nodeQueue ipk)).

(** * The bimap of the variables *)

(** The bimap after the names of a list were registered in order. *)
Definition registerAll (names : list string) (b : VarBimap.t) : VarBimap.t :=
  foldl (fun b name => (VarBimap.getVarIndex name b).2) b names.

(** The two directions of the bimap agree. *)
Definition bimapOk (b : VarBimap.t) : Prop :=
  forall (name : string) (j : Z),
    VarBimap.strToIndex b !! name = Some j
    <-> (0 <= j /\ VarBimap.indexToStr b !! Z.to_nat j = Some name).

(** * Normalised constraints *)

(** The right constant is a number that is not negative. *)
Definition rightConstOk (c : Constraint.t) : Prop :=
  (0 <=? Constraint.rightConst c)%float = true.

(** * The cells of a tableau *)

(** The array holds [rows * cols] cells and no index of a cell wraps. *)
Definition shaped (tb : Tableau.t) : Prop :=
  0 <= Tableau.rows tb /\ 0 <= Tableau.cols tb
  /\ Tableau.rows tb * Tableau.cols tb < 2 ^ 32
  /\ Z.of_nat (length (Tableau.arr tb)) = Tableau.rows tb * Tableau.cols tb.

(** [(i, j)] names a cell of the tableau. *)
Definition cell (tb : Tableau.t) (i j : Z) : Prop :=
  0 <= i < Tableau.rows tb /\ 0 <= j < Tableau.cols tb.

(** Two tableaux with the same dimensions and the same basis. *)
Definition sameFrame (tb tb' : Tableau.t) : Prop :=
  Tableau.rows tb' = Tableau.rows tb /\ Tableau.cols tb' = Tableau.cols tb
  /\ Tableau.baseVarIndexs tb' = Tableau.baseVarIndexs tb.

(** * The vectorised elimination *)

(** ** parallelArrayElimination

    The four-lane vector type [__m256d] and the intrinsics the function
    uses; a pointer into [arr] is the index of the cell it points to, computed
    in [size_t]. *)
Module Avx.

Record m256d := mk { lane0 : float; lane1 : float; lane2 : float; lane3 : float }.

Definition set1_pd (a : float) : m256d := mk a a a a.

Definition loadu_pd (arr : list float) (p : Z) : m256d :=
  mk (vget 0%float arr p) (vget 0%float arr (p + 1))
     (vget 0%float arr (p + 2)) (vget 0%float arr (p + 3)).

Definition storeu_pd (arr : list float) (p : Z) (v : m256d) : list float :=
  vset (vset (vset (vset arr p (lane0 v)) (p + 1) (lane1 v)) (p + 2) (lane2 v))
       (p + 3) (lane3 v).

Definition mul_pd (a b : m256d) : m256d :=
  mk (lane0 a * lane0 b) (lane1 a * lane1 b) (lane2 a * lane2 b) (lane3 a * lane3 b).

Definition sub_pd (a b : m256d) : m256d :=
  mk (lane0 a - lane0 b) (lane1 a - lane1 b) (lane2 a - lane2 b) (lane3 a - lane3 b).

End Avx.

(** The body of the loop over the rows, for a row [k] other than [i]: the
    vector loop visits [c = 0, 4, ...] while [c + 3 < cols], that is
    [c = 4 q] for [q < cols / 4] (the sum [c + 3] does not wrap for
    [cols < 2^32 - 3]); the scalar loop visits the columns that are left.
    The pointers [ptrRowI] and [ptrRowK] are computed in [size_t], where
    the product of two 32-bit numbers does not wrap. *)
Definition eliminateRow (cols : Z) (i j : Z) (arr : list float) (k : Z) : list float :=
  let ptrRowI := cols * i in
  let ptrRowK := cols * k in
  let ratio := (vget 0%float arr (ptrRowK + j) / vget 0%float arr (ptrRowI + j))%float in
  let vecRatio := Avx.set1_pd ratio in
  let arr1 :=
    foldl (fun arr q =>
             let c := 4 * q in
             let vecScaled := Avx.mul_pd (Avx.loadu_pd arr (ptrRowI + c)) vecRatio in
             Avx.storeu_pd arr (ptrRowK + c)
                           (Avx.sub_pd (Avx.loadu_pd arr (ptrRowK + c)) vecScaled))
          arr (range 0 (cols / 4)) in
  let arr2 :=
    foldl (fun arr c =>
             vset arr (ptrRowK + c)
                  (vget 0%float arr (ptrRowK + c)
                   - vget 0%float arr (ptrRowI + c) * ratio)%float)
          arr1 (range (4 * (cols / 4)) cols) in
  vset arr2 (ptrRowK + j) 0%float.

(** [rows] is [arr.size() / cols] cut to 32 bits; the last loop computes
    its index [cols * i + k] in [uint32_t]. *)
Definition parallelArrayElimination (cols : Z) (arr : list float) (i j : Z)
    : list float :=
  let rows := u32 (Z.of_nat (length arr) / cols) in
  let arr1 :=
    foldl (fun arr k => if bool_decide (k ≠ i) then eliminateRow cols i j arr k else arr)
          arr (range 0 rows) in
  let aij := vget 0%float arr1 (u32 (cols * i + j)) in
  foldl (fun arr k =>
           vset arr (u32 (cols * i + k))
                (vget 0%float arr (u32 (cols * i + k)) / aij)%float)
        arr1 (range 0 cols).

(** [Tableau::elimination] with [enableMatrixEliminationParallel] set. *)
Definition eliminationParallel (i j : Z) (tb : Tableau.t) : Tableau.t :=
  Tableau.mk (parallelArrayElimination (Tableau.cols tb) (Tableau.arr tb) i j)
             (Tableau.rows tb) (Tableau.cols tb) (Tableau.baseVarIndexs tb).

(** One cell of row [k] updated as the scalar loop does it. *)
Definition rowCell (pI pK : Z) (ratio : float) (a : list float) (c : Z) : list float :=
  vset a (pK + c) (vget 0%float a (pK + c) - vget 0%float a (pI + c) * ratio)%float.

(** * The ratio test *)

(** The ratio of row [i] for the entering column [j]. *)
Definition ratio (tb : Tableau.t) (j i : Z) : float :=
  (Tableau.get tb i (LP.lastCol tb) / Tableau.get tb i j)%float.

(** The state of the loop of [findMinPosRatioRowIndex] before row [k]. *)
Definition minRatioInv (tb : Tableau.t) (j k : Z) (st : float * Z) : Prop :=
  ((st.2 = -1 /\ st.1 = 1e300%float)
   \/ (1 <= st.2 < k /\ FOP.isPos (Tableau.get tb st.2 j) = true
       /\ st.1 = ratio tb j st.2 /\ (st.1 <? 1e300)%float = true
       /\ forall i, 1 <= i < st.2 -> FOP.isPos (Tableau.get tb i j) = true ->
                    (ratio tb j i <=? st.1)%float = false))
  /\ forall i, 1 <= i < k -> FOP.isPos (Tableau.get tb i j) = true ->
               (ratio tb j i <? st.1)%float = false.

(** * Dimensions and basis of a tableau *)

(** The dimensions and the length of the array, which no cell assignment
    changes. *)
Definition sameDims (tb tb' : Tableau.t) : Prop :=
  Tableau.rows tb' = Tableau.rows tb /\ Tableau.cols tb' = Tableau.cols tb
  /\ length (Tableau.arr tb') = length (Tableau.arr tb)
  /\ length (Tableau.baseVarIndexs tb') = length (Tableau.baseVarIndexs tb).

(** No entry of the basis vector is -1. *)
Definition allBasic (tb : Tableau.t) : Prop := forall i, Tableau.base tb i <> -1.

(** * The state of the search *)

(** The problem of [ip'] is the problem of [ip]. *)
Definition sameProblem (ip ip' : IP.t) : Prop :=
  IP.isMin ip' = IP.isMin ip /\ IP.objFunc ip' = IP.objFunc ip
  /\ IP.multiCon ip' = IP.multiCon ip /\ IP.bimap ip' = IP.bimap ip.

(** No node was checked yet. *)
Definition fresh (ip : IP.t) : Prop :=
  IP.nodeQueue ip = [] /\ IP.objValueUpperBound ip = FP64_INF
  /\ IP.solutionType ip = IP.INFEASIBLE /\ IP.solution ip = [].

(** max 3 x + y under 4 x + 2 y <= 11 and 1 <= x <= 2. *)
Definition small_ip : IP.t :=
  IP.addConstraint [(1%float, "x")] "<=" 2
    (IP.addConstraint [(1%float, "x")] ">=" 1
       (IP.addConstraint [(4%float, "x"); (2%float, "y")] "<=" 11
          (IP.new "max" [(3%float, "x"); (1%float, "y")])))%string.

(** min x under x >= 2 and x <= 1. *)
Definition infeasible_ip : IP.t :=
  IP.addConstraint [(1%float, "x")] "<=" 1
    (IP.addConstraint [(1%float, "x")] ">=" 2
       (IP.new "min" [(1%float, "x")]))%string.

(** * The variables of a problem *)

(** Every variable of the terms [m] is below [n]. *)
Definition termsBelow (n : Z) (m : gmap Z float) : Prop :=
  forall j c, m !! j = Some c -> 0 <= j < n.

(** The number of registered variables. *)
Definition varCountOf (b : VarBimap.t) : Z := Z.of_nat (length (VarBimap.indexToStr b)).

(** Every variable of the objective and of the constraints is registered. *)
Definition variablesOk (ip : IP.t) : Prop :=
  bimapOk (IP.bimap ip)
  /\ termsBelow (varCountOf (IP.bimap ip)) (Linearform.terms (IP.objFunc ip))
  /\ Forall (fun c => termsBelow (varCountOf (IP.bimap ip)) (Constraint.getTerms c))
            (IP.multiCon ip).

(** * The rows of the constraints *)

(** The slack column of the constraint at position [k] of [L], when it has
    one: the general variables come first, then one column for every
    constraint with a slack variable, in order. *)
Definition slackCol (n : Z) (L : list Constraint.t) (k : nat) : Z :=
  n - 1 + LP.slackVarCount (take (S k) L).

(** Row [k + 1] of the tableau holds the constraint [con]: its
    coefficients, its slack coefficient in its slack column, zero in the
    other slack columns, its right constant, and its basis. *)
Definition rowHolds (tb : Tableau.t) (n : Z) (L : list Constraint.t) (k : nat)
    (con : Constraint.t) : Prop :=
  let row := Z.of_nat k + 1 in
  (forall j, 0 <= j < n ->
     Tableau.get tb row j = default 0%float (Constraint.getTerms con !! j))
  /\ Tableau.get tb row (Tableau.cols tb - 1) = Constraint.getRightConst con
  /\ (forall j, n <= j < Tableau.cols tb - 1 ->
        Tableau.get tb row j
        = if decide (Constraint.haveSlackVar con = true /\ j = slackCol n L k)
          then Constraint.getSlackVarCoef con else 0%float)
  /\ Tableau.base tb row
     = if Constraint.haveArtificialVar con then -1 else slackCol n L k.

(** * A problem with an integral root *)

(** min x under x >= 2: the root relaxation has the integral optimum x = 2. *)
Definition integral_ip : IP.t :=
  IP.addConstraint [(1%float, "x")] ">=" 2 (IP.new "min" [(1%float, "x")])%string.

(** * The coefficient of a repeated variable *)

(** The coefficient a list of terms gives the variable [name]: the
    coefficients of its occurrences, added in order to [init]; [None] while
    there is none. *)
Definition coefSumFrom (init : option float) (name : string)
    (terms : list (float * string)) : option float :=
  foldl (fun acc '(coef, varName) =>
           if bool_decide (varName = name)
           then Some (match acc with Some a => (a + coef)%float | None => coef end)
           else acc)
        init terms.

Definition coefSum (name : string) (terms : list (float * string)) : option float :=
  coefSumFrom None name terms.

(** * Facts about machine integers and vectors *)

Lemma u32_small (z : Z) : 0 <= z < 2 ^ 32 -> u32 z = z.
Proof. intros H. unfold u32. now apply Z.mod_small. Qed.

Lemma u32_bounds (z : Z) : 0 <= u32 z < 2 ^ 32.
Proof. unfold u32. apply Z.mod_pos_bound. lia. Qed.

Lemma i32_small (z : Z) : 0 <= z < 2 ^ 31 -> i32 z = z.
Proof.
  intros H. unfold i32. rewrite u32_small by lia.
  destruct (Z.ltb_spec z (2 ^ 31)); lia.
Qed.

Lemma vset_length {A : Type} (v : list A) (k : Z) (x : A) :
  length (vset v k x) = length v.
Proof. unfold vset. apply length_insert. Qed.

Lemma vget_vset_eq {A : Type} (d : A) (v : list A) (k : Z) (x : A) :
  0 <= k < Z.of_nat (length v) -> vget d (vset v k x) k = x.
Proof.
  intros H. unfold vget, vset.
  rewrite list_lookup_insert_eq by lia. reflexivity.
Qed.

Lemma vget_vset_ne {A : Type} (d : A) (v : list A) (k k' : Z) (x : A) :
  0 <= k -> 0 <= k' -> k <> k' -> vget d (vset v k x) k' = vget d v k'.
Proof.
  intros Hk Hk' Hne. unfold vget, vset.
  rewrite list_lookup_insert_ne by lia. reflexivity.
Qed.

Lemma vget_replicate {A : Type} (d x : A) (n : nat) (k : Z) :
  0 <= k < Z.of_nat n -> vget d (replicate n x) k = x.
Proof.
  intros H. unfold vget.
  rewrite lookup_replicate_2 by lia. reflexivity.
Qed.

Lemma range_snoc (lo hi : Z) : lo <= hi -> range lo (hi + 1) = range lo hi ++ [hi].
Proof.
  intros H. unfold range.
  replace (hi + 1 - lo) with ((hi - lo) + 1) by lia.
  rewrite seqZ_app by lia. f_equal.
  replace (lo + (hi - lo)) with hi by lia. reflexivity.
Qed.

Lemma elem_of_range (lo hi k : Z) : k ∈ range lo hi <-> lo <= k < hi.
Proof. unfold range. rewrite elem_of_seqZ. lia. Qed.

(** * The entering column (C1) *)

(** [firstFrom] returns the first index of its range that satisfies the
    test, and -1 when none does. *)
Lemma firstFrom_spec (p : Z -> bool) (n : nat) (j : Z) :
  0 <= j -> j + Z.of_nat n <= 2 ^ 31 ->
  (firstFrom p j n = -1 /\ forall k, j <= k < j + Z.of_nat n -> p k = false)
  \/ (j <= firstFrom p j n < j + Z.of_nat n
      /\ p (firstFrom p j n) = true
      /\ forall k, j <= k < firstFrom p j n -> p k = false).
Proof.
  revert j. induction n as [|n IH]; intros j Hj Hn.
  - left. split; [reflexivity | intros k Hk; lia].
  - cbn [firstFrom]. destruct (p j) eqn:Hp.
    + right. rewrite i32_small by lia.
      split; [lia | split; [exact Hp | intros k Hk; lia]].
    + destruct (IH (j + 1)) as [[H1 H2] | (H1 & H2 & H3)]; try lia.
      * left. split; [exact H1 |].
        intros k Hk. destruct (decide (k = j)) as [-> | Hne]; [exact Hp |].
        apply H2. lia.
      * right. split; [lia | split; [exact H2 |]].
        intros k Hk. destruct (decide (k = j)) as [-> | Hne]; [exact Hp |].
        apply H3. lia.
Qed.

(** C1 (as amended).  On every iteration the driver takes as entering column
    the smallest column index [j], the right-hand-side column excluded, whose
    row-0 entry is at least [FOP::EPS = 1e-4]; it pivots on that column, or
    reports unboundedness when the ratio test finds no row.  When no column
    qualifies the driver stops with the tableau as it is, and returns [true]
    (the basis is optimal) unless a row still has an artificial basis. *)
Theorem driver_enters_first_column_at_least_EPS (lp : LP.t) :
  2 <= Tableau.cols (LP.tableau lp) <= 2 ^ 31 ->
  let tb := LP.tableau lp in
  let j := LP.findNewBaseVarIndex lp in
  (j = -1
   /\ (forall k, 0 <= k <= Tableau.cols tb - 2 ->
         (1e-4 <=? Tableau.get tb 0 k)%float = false)
   /\ forall fuel,
        LP.runMinSimplexMethod (S fuel) lp
        = Some (negb (LP.isTableauHaveArtificialVar lp), lp))
  \/ (0 <= j <= Tableau.cols tb - 2
      /\ (1e-4 <=? Tableau.get tb 0 j)%float = true
      /\ (forall k, 0 <= k < j -> (1e-4 <=? Tableau.get tb 0 k)%float = false)
      /\ forall fuel,
           LP.runMinSimplexMethod (S fuel) lp
           = let r := LP.findMinPosRatioRowIndex j lp in
             if r =? -1 then Some (false, LP.handleUnbound j lp)
             else LP.runMinSimplexMethod fuel
                    (LP.withTableau lp
                       (Tableau.setBase (Tableau.elimination (u32 r) j tb) r j))).
Proof.
  intros Hc tb j.
  assert (Hrun : forall fuel,
             LP.runMinSimplexMethod (S fuel) lp
             = if j =? -1
               then Some (negb (LP.isTableauHaveArtificialVar lp), lp)
               else
                 let r := LP.findMinPosRatioRowIndex (u32 j) lp in
                 if r =? -1 then Some (false, LP.handleUnbound (u32 j) lp)
                 else LP.runMinSimplexMethod fuel
                        (LP.withTableau lp
                           (Tableau.setBase
                              (Tableau.elimination (u32 r) (u32 j) tb) r j)))
    by reflexivity.
  change (LP.tableau lp) with tb in Hc.
  assert (Hn : Z.of_nat (Z.to_nat (u32 (Tableau.cols tb - 2) + 1))
               = Tableau.cols tb - 1).
  { rewrite u32_small by lia. lia. }
  pose proof (firstFrom_spec (fun j => FOP.isPos (Tableau.get tb 0 j))
                (Z.to_nat (u32 (Tableau.cols tb - 2) + 1)) 0) as Hspec.
  change (firstFrom _ 0 _) with j in Hspec.
  clearbody j tb. rewrite Hn in Hspec.
  specialize (Hspec ltac:(lia) ltac:(lia)).
  destruct Hspec as [[H1 H2] | (H1 & H2 & H3)].
  - left. split; [exact H1 | split].
    + intros k Hk. apply (H2 k). lia.
    + intros fuel. rewrite Hrun, H1. reflexivity.
  - right. split; [lia | split; [exact H2 | split]].
    + intros k Hk. apply (H3 k). lia.
    + intros fuel. rewrite Hrun.
      destruct (Z.eqb_spec j (-1)) as [E | _]; [lia |].
      rewrite (u32_small j) by lia. reflexivity.
Qed.

(** The hypothesis of C1's theorem holds, and the theorem applies, at the
    phase-2 tableau of test 2 of [Tester::lpTests]. *)
Lemma driver_enters_first_column_at_least_EPS_witness :
  let lp := LP.phase2Start
              (LP.construct false Examples.test2_obj Examples.test2_con
                            Examples.nonneg2) in
  LP.findNewBaseVarIndex lp = 0
  /\ (1e-4 <=? Tableau.get (LP.tableau lp) 0 0)%float = true.
Proof.
  intros lp.
  destruct (driver_enters_first_column_at_least_EPS lp) as [[H _] | (_ & H & _)].
  - vm_compute. split; discriminate.
  - exfalso. vm_compute in H. discriminate.
  - split; [vm_compute; reflexivity | exact H].
Defined.

(** C1 as stated fails: in phase 2 of "min -0.00005 x0 under x0 <= 1" the
    row-0 entry of column 0 is 0.00005, above 1e-10, yet no column enters and
    the solve stops at x0 = 0. *)
Lemma entering_threshold_counterexample :
  let lp := LP.phase2Start
              (LP.construct true Examples.tiny_obj Examples.tiny_con
                            Examples.tiny_range) in
  (1e-10 <? Tableau.get (LP.tableau lp) 0 0)%float = true
  /\ LP.findNewBaseVarIndex lp = -1
  /\ (LP.solutionType <$> LP.new 1 true Examples.tiny_obj Examples.tiny_con
                                Examples.tiny_range) = Some (Some LP.BOUNDED)
  /\ (LP.solution <$> LP.new 1 true Examples.tiny_obj Examples.tiny_con
                            Examples.tiny_range) = Some [0%float].
Proof. vm_compute. repeat split; reflexivity. Qed.


(** * The driver *)

Lemma withTableau_id (lp : LP.t) : LP.withTableau lp (LP.tableau lp) = lp.
Proof. destruct lp; reflexivity. Qed.

(** The driver changes the tableau only, until it stops. *)
Lemma pivots_withTableau (lp lp' : LP.t) :
  pivots lp lp' -> lp' = LP.withTableau lp (LP.tableau lp').
Proof.
  induction 1 as [lp | lp lp' Hj Hr Hp IH].
  - symmetry. apply withTableau_id.
  - rewrite IH at 1. reflexivity.
Qed.

Lemma pivots_trans (a b c : LP.t) : pivots a b -> pivots b c -> pivots a c.
Proof.
  induction 1 as [lp | lp lp' Hj Hr Hp IH]; intros Hc; [exact Hc |].
  apply pivots_next; auto.
Qed.

(** What a run of the driver that returns has done: some pivots, and then
    either no column could enter or the ratio test failed. *)
Lemma runMinSimplexMethod_outcome (fuel : nat) (lp : LP.t) (b : bool) (lp' : LP.t) :
  LP.runMinSimplexMethod fuel lp = Some (b, lp') ->
  exists lpk,
    pivots lp lpk
    /\ ((LP.findNewBaseVarIndex lpk = -1
         /\ b = negb (LP.isTableauHaveArtificialVar lpk) /\ lp' = lpk)
        \/ (ratioTestFails lpk /\ b = false
            /\ lp' = LP.handleUnbound (u32 (LP.findNewBaseVarIndex lpk)) lpk)).
Proof.
  revert lp. induction fuel as [|fuel IH]; intros lp H; [discriminate |].
  cbn [LP.runMinSimplexMethod] in H.
  destruct (Z.eqb_spec (LP.findNewBaseVarIndex lp) (-1)) as [Ej | Ej].
  - inversion H; subst. exists lp'. split; [constructor | left; auto].
  - destruct (Z.eqb_spec
                (LP.findMinPosRatioRowIndex (u32 (LP.findNewBaseVarIndex lp)) lp) (-1))
      as [Er | Er].
    + inversion H; subst. exists lp. split; [constructor | right].
      split; [split; assumption | auto].
    + destruct (IH _ H) as (lpk & Hp & Hk).
      exists lpk. split; [apply pivots_next; assumption | exact Hk].
Qed.

(** More fuel does not change the result of a run that returns. *)
Lemma runMinSimplexMethod_fuel_mono (fuel fuel' : nat) (lp : LP.t) (r : bool * LP.t) :
  (fuel <= fuel')%nat ->
  LP.runMinSimplexMethod fuel lp = Some r ->
  LP.runMinSimplexMethod fuel' lp = Some r.
Proof.
  revert fuel' lp. induction fuel as [|fuel IH]; intros fuel' lp Hle H; [discriminate |].
  destruct fuel' as [|fuel']; [lia |].
  cbn [LP.runMinSimplexMethod] in *.
  destruct (LP.findNewBaseVarIndex lp =? -1); [exact H |].
  destruct (LP.findMinPosRatioRowIndex _ lp =? -1); [exact H |].
  apply IH; [lia | exact H].
Qed.



(** * The result vectors of [handleUnbound] and [handleBound] *)

Section Assign.
Context {A : Type} (d : A) (key : Z -> Z) (val : Z -> A) (bound : Z).
Hypothesis key_nonneg : forall i, 0 <= key i.

Lemma assign_length (l : list Z) (st : list A) :
  length (foldl (assignStep key val bound) st l) = length st.
Proof.
  revert st. induction l as [|i l IH]; intros st; [reflexivity |].
  cbn [foldl]. rewrite IH. unfold assignStep.
  destruct (key i <=? bound); [apply vset_length | reflexivity].
Qed.

(** An entry that no row names keeps its value. *)
Lemma assign_untouched (l : list Z) (st : list A) (v : Z) :
  0 <= v ->
  (forall i, i ∈ l -> key i <> v) ->
  vget d (foldl (assignStep key val bound) st l) v = vget d st v.
Proof.
  intros Hv. revert st. induction l as [|i l IH]; intros st Hl; [reflexivity |].
  cbn [foldl]. rewrite IH.
  - unfold assignStep. destruct (key i <=? bound); [| reflexivity].
    apply vget_vset_ne; [apply key_nonneg | exact Hv |].
    apply Hl. left.
  - intros i' Hi'. apply Hl. right. exact Hi'.
Qed.

(** An entry that some row names holds the value of the last such row. *)
Lemma assign_last (l1 l2 : list Z) (i : Z) (st : list A) (v : Z) :
  key i = v -> 0 <= v < Z.of_nat (length st) -> v <= bound ->
  (forall i', i' ∈ l2 -> key i' <> v) ->
  vget d (foldl (assignStep key val bound) st (l1 ++ i :: l2)) v = val i.
Proof.
  intros Hk Hv Hb Hl2. rewrite foldl_app. cbn [foldl].
  rewrite assign_untouched by (try lia; exact Hl2).
  unfold assignStep at 1. rewrite Hk.
  destruct (Z.leb_spec v bound); [| lia].
  apply vget_vset_eq. rewrite assign_length. exact Hv.
Qed.

End Assign.

Lemma range_split (lo hi i : Z) :
  lo <= i < hi -> range lo hi = range lo i ++ i :: range (i + 1) hi.
Proof.
  intros H. unfold range.
  replace (hi - lo) with ((i - lo) + (hi - i)) by lia.
  rewrite seqZ_app by lia. f_equal.
  replace (lo + (i - lo)) with i by lia.
  replace (hi - i) with (Z.succ (hi - (i + 1))) by lia.
  rewrite seqZ_cons by lia. f_equal. f_equal; lia.
Qed.

(** The two result vectors of the loop of [handleUnbound] evolve
    independently. *)
Lemma unboundStep_fst (lp : LP.t) (j : Z) (l : list Z) (st : list float * list float) :
  (foldl (LP.unboundStep lp j) st l).1
  = foldl (assignStep (fun i => u32 (Tableau.base (LP.tableau lp) i))
             (fun i => Tableau.get (LP.tableau lp) i (LP.lastCol (LP.tableau lp)))
             (u32 (LP.varCount lp - 1)))
          st.1 l.
Proof.
  revert st. induction l as [|i l IH]; intros st; [reflexivity |].
  cbn [foldl]. rewrite IH. f_equal.
  unfold LP.unboundStep, assignStep.
  destruct (_ <=? _); reflexivity.
Qed.

Lemma unboundStep_snd (lp : LP.t) (j : Z) (l : list Z) (st : list float * list float) :
  (foldl (LP.unboundStep lp j) st l).2
  = foldl (assignStep (fun i => u32 (Tableau.base (LP.tableau lp) i))
             (fun i => (Tableau.get (LP.tableau lp) i j * LP.sign (LP.isMin lp))%float)
             (u32 (LP.varCount lp - 1)))
          st.2 l.
Proof.
  revert st. induction l as [|i l IH]; intros st; [reflexivity |].
  cbn [foldl]. rewrite IH. f_equal.
  unfold LP.unboundStep, assignStep.
  destruct (_ <=? _); reflexivity.
Qed.

(** The vector a loop of [handleUnbound] or [handleBound] builds from the
    zero vector of length [n]: it has length [n]; the entry of a variable
    that is basic in no row is 0; the entry of a variable that is basic in
    row [i], and in no later row, is the value taken from row [i]. *)
Lemma basic_vector_spec (tb : Tableau.t) (val : Z -> float) (n : Z) :
  1 <= n < 2 ^ 32 ->
  let res := foldl (assignStep (fun i => u32 (Tableau.base tb i)) val (u32 (n - 1)))
                   (replicate (Z.to_nat n) 0%float)
                   (range 1 (Tableau.rows tb)) in
  Z.of_nat (length res) = n
  /\ (forall v, 0 <= v < n ->
        (forall i, 1 <= i < Tableau.rows tb -> u32 (Tableau.base tb i) <> v) ->
        vget 0%float res v = 0%float)
  /\ (forall v i, 0 <= v < n -> 1 <= i < Tableau.rows tb ->
        u32 (Tableau.base tb i) = v ->
        (forall i', i < i' < Tableau.rows tb -> u32 (Tableau.base tb i') <> v) ->
        vget 0%float res v = val i).
Proof.
  intros Hn res.
  assert (Hkey : forall i, 0 <= u32 (Tableau.base tb i)) by (intros; apply u32_bounds).
  split; [| split].
  - subst res. rewrite assign_length, length_replicate. lia.
  - intros v Hv Hno. subst res.
    rewrite (assign_untouched 0%float _ _ _ Hkey) by
      (try lia; intros i Hi; apply Hno; apply elem_of_range; exact Hi).
    apply vget_replicate. lia.
  - intros v i Hv Hi Hk Hlast. subst res.
    rewrite (range_split 1 (Tableau.rows tb) i) by lia.
    apply (assign_last 0%float _ _ _ Hkey); try assumption.
    + rewrite length_replicate. lia.
    + rewrite u32_small by lia. lia.
    + intros i' Hi'. apply Hlast. apply elem_of_range in Hi'. lia.
Qed.

(** * The constructor [LP::LP] *)

Lemma checkInfeasible_outcome (fuel : nat) (lp : LP.t) (b : bool) (lp' : LP.t) :
  LP.checkInfeasible fuel lp = Some (b, lp') ->
  (LP.isTableauHaveArtificialVar lp = false /\ b = true /\ lp' = lp)
  \/ (LP.isTableauHaveArtificialVar lp = true
      /\ exists lpr,
           LP.runMinSimplexMethod fuel (LP.addArtificialRows lp) = Some (b, lpr)
           /\ lp' = if b then LP.clearHead lpr else lpr).
Proof.
  unfold LP.checkInfeasible.
  destruct (LP.isTableauHaveArtificialVar lp) eqn:Ha; cbn [negb].
  - destruct (LP.runMinSimplexMethod fuel (LP.addArtificialRows lp))
      as [[b0 lpr] |] eqn:Hr; [| discriminate].
    destruct b0; intros H; injection H as <- <-;
      right; (split; [reflexivity | exists lpr; split; reflexivity]).
  - intros H; inversion H; subst. left. auto.
Qed.

(** When phase 1 passes, the object differs from the one it started on in
    its tableau only: no result field has been assigned. *)
Lemma checkInfeasible_true_withTableau (fuel : nat) (lp lp2 : LP.t) :
  LP.checkInfeasible fuel lp = Some (true, lp2) ->
  lp2 = LP.withTableau lp (LP.tableau lp2).
Proof.
  intros H. apply checkInfeasible_outcome in H.
  destruct H as [(_ & _ & ->) | (_ & lpr & Hr & ->)].
  - symmetry. apply withTableau_id.
  - apply runMinSimplexMethod_outcome in Hr.
    destruct Hr as (lpk & Hp & [(_ & _ & ->) | (_ & Hb & _)]); [| discriminate].
    apply pivots_withTableau in Hp. rewrite Hp. reflexivity.
Qed.

Lemma checkInfeasible_fuel_mono (fuel fuel' : nat) (lp : LP.t) (r : bool * LP.t) :
  (fuel <= fuel')%nat ->
  LP.checkInfeasible fuel lp = Some r -> LP.checkInfeasible fuel' lp = Some r.
Proof.
  intros Hle. unfold LP.checkInfeasible.
  destruct (negb (LP.isTableauHaveArtificialVar lp)); [auto |].
  destruct (LP.runMinSimplexMethod fuel (LP.addArtificialRows lp)) as [r0 |] eqn:Hr;
    [| discriminate].
  rewrite (runMinSimplexMethod_fuel_mono fuel fuel' _ r0 Hle Hr). auto.
Qed.

(** More fuel does not change what the constructor returns. *)
Lemma new_fuel_mono (fuel fuel' : nat) (isMin : bool) (obj : Linearform.t)
    (cons : list Constraint.t) (vr : list (float * float)) (lp : LP.t) :
  (fuel <= fuel')%nat ->
  LP.new fuel isMin obj cons vr = Some lp ->
  LP.new fuel' isMin obj cons vr = Some lp.
Proof.
  intros Hle. unfold LP.new.
  destruct (LP.checkInfeasible fuel _) as [[b lp2] |] eqn:Hc; [| discriminate].
  rewrite (checkInfeasible_fuel_mono fuel fuel' _ _ Hle Hc).
  destruct b; [| auto].
  destruct (LP.runMinSimplexMethod fuel (LP.phase2Start lp2)) as [r |] eqn:Hr;
    [| discriminate].
  rewrite (runMinSimplexMethod_fuel_mono fuel fuel' _ r Hle Hr). auto.
Qed.

(** A returned status [UNBOUNDED] comes from the ratio test failing in
    phase 2. *)
Lemma new_unbounded_inv (fuel : nat) (isMin : bool) (obj : Linearform.t)
    (cons : list Constraint.t) (vr : list (float * float)) (lp : LP.t) :
  LP.new fuel isMin obj cons vr = Some lp ->
  LP.solutionType lp = Some LP.UNBOUNDED ->
  exists lp2 lpk,
    LP.checkInfeasible fuel (LP.construct isMin obj cons vr) = Some (true, lp2)
    /\ pivots (LP.phase2Start lp2) lpk
    /\ ratioTestFails lpk
    /\ lp = LP.handleUnbound (u32 (LP.findNewBaseVarIndex lpk)) lpk
    /\ lpk = LP.withTableau (LP.construct isMin obj cons vr) (LP.tableau lpk).
Proof.
  unfold LP.new. intros H Hty.
  destruct (LP.checkInfeasible fuel _) as [[b2 lp2] |] eqn:Hc; [| discriminate].
  destruct b2.
  - pose proof (checkInfeasible_true_withTableau _ _ _ Hc) as H2.
    destruct (LP.runMinSimplexMethod fuel (LP.phase2Start lp2)) as [[b4 lp4] |] eqn:Hr;
      [| discriminate].
    destruct b4.
    + inversion H; subst. discriminate.
    + inversion H; subst lp4.
      apply runMinSimplexMethod_outcome in Hr.
      destruct Hr as (lpk & Hp & [(_ & _ & ->) | (Hf & _ & ->)]).
      * apply pivots_withTableau in Hp. rewrite Hp, H2 in Hty. discriminate.
      * exists lp2, lpk. repeat split; try assumption; try apply Hf.
        apply pivots_withTableau in Hp. rewrite Hp. rewrite H2. reflexivity.
  - inversion H; subst. discriminate.
Qed.

(** The two vectors [handleUnbound] leaves in the object. *)
Lemma handleUnbound_vectors (j : Z) (lpk : LP.t) :
  1 <= LP.varCount lpk < 2 ^ 32 ->
  let lp := LP.handleUnbound j lpk in
  let tb := LP.tableau lpk in
  let n := LP.varCount lpk in
  (Z.of_nat (length (LP.solution lp)) = n
   /\ (forall v, 0 <= v < n ->
         (forall i, 1 <= i < Tableau.rows tb -> u32 (Tableau.base tb i) <> v) ->
         vget 0%float (LP.solution lp) v = 0%float)
   /\ (forall v i, 0 <= v < n -> 1 <= i < Tableau.rows tb ->
         u32 (Tableau.base tb i) = v ->
         (forall i', i < i' < Tableau.rows tb -> u32 (Tableau.base tb i') <> v) ->
         vget 0%float (LP.solution lp) v = Tableau.get tb i (LP.lastCol tb)))
  /\ (Z.of_nat (length (LP.unboundedDirection lp)) = n
      /\ (forall v, 0 <= v < n ->
            (forall i, 1 <= i < Tableau.rows tb -> u32 (Tableau.base tb i) <> v) ->
            vget 0%float (LP.unboundedDirection lp) v = 0%float)
      /\ (forall v i, 0 <= v < n -> 1 <= i < Tableau.rows tb ->
            u32 (Tableau.base tb i) = v ->
            (forall i', i < i' < Tableau.rows tb -> u32 (Tableau.base tb i') <> v) ->
            vget 0%float (LP.unboundedDirection lp) v
            = (Tableau.get tb i j * LP.sign (LP.isMin lpk))%float)).
Proof.
  intros Hn lp tb n. subst lp. unfold LP.handleUnbound.
  cbn [LP.solution LP.unboundedDirection LP.withResult].
  rewrite unboundStep_fst, unboundStep_snd. cbn [fst snd].
  split; apply basic_vector_spec; exact Hn.
Qed.

(** C10.  Whenever the solve returns [UNBOUNDED], the solution vector has
    length [n], so it is not empty, and it holds the current basic vertex: a
    general variable that is basic in no constraint row is 0, and a general
    variable that is basic in row [i] (the last such row, should there be
    several) has the right-hand side of row [i]. *)
Theorem unbounded_solution_is_current_vertex (fuel : nat) (isMin : bool)
    (obj : Linearform.t) (cons : list Constraint.t) (vr : list (float * float))
    (lp : LP.t) :
  1 <= Z.of_nat (length vr) < 2 ^ 32 ->
  LP.new fuel isMin obj cons vr = Some lp ->
  LP.solutionType lp = Some LP.UNBOUNDED ->
  let tb := LP.tableau lp in
  let n := Z.of_nat (length vr) in
  length (LP.solution lp) = length vr
  /\ LP.solution lp <> []
  /\ (forall v, 0 <= v < n ->
        (forall i, 1 <= i < Tableau.rows tb -> u32 (Tableau.base tb i) <> v) ->
        vget 0%float (LP.solution lp) v = 0%float)
  /\ (forall v i, 0 <= v < n -> 1 <= i < Tableau.rows tb ->
        u32 (Tableau.base tb i) = v ->
        (forall i', i < i' < Tableau.rows tb -> u32 (Tableau.base tb i') <> v) ->
        vget 0%float (LP.solution lp) v = Tableau.get tb i (LP.lastCol tb)).
Proof.
  intros Hn Hnew Hty tb n.
  destruct (new_unbounded_inv _ _ _ _ _ _ Hnew Hty)
    as (lp2 & lpk & _ & _ & _ & Hlp & Hk).
  assert (Hvc : LP.varCount lpk = n).
  { rewrite Hk. change (u32 (Z.of_nat (length vr)) = n). apply u32_small. lia. }
  destruct (handleUnbound_vectors (u32 (LP.findNewBaseVarIndex lpk)) lpk
              ltac:(rewrite Hvc; exact Hn)) as [(Hlen & H0 & H1) _].
  rewrite <- Hlp in Hlen, H0, H1. rewrite Hvc in Hlen, H0, H1.
  assert (Htb : tb = LP.tableau lpk) by (subst tb; rewrite Hlp; reflexivity).
  rewrite <- Htb in H0, H1.
  split; [lia | split; [| split; assumption]].
  intros E. rewrite E in Hlen. cbn in Hlen. lia.
Qed.

(** The theorem of C10 applies to test 2 of [Tester::lpTests], which the
    solve finds unbounded. *)
Lemma unbounded_solution_is_current_vertex_witness :
  exists lp,
    LP.new 3 false Examples.test2_obj Examples.test2_con Examples.nonneg2 = Some lp
    /\ length (LP.solution lp) = 2%nat.
Proof.
  destruct (LP.new 3 false Examples.test2_obj Examples.test2_con Examples.nonneg2)
    as [lp |] eqn:E; [| vm_compute in E; discriminate].
  exists lp. split; [reflexivity |].
  apply (unbounded_solution_is_current_vertex 3 false Examples.test2_obj
           Examples.test2_con Examples.nonneg2 lp).
  - change (1 <= 2 < 2 ^ 32). lia.
  - exact E.
  - vm_compute in E. injection E as <-. reflexivity.
Defined.

(** * Unboundedness (C3) *)

(** The ratio test fails when no constraint row has an entry of at least
    [FOP::EPS] in the entering column. *)
Lemma findMinPosRatioRowIndex_none (j : Z) (lp : LP.t) :
  (forall i, 1 <= i < Tableau.rows (LP.tableau lp) ->
     FOP.isPos (Tableau.get (LP.tableau lp) i j) = false) ->
  LP.findMinPosRatioRowIndex j lp = -1.
Proof.
  intros H. unfold LP.findMinPosRatioRowIndex.
  assert (Hl : forall i, i ∈ range 1 (Tableau.rows (LP.tableau lp)) ->
               FOP.isPos (Tableau.get (LP.tableau lp) i j) = false).
  { intros i Hi. apply H. apply elem_of_range. exact Hi. }
  clear H.
  assert (Hfold : forall l st,
             (forall i, i ∈ l -> FOP.isPos (Tableau.get (LP.tableau lp) i j) = false) ->
             foldl (LP.minRatioStep (LP.tableau lp) j) st l = st).
  { induction l as [|i l IH]; intros st Hi; [reflexivity |].
    cbn [foldl]. unfold LP.minRatioStep at 2.
    rewrite (Hi i) by left. apply IH.
    intros i' Hi'. apply Hi. right. exact Hi'. }
  rewrite Hfold by exact Hl. reflexivity.
Qed.







(** * Infeasibility (C2) *)

(** The three ways the constructor returns. *)
Lemma new_inv (fuel : nat) (isMin : bool) (obj : Linearform.t)
    (cons : list Constraint.t) (vr : list (float * float)) (lp : LP.t) :
  LP.new fuel isMin obj cons vr = Some lp ->
  let lp1 := LP.construct isMin obj cons vr in
  (exists lpr,
      LP.isTableauHaveArtificialVar lp1 = true
      /\ LP.runMinSimplexMethod fuel (LP.addArtificialRows lp1) = Some (false, lpr)
      /\ lp = LP.setInfeasible lpr)
  \/ (exists lp2 lp4,
        LP.checkInfeasible fuel lp1 = Some (true, lp2)
        /\ LP.runMinSimplexMethod fuel (LP.phase2Start lp2) = Some (true, lp4)
        /\ lp = LP.handleBound lp4)
  \/ (exists lp2 lp4,
        LP.checkInfeasible fuel lp1 = Some (true, lp2)
        /\ LP.runMinSimplexMethod fuel (LP.phase2Start lp2) = Some (false, lp4)
        /\ lp = lp4).
Proof.
  intros H lp1. unfold LP.new in H. fold lp1 in H.
  destruct (LP.checkInfeasible fuel lp1) as [[b2 lp2] |] eqn:Hc; [| discriminate].
  destruct b2.
  - destruct (LP.runMinSimplexMethod fuel (LP.phase2Start lp2)) as [[b4 lp4] |] eqn:Hr;
      [| discriminate].
    destruct b4; injection H as <-; right; [left | right];
      exists lp2, lp4; auto.
  - injection H as <-. left.
    apply checkInfeasible_outcome in Hc.
    destruct Hc as [(_ & Hb & _) | (Ha & lpr & Hr & ->)]; [discriminate |].
    exists lpr. auto.
Qed.

(** The status a phase-2 run that returns [false] leaves is never
    [INFEASIBLE]. *)
Lemma phase2_false_not_infeasible (fuel fuel2 : nat) (lp1 lp2 lp4 : LP.t) :
  LP.solutionType lp1 = None ->
  LP.checkInfeasible fuel lp1 = Some (true, lp2) ->
  LP.runMinSimplexMethod fuel2 (LP.phase2Start lp2) = Some (false, lp4) ->
  LP.solutionType lp4 = None \/ LP.solutionType lp4 = Some LP.UNBOUNDED.
Proof.
  intros H1 Hc Hr.
  apply checkInfeasible_true_withTableau in Hc.
  apply runMinSimplexMethod_outcome in Hr.
  destruct Hr as (lpk & Hp & [(_ & _ & ->) | (_ & _ & ->)]).
  - left. apply pivots_withTableau in Hp. rewrite Hp, Hc. exact H1.
  - right. reflexivity.
Qed.




(** * Branching (C4) *)

Lemma handleBound_solution_length (lp : LP.t) :
  length (LP.solution (LP.handleBound lp)) = Z.to_nat (LP.varCount lp).
Proof.
  unfold LP.handleBound. cbn [LP.solution LP.withResult].
  change (LP.boundStep lp)
    with (assignStep (fun i => u32 (Tableau.base (LP.tableau lp) i))
            (fun i => Tableau.get (LP.tableau lp) i (LP.lastCol (LP.tableau lp)))
            (u32 (LP.varCount lp - 1))).
  rewrite assign_length. apply length_replicate.
Qed.

(** A solve that returns [BOUNDED] returns a solution vector of length [n]. *)
Lemma new_bounded_solution_length (fuel : nat) (isMin : bool) (obj : Linearform.t)
    (cons : list Constraint.t) (vr : list (float * float)) (lp : LP.t) :
  Z.of_nat (length vr) < 2 ^ 32 ->
  LP.new fuel isMin obj cons vr = Some lp ->
  LP.solutionType lp = Some LP.BOUNDED ->
  length (LP.solution lp) = length vr.
Proof.
  intros Hn Hnew Hty.
  destruct (new_inv _ _ _ _ _ _ Hnew)
    as [(lpr & _ & _ & ->) | [(lp2 & lp4 & Hc & Hr & ->) | (lp2 & lp4 & Hc & Hr & ->)]].
  - discriminate.
  - rewrite handleBound_solution_length.
    apply checkInfeasible_true_withTableau in Hc.
    apply runMinSimplexMethod_outcome in Hr.
    destruct Hr as (lpk & Hp & [(_ & _ & ->) | (_ & Hb & _)]); [| discriminate].
    apply pivots_withTableau in Hp. rewrite Hp, Hc.
    change (Z.to_nat (u32 (Z.of_nat (length vr))) = length vr).
    rewrite u32_small by lia. lia.
  - exfalso.
    destruct (phase2_false_not_infeasible fuel fuel
                (LP.construct isMin obj cons vr) lp2 lp4 eq_refl Hc Hr) as [E | E];
      rewrite E in Hty; discriminate.
Qed.

(** C4.  A node whose relaxation is bounded and not integral
    ([LP_FEASIBLE]) splits on the smallest index [v] whose solution value is
    not within [FOP::EPS = 1e-4] of [round] of itself, at
    [s = floor(solution[v])]: the left box is the parent's with [hi[v] = s],
    the right box is the parent's with [lo[v] = s + 1], and no other bound
    changes. *)
Theorem node_splits_first_fractional_at_floor (fuel : nat) (obj : Linearform.t)
    (cons : list Constraint.t) (vr : list (float * float)) (node : Node.t) :
  Z.of_nat (length vr) < 2 ^ 31 ->
  Node.new fuel obj cons vr = Some node ->
  Node.type node = Node.LP_FEASIBLE ->
  exists v,
    0 <= v < Z.of_nat (length vr)
    /\ FOP.isInt (vget 0%float (Node.solution node) v) = false
    /\ (forall k, 0 <= k < v -> FOP.isInt (vget 0%float (Node.solution node) k) = true)
    /\ let s := floor (vget 0%float (Node.solution node) v) in
       let d := (0%float, 0%float) in
       length (Node.varRangeLeft node) = length vr
       /\ length (Node.varRangeRight node) = length vr
       /\ vget d (Node.varRangeLeft node) v = ((vget d vr v).1, s)
       /\ vget d (Node.varRangeRight node) v = ((s + 1)%float, (vget d vr v).2)
       /\ (forall k, 0 <= k -> k <> v ->
             vget d (Node.varRangeLeft node) k = vget d vr k
             /\ vget d (Node.varRangeRight node) k = vget d vr k).
Proof.
  intros Hn Hnew Hty. unfold Node.new in Hnew.
  destruct (LP.new fuel true obj cons vr) as [lp |] eqn:Hlp; [| discriminate].
  cbn [mbind option_bind] in Hnew.
  destruct (LP.solutionType lp) as [ty |] eqn:Hst; [| discriminate].
  cbn [mbind option_bind] in Hnew.
  destruct (LP.extremum lp) as [ext |] eqn:Hext; [| discriminate].
  cbn [mbind option_bind] in Hnew.
  destruct ty; injection Hnew as <-; try discriminate.
  pose proof (new_bounded_solution_length fuel true obj cons vr lp
                ltac:(lia) Hlp Hst) as Hlen.
  pose proof (firstFrom_spec
                (fun i => negb (FOP.isInt (vget 0%float (LP.solution lp) i)))
                (length (LP.solution lp)) 0 ltac:(lia) ltac:(lia)) as Hspec.
  change (firstFrom _ 0 _) with (Node.getSplitVarIndex lp) in Hspec.
  revert Hty. destruct (Z.eqb_spec (Node.getSplitVarIndex lp) (-1)) as [E | E];
    [discriminate |]. intros _.
  destruct Hspec as [[H1 _] | (H1 & H2 & H3)]; [contradiction |].
  exists (Node.getSplitVarIndex lp).
  cbn [Node.solution Node.varRangeLeft Node.varRangeRight].
  unfold Node.getSplitValue.
  split; [lia | split; [| split]].
  - apply negb_true_iff. exact H2.
  - intros k Hk. apply negb_false_iff. apply H3. exact Hk.
  - cbv zeta. rewrite !vset_length.
    split; [reflexivity | split; [reflexivity |]].
    split; [apply vget_vset_eq; lia | split; [apply vget_vset_eq; lia |]].
    intros k Hk Hne. split; apply vget_vset_ne; lia.
Qed.

(** The theorem of C4 applies to the root node of "max 3 x + y under
    4 x + 2 y <= 11, x in [1, 2]": it splits on variable 1, whose value is
    1.5, at [s = 1]. *)
Lemma node_splits_first_fractional_at_floor_witness :
  exists node,
    Node.new 5 Examples.branch_obj Examples.branch_con Examples.nonneg2 = Some node
    /\ Node.varRangeLeft node = [(0%float, infinity); (0%float, 1%float)]
    /\ Node.varRangeRight node = [(0%float, infinity); (2%float, infinity)]
    /\ exists v, 0 <= v < 2
                 /\ FOP.isInt (vget 0%float (Node.solution node) v) = false.
Proof.
  destruct (Node.new 5 Examples.branch_obj Examples.branch_con Examples.nonneg2)
    as [node |] eqn:E; [| vm_compute in E; discriminate E].
  exists node. split; [reflexivity |].
  destruct (node_splits_first_fractional_at_floor 5 Examples.branch_obj
              Examples.branch_con Examples.nonneg2 node) as (v & Hv & Hi & _).
  - change (2 < 2 ^ 31). lia.
  - exact E.
  - vm_compute in E. injection E as <-. reflexivity.
  - split; [vm_compute in E; injection E as <-; reflexivity |].
    split; [vm_compute in E; injection E as <-; reflexivity |].
    exists v. split; [exact Hv | exact Hi].
Defined.

(** * The bounded scenario (C8) *)

(** C8 (as amended).  On test 0 of [Tester::lpTests], "max x + y under
    4x + 3y <= 17, 2x - 5y >= -9, x + 10y >= 25, x, y >= 0", the solve
    returns, for any fuel of at least 3, status [BOUNDED] with extremum
    4.923..., the double nearest to 64/13, at x = 2.2307..., y = 2.6923...,
    both strictly positive.  The same holds, up to the last digits, when the
    constraints are first normalized as [IP::addConstraint] does. *)
Theorem test0_is_bounded_with_extremum_64_13 :
  exists lp,
    (forall fuel, (3 <= fuel)%nat ->
       LP.new fuel false Examples.test0_obj Examples.test0_con Examples.nonneg2
       = Some lp)
    /\ LP.solutionType lp = Some LP.BOUNDED
    /\ LP.extremum lp = Some (64 / 13)%float
    /\ LP.solution lp = [2.2307692307692313%float; 2.6923076923076921%float]
    /\ (0 <? vget 0%float (LP.solution lp) 0)%float = true
    /\ (0 <? vget 0%float (LP.solution lp) 1)%float = true
    /\ (LP.solutionType
          <$> LP.new 3 false Examples.test0_obj
                     (Constraint.stdOfNegativeRightConst <$> Examples.test0_con)
                     Examples.nonneg2) = Some (Some LP.BOUNDED)
    /\ (LP.extremum
          <$> LP.new 3 false Examples.test0_obj
                     (Constraint.stdOfNegativeRightConst <$> Examples.test0_con)
                     Examples.nonneg2) = Some (Some 4.9230769230769225%float).
Proof.
  destruct (LP.new 3 false Examples.test0_obj Examples.test0_con Examples.nonneg2)
    as [lp |] eqn:E; [| vm_compute in E; discriminate E].
  exists lp. split.
  - intros fuel Hf. apply (new_fuel_mono 3 fuel); [exact Hf | exact E].
  - vm_compute in E. injection E as <-. vm_compute. repeat split; reflexivity.
Qed.

(** C8 as stated fails: the extremum the solve returns on test 0 is
    4.9230769230769234, at distance more than 0.73 from 5.6538. *)
Lemma test0_extremum_counterexample :
  (LP.extremum <$> LP.new 3 false Examples.test0_obj Examples.test0_con
                          Examples.nonneg2) = Some (Some 4.9230769230769234%float)
  /\ (0.73 <? abs (4.9230769230769234 - 5.6538))%float = true.
Proof. vm_compute. split; reflexivity. Qed.

(** * Facts about doubles

    The program's arithmetic is the IEEE-754 one; the facts below follow from
    the specification of the primitive operations of binary64. *)

Lemma digits2_iter (n : nat) (m : positive) :
  Z.pos (digits2_pos (Nat.iter n xO m)) = Z.pos (digits2_pos m) + Z.of_nat n.
Proof.
  induction n as [|n IH]; [change (Nat.iter 0 xO m) with m; lia |].
  change (Nat.iter (S n) xO m) with (xO (Nat.iter n xO m)).
  change (digits2_pos (xO (Nat.iter n xO m)))
    with (Pos.succ (digits2_pos (Nat.iter n xO m))).
  rewrite Pos2Z.inj_succ, IH. lia.
Qed.

Lemma digits2_shift52 (m : positive) :
  Z.pos (digits2_pos (4503599627370496 * m)) = Z.pos (digits2_pos m) + 52.
Proof.
  change (4503599627370496 * m)%positive with (Nat.iter 52 xO m).
  rewrite digits2_iter. reflexivity.
Qed.

Lemma shr_shift52 (m : positive) :
  SpecFloat.iter_pos shr_1 52 {| shr_m := Z.pos (4503599627370496 * m); shr_r := false; shr_s := false |}
  = {| shr_m := Z.pos m; shr_r := false; shr_s := false |}.
Proof. reflexivity. Qed.

Lemma SFmul_one_finite (s s' : bool) (m : positive) (e : Z) :
  valid_binary (S754_finite s m e) = true ->
  SFmul prec emax (S754_finite s m e) (S754_finite s' 4503599627370496 (-52))
  = S754_finite (xorb s s') m e.
Proof.
  intros Hv. cbn [valid_binary] in Hv. unfold bounded, canonical_mantissa in Hv.
  apply andb_prop in Hv. destruct Hv as [Hc Hb].
  apply Z.eqb_eq in Hc. apply Z.leb_le in Hb.
  cbn [SFmul]. rewrite Pos.mul_comm.
  unfold binary_round_aux, shr_fexp.
  cbn [Zdigits2]. rewrite digits2_shift52.
  replace (Z.pos (digits2_pos m) + 52 + (e + -52)) with (Z.pos (digits2_pos m) + e) by lia.
  rewrite Hc.
  replace (e - (e + -52)) with 52 by lia.
  cbn [shr shr_record_of_loc]. rewrite shr_shift52.
  cbn [shr_m loc_of_shr_record round_nearest_even Zdigits2].
  replace (e + -52 + 52) with e by lia.
  rewrite Hc. rewrite Z.sub_diag. cbn [shr shr_m shr_record_of_loc].
  destruct (Z.leb_spec e (emax - prec)); [reflexivity | lia].
Qed.

Lemma mul_1_r (x : float) : (x * 1)%float = x.
Proof.
  apply Prim2SF_inj. rewrite mul_spec.
  pose proof (Prim2SF_valid x) as Hv.
  change (Prim2SF 1) with (S754_finite false 4503599627370496 (-52)).
  destruct (Prim2SF x) as [s | s | | s m e].
  - destruct s; reflexivity.
  - destruct s; reflexivity.
  - reflexivity.
  - unfold SF64mul. rewrite SFmul_one_finite by exact Hv. destruct s; reflexivity.
Qed.

Lemma mul_m1_r (x : float) : (x * (-1))%float = (- x)%float.
Proof.
  apply Prim2SF_inj. rewrite mul_spec, opp_spec.
  pose proof (Prim2SF_valid x) as Hv.
  change (Prim2SF (-1)) with (S754_finite true 4503599627370496 (-52)).
  destruct (Prim2SF x) as [s | s | | s m e].
  - destruct s; reflexivity.
  - destruct s; reflexivity.
  - reflexivity.
  - unfold SF64mul. rewrite SFmul_one_finite by exact Hv. destruct s; reflexivity.
Qed.

Lemma opp_involutive (x : float) : (- - x)%float = x.
Proof.
  apply Prim2SF_inj. rewrite !opp_spec.
  destruct (Prim2SF x) as [s | s | | s m e]; cbn; try rewrite negb_involutive; reflexivity.
Qed.

Ltac sf_cases :=
  repeat match goal with
         | s : bool |- _ => destruct s
         end;
  cbn in *; try congruence; try reflexivity.

Ltac cmp_cases :=
  repeat match goal with
         | |- context [Z.compare ?a ?b] => destruct (Z.compare_spec a b)
         | H : context [Z.compare ?a ?b] |- _ => destruct (Z.compare_spec a b)
         | |- context [Pos.compare_cont Eq ?a ?b] =>
             change (Pos.compare_cont Eq a b) with (Pos.compare a b);
             destruct (Pos.compare_spec a b)
         | H : context [Pos.compare_cont Eq ?a ?b] |- _ =>
             change (Pos.compare_cont Eq a b) with (Pos.compare a b) in H;
             destruct (Pos.compare_spec a b)
         end;
  cbn in *; try congruence; try reflexivity; try lia.

Lemma SFltb_trans (a b c : spec_float) :
  SFltb a b = true -> SFltb b c = true -> SFltb a c = true.
Proof.
  unfold SFltb.
  destruct a as [sa | sa | | sa ma ea], b as [sb | sb | | sb mb eb],
           c as [sc | sc | | sc mc ec]; cbn; try congruence; sf_cases; cmp_cases.
Qed.

Lemma SFltb_neg_trans (a b c : spec_float) :
  b <> S754_nan ->
  SFltb b a = false -> SFltb c b = false -> SFltb c a = false.
Proof.
  unfold SFltb. intros Hb.
  destruct a as [sa | sa | | sa ma ea], b as [sb | sb | | sb mb eb],
           c as [sc | sc | | sc mc ec]; cbn; try congruence; sf_cases; cmp_cases.
Qed.

Lemma SFltb_asym (a b : spec_float) : SFltb a b = true -> SFltb b a = false.
Proof.
  unfold SFltb.
  destruct a as [sa | sa | | sa ma ea], b as [sb | sb | | sb mb eb];
    cbn; try congruence; sf_cases; cmp_cases.
Qed.

Lemma ltb_trans (a b c : float) :
  (a <? b)%float = true -> (b <? c)%float = true -> (a <? c)%float = true.
Proof. rewrite !ltb_spec. apply SFltb_trans. Qed.

Lemma ltb_asym (a b : float) : (a <? b)%float = true -> (b <? a)%float = false.
Proof. rewrite !ltb_spec. apply SFltb_asym. Qed.

Lemma is_nan_Prim2SF (x : float) : is_nan x = false -> Prim2SF x <> S754_nan.
Proof.
  unfold is_nan. rewrite FloatAxioms.eqb_spec. intros H E. rewrite E in H. discriminate.
Qed.

Lemma ltb_neg_trans (a b c : float) :
  is_nan b = false ->
  (b <? a)%float = false -> (c <? b)%float = false -> (c <? a)%float = false.
Proof.
  intros Hb. rewrite !ltb_spec. apply SFltb_neg_trans. apply is_nan_Prim2SF. exact Hb.
Qed.

Lemma ltb_not_nan_l (a b : float) : (a <? b)%float = true -> is_nan a = false.
Proof.
  rewrite ltb_spec. unfold is_nan. rewrite FloatAxioms.eqb_spec. unfold SFltb, SFeqb.
  destruct (Prim2SF a) as [sa | sa | | sa ma ea], (Prim2SF b) as [sb | sb | | sb mb eb];
    cbn; try congruence; sf_cases.
  all: rewrite Z.compare_refl; change (Pos.compare_cont Eq ma ma) with (Pos.compare ma ma); rewrite Pos.compare_refl; reflexivity.
Qed.

(** * The incumbent upper bound (C5) *)

Lemma nonIncreasing_refl (a : float) : nonIncreasing a a.
Proof. left. reflexivity. Qed.

Lemma nonIncreasing_trans (a b c : float) :
  nonIncreasing a b -> nonIncreasing b c -> nonIncreasing a c.
Proof.
  intros [-> | Hab] [-> | Hbc].
  - left. reflexivity.
  - right. exact Hbc.
  - right. exact Hab.
  - right. exact (ltb_trans c b a Hbc Hab).
Qed.

(** What [checkNode] does to the incumbent. *)
Lemma checkNode_incumbent (node : Node.t) (ip : IP.t) :
  let ip' := IP.checkNode node ip in
  if bool_decide (Node.type node = Node.IP_FEASIBLE)
     && (Node.lowerBound node <? IP.objValueUpperBound ip)%float
  then IP.objValueUpperBound ip' = Node.lowerBound node
       /\ IP.solution ip' = Node.solution node
       /\ IP.solutionType ip' = IP.BOUNDED
  else IP.objValueUpperBound ip' = IP.objValueUpperBound ip
       /\ IP.solution ip' = IP.solution ip.
Proof.
  intros ip'. subst ip'. unfold IP.checkNode.
  destruct (bool_decide (Node.type node = Node.IP_FEASIBLE)
            && (Node.lowerBound node <? IP.objValueUpperBound ip)%float);
    [cbn; auto |].
  destruct (bool_decide (Node.type node = Node.LP_FEASIBLE)
            && (Node.lowerBound node <? IP.objValueUpperBound ip)%float);
    [cbn; auto |].
  destruct (bool_decide (Node.type node = Node.UNBOUNDED)); cbn; auto.
Qed.

Lemma checkNode_nonIncreasing (node : Node.t) (ip : IP.t) :
  nonIncreasing (IP.objValueUpperBound ip)
                (IP.objValueUpperBound (IP.checkNode node ip)).
Proof.
  pose proof (checkNode_incumbent node ip) as H. cbv zeta in H.
  destruct (bool_decide (Node.type node = Node.IP_FEASIBLE)); cbn [andb] in H.
  - destruct (Node.lowerBound node <? IP.objValueUpperBound ip)%float eqn:Hlt.
    + destruct H as (-> & _). right. exact Hlt.
    + destruct H as (-> & _). left. reflexivity.
  - destruct H as (-> & _). left. reflexivity.
Qed.

Lemma solveSteps_nonIncreasing (ip ip' : IP.t) :
  solveSteps ip ip' ->
  nonIncreasing (IP.objValueUpperBound ip) (IP.objValueUpperBound ip').
Proof.
  induction 1 as [ip | node ip ip' _ IH | ip ip' _ IH].
  - apply nonIncreasing_refl.
  - exact (nonIncreasing_trans _ _ _ (checkNode_nonIncreasing node ip) IH).
  - exact IH.
Qed.

Lemma solveSteps_trans (a b c : IP.t) :
  solveSteps a b -> solveSteps b c -> solveSteps a c.
Proof.
  induction 1 as [ip | node ip ip' _ IH | ip ip' _ IH]; intros Hc.
  - exact Hc.
  - apply (steps_check node). auto.
  - apply steps_pop. auto.
Qed.

Lemma expand_steps (fuel : nat) (ip ip' : IP.t) :
  IP.expand fuel ip = Some ip' -> solveSteps ip ip'.
Proof.
  unfold IP.expand. intros H.
  destruct (PriorityQueue.top (IP.nodeQueue ip)) as [node |]; [| discriminate].
  cbn [mbind option_bind] in H.
  destruct (Node.new fuel _ _ (Node.varRangeLeft node)) as [l |]; [| discriminate].
  cbn [mbind option_bind] in H.
  destruct (Node.new fuel _ _ (Node.varRangeRight node)) as [r |]; [| discriminate].
  cbn [mbind option_bind] in H. injection H as <-.
  apply steps_pop. apply (steps_check l). apply (steps_check r). apply steps_done.
Qed.

Lemma loop_steps (fuel n : nat) (ip ip' : IP.t) :
  IP.loop fuel n ip = Some ip' -> solveSteps ip ip'.
Proof.
  revert ip. induction n as [|n IH]; intros ip H; cbn [IP.loop] in H.
  - destruct (IP.continue ip); [discriminate |].
    injection H as <-. apply steps_done.
  - destruct (IP.continue ip).
    + destruct (IP.expand fuel ip) as [ip1 |] eqn:He; [| discriminate].
      cbn [mbind option_bind] in H.
      exact (solveSteps_trans _ _ _ (expand_steps _ _ _ He) (IH _ H)).
    + injection H as <-. apply steps_done.
Qed.

(** C5.  [checkNode] changes the incumbent upper bound only when it is given
    an [IP_FEASIBLE] node whose lower bound is strictly less than the
    incumbent upper bound; it then sets the bound to that lower bound and
    records the node's solution.  Hence along the statements a sequential
    solve executes the incumbent upper bound never increases: between any
    two states of the search, and between the state [solve] starts on and
    the one it returns. *)
Theorem incumbent_upper_bound_non_increasing :
  (forall (node : Node.t) (ip : IP.t),
      let ip' := IP.checkNode node ip in
      if bool_decide (Node.type node = Node.IP_FEASIBLE)
         && (Node.lowerBound node <? IP.objValueUpperBound ip)%float
      then IP.objValueUpperBound ip' = Node.lowerBound node
           /\ IP.solution ip' = Node.solution node
           /\ IP.solutionType ip' = IP.BOUNDED
      else IP.objValueUpperBound ip' = IP.objValueUpperBound ip
           /\ IP.solution ip' = IP.solution ip)
  /\ (forall ip ip' : IP.t,
        solveSteps ip ip' ->
        nonIncreasing (IP.objValueUpperBound ip) (IP.objValueUpperBound ip'))
  /\ (forall (fuel n : nat) (ip ip' : IP.t),
        IP.loop fuel n ip = Some ip' -> solveSteps ip ip')
  /\ (forall (fuel : nat) (ip r : IP.t),
        IP.solve fuel ip = Some r ->
        nonIncreasing (IP.objValueUpperBound ip) (IP.objValueUpperBound r)).
Proof.
  split; [exact checkNode_incumbent |].
  split; [exact solveSteps_nonIncreasing |].
  split; [exact loop_steps |].
  intros fuel ip r H. unfold IP.solve in H.
  destruct (IP.init fuel ip) as [ip1 |] eqn:Hi; [| discriminate].
  cbn [mbind option_bind] in H.
  destruct (IP.loop fuel fuel ip1) as [ip2 |] eqn:Hl; [| discriminate].
  cbn [mbind option_bind] in H. injection H as <-.
  unfold IP.init in Hi.
  destruct (Node.new fuel _ _ _) as [root |]; [| discriminate].
  cbn [mbind option_bind] in Hi. injection Hi as <-.
  change (IP.objValueUpperBound (IP.finish ip2)) with (IP.objValueUpperBound ip2).
  match type of Hl with
  | IP.loop _ _ (IP.checkNode root ?ip0) = _ =>
      change (IP.objValueUpperBound ip) with (IP.objValueUpperBound ip0);
      exact (nonIncreasing_trans _ _ _ (checkNode_nonIncreasing root ip0)
               (solveSteps_nonIncreasing _ _ (loop_steps _ _ _ _ Hl)))
  end.
Qed.

(** * Negated objective, switched sense (C6) *)

Lemma negate_involutive (lf : Linearform.t) :
  Linearform.negate (Linearform.negate lf) = lf.
Proof.
  destruct lf as [m]. unfold Linearform.negate. cbn [Linearform.terms]. f_equal.
  apply map_eq. intros k. rewrite !lookup_fmap.
  destruct (m !! k) as [c |]; [| reflexivity].
  cbn. rewrite opp_involutive. reflexivity.
Qed.





Lemma checkNode_isMin (node : Node.t) (ip : IP.t) :
  IP.isMin (IP.checkNode node ip) = IP.isMin ip.
Proof.
  unfold IP.checkNode.
  destruct (_ && _); [reflexivity |].
  destruct (_ && _); [reflexivity |].
  destruct (bool_decide _); reflexivity.
Qed.



(** "max 3 x + y" and "min -3 x - y" under 4 x + 2 y <= 11, 1 <= x <= 2:
    the first solve returns 7, the second -7, both at (2, 1). *)
Lemma negated_objective_switched_sense_example :
  let ip :=
    IP.addConstraint [(1%float, "x")] "<=" 2
      (IP.addConstraint [(1%float, "x")] ">=" 1
         (IP.addConstraint [(4%float, "x"); (2%float, "y")] "<=" 11
            (IP.new "max" [(3%float, "x"); (1%float, "y")])))%string in
  (IP.extremum <$> IP.solve 5 ip) = Some (Some 7%float)
  /\ (IP.extremum <$> IP.solve 5 (flipSense ip)) = Some (Some (-7)%float)
  /\ (IP.solution <$> IP.solve 5 ip) = Some [2%float; 1%float]
  /\ (IP.solution <$> IP.solve 5 (flipSense ip)) = Some [2%float; 1%float].
Proof. vm_compute. repeat split; reflexivity. Qed.

(** * The node queue *)

Lemma parent_div (i : Z) : 1 <= i -> parent i = (i - 1) / 2.
Proof. intros H. unfold parent. apply Z.quot_div_nonneg; lia. Qed.

Lemma parent_bounds (i : Z) : 1 <= i -> 0 <= parent i < i.
Proof.
  intros H. rewrite parent_div by exact H.
  pose proof (Z.div_mod (i - 1) 2 ltac:(lia)).
  pose proof (Z.mod_pos_bound (i - 1) 2 ltac:(lia)). lia.
Qed.

Lemma parent_children (c h : Z) :
  1 <= c -> (parent c = h <-> c = 2 * h + 1 \/ c = 2 * h + 2).
Proof.
  intros H. rewrite parent_div by exact H.
  pose proof (Z.div_mod (c - 1) 2 ltac:(lia)).
  pose proof (Z.mod_pos_bound (c - 1) 2 ltac:(lia)). lia.
Qed.

Lemma vget_vset (A : Type) (d : A) (v : list A) (k k' : Z) (x : A) :
  0 <= k < Z.of_nat (length v) -> 0 <= k' ->
  vget d (vset v k x) k' = if decide (k' = k) then x else vget d v k'.
Proof.
  intros Hk Hk'. destruct (decide (k' = k)) as [-> | Hne].
  - apply vget_vset_eq. exact Hk.
  - apply vget_vset_ne; lia.
Qed.

Lemma vget_any (A : Type) (d1 d2 : A) (v : list A) (k : Z) :
  0 <= k < Z.of_nat (length v) -> vget d1 v k = vget d2 v k.
Proof.
  intros H. unfold vget.
  destruct (v !! Z.to_nat k) as [x |] eqn:E; [reflexivity |].
  apply lookup_ge_None in E. lia.
Qed.

Section HeapFacts.
Context {A : Type} (comp : A -> A -> bool) (ok : A -> Prop) (d : A).
Hypothesis comp_asym : forall a b, comp a b = true -> comp b a = false.
Hypothesis comp_ntrans :
  forall a b c, ok b -> comp a b = false -> comp b c = false -> comp a c = false.

(** [__push_heap] fills the hole: the result is a heap. *)
Lemma push_heap_loop_heap (len : Z) (value : A) (n : nat) (first : list A) (h : Z) :
  holeUp comp ok d first len h value ->
  h < Z.of_nat n ->
  let r := PriorityQueue.push_heap_loop comp n first h 0 value in
  heapUpto comp d len r
  /\ length r = length first
  /\ (forall i, 0 <= i < len -> ok (vget d r i))
  /\ (forall i, len <= i -> vget d r i = vget d first i).
Proof.
  revert first h. induction n as [|n IH]; intros first h Hup Hn; [destruct Hup; lia |].
  destruct Hup as (Hh & Hlen & Hv & Hok & Ha & Hb & Hc).
  cbn [PriorityQueue.push_heap_loop]. fold (parent h).
  destruct ((0 <? h) && comp (vget value first (parent h)) value) eqn:Hcond.
  - apply andb_prop in Hcond. destruct Hcond as [Hpos Hcmp].
    apply Z.ltb_lt in Hpos.
    pose proof (parent_bounds h ltac:(lia)) as Hp.
    rewrite (vget_any _ value d) by lia.
    rewrite (vget_any _ value d) in Hcmp by lia.
    set (p := parent h) in *.
    assert (Hvp : comp value (vget d first p) = false) by (apply comp_asym; exact Hcmp).
    assert (Hokp : ok (vget d first p)) by (apply Hok; lia).
    destruct (IH (vset first h (vget d first p)) p) as (R1 & R2 & R3 & R4).
    + unfold holeUp. rewrite vset_length.
      split; [lia | split; [lia | split; [exact Hv |]]].
      split; [| split; [| split]].
      * intros i Hi Hne. rewrite vget_vset by lia.
        destruct (decide (i = h)); [exact Hokp | apply Hok; lia].
      * intros i Hi Hne Hpne.
        pose proof (parent_bounds i ltac:(lia)) as Hpi.
        rewrite !vget_vset by lia.
        destruct (decide (parent i = h)) as [E1 | E1], (decide (i = h)) as [E2 | E2].
        -- subst i. lia.
        -- apply Hc; [lia | lia | exact E1].
        -- subst i. contradiction.
        -- apply Ha; lia.
      * intros c Hc1 Hc2. rewrite vget_vset by lia.
        destruct (decide (c = h)) as [-> | E]; [exact Hvp |].
        apply (comp_ntrans _ (vget d first p)); [exact Hokp | exact Hvp |].
        rewrite <- Hc2. apply Ha; [lia | exact E | rewrite Hc2; lia].
      * intros Hp1 c Hc1 Hc2.
        pose proof (parent_bounds p ltac:(lia)) as Hpp.
        rewrite !vget_vset by lia.
        destruct (decide (parent p = h)); [lia |].
        destruct (decide (c = h)) as [-> | E].
        -- apply Ha; lia.
        -- apply (comp_ntrans _ (vget d first p)); [exact Hokp | apply Ha; lia |].
           rewrite <- Hc2. apply Ha; [lia | exact E | rewrite Hc2; lia].
    + lia.
    + rewrite vset_length in R2.
      split; [exact R1 | split; [exact R2 | split; [exact R3 |]]].
      intros i Hi. rewrite R4 by exact Hi. rewrite vget_vset by lia.
      destruct (decide (i = h)); [lia | reflexivity].
  - split; [| split; [apply vset_length | split]].
    + intros i Hi.
      pose proof (parent_bounds i ltac:(lia)) as Hpi.
      rewrite !vget_vset by lia.
      destruct (decide (parent i = h)) as [E1 | E1], (decide (i = h)) as [E2 | E2].
      * subst i. lia.
      * apply Hb; [lia | exact E1].
      * subst i.
        destruct (Z.ltb_spec 0 h) as [Hpos | Hpos]; [| lia].
        cbn [andb] in Hcond.
        rewrite (vget_any _ value d) in Hcond by lia. exact Hcond.
      * apply Ha; lia.
    + intros i Hi. rewrite vget_vset by lia.
      destruct (decide (i = h)); [exact Hv | apply Hok; lia].
    + intros i Hi. rewrite vget_vset by lia.
      destruct (decide (i = h)); [lia | reflexivity].
Qed.


(** The descent of [__adjust_heap] keeps the hole invariant and stops at a
    hole without a right child. *)
Lemma adjust_heap_loop_down (len : Z) (value : A) (n : nat) (first : list A) (h : Z) :
  holeDown comp ok d first len h ->
  len - h <= Z.of_nat n ->
  exists r h',
    PriorityQueue.adjust_heap_loop comp n first len value h h = (r, h', h')
    /\ holeDown comp ok d r len h'
    /\ ~ h' < Z.quot (len - 1) 2
    /\ length r = length first
    /\ (forall i, len <= i -> vget d r i = vget d first i).
Proof.
  revert first h. induction n as [|n IH]; intros first h Hd Hn; [destruct Hd; lia |].
  pose proof Hd as (Hh & Hlen & Hok & Ha & Hc).
  cbn [PriorityQueue.adjust_heap_loop].
  destruct (Z.ltb_spec h (Z.quot (len - 1) 2)) as [Hlt | Hge].
  - rewrite Z.quot_div_nonneg in Hlt by lia.
    pose proof (Z.div_mod (len - 1) 2 ltac:(lia)) as Hdm.
    pose proof (Z.mod_pos_bound (len - 1) 2 ltac:(lia)) as Hmb.
    set (cr := 2 * (h + 1)) in *.
    assert (Hcr : cr = 2 * h + 2) by (subst cr; lia).
    rewrite (vget_any _ value d first cr), (vget_any _ value d first (cr - 1)) by lia.
    set (c' := if comp (vget d first cr) (vget d first (cr - 1)) then cr - 1 else cr).
    assert (Hc' : (c' = 2 * h + 1 \/ c' = 2 * h + 2))
      by (subst c'; destruct (comp _ _); lia).
    rewrite (vget_any _ value d first c') by lia.
    assert (Hpc' : parent c' = h) by (apply parent_children; lia).
    (* the chosen child is not below its sibling *)
    assert (Hsib : forall c, 1 <= c < len -> parent c = h -> c <> c' ->
                   comp (vget d first c') (vget d first c) = false).
    { intros c Hc1 Hc2 Hne. apply parent_children in Hc2; [| lia].
      subst c'. destruct (comp (vget d first cr) (vget d first (cr - 1))) eqn:E.
      - replace c with cr by lia. apply comp_asym. exact E.
      - replace c with (cr - 1) by lia. exact E. }
    destruct (IH (vset first h (vget d first c')) c') as (r & h' & E & R1 & R2 & R3 & R4).
    + unfold holeDown. rewrite vset_length.
      split; [lia | split; [lia | split; [| split]]].
      * intros i Hi Hne. rewrite vget_vset by lia.
        destruct (decide (i = h)); [apply Hok; lia | apply Hok; lia].
      * intros i Hi Hne Hpne.
        pose proof (parent_bounds i ltac:(lia)) as Hpi.
        rewrite !vget_vset by lia.
        destruct (decide (parent i = h)) as [E1 | E1], (decide (i = h)) as [E2 | E2].
        -- subst i. lia.
        -- apply Hsib; [lia | exact E1 | exact Hne].
        -- subst i. apply Hc; [lia | lia | exact Hpc'].
        -- apply Ha; lia.
      * intros _ c Hc1 Hc2. rewrite Hpc'.
        rewrite !vget_vset by lia.
        destruct (decide (h = h)); [| contradiction].
        apply parent_children in Hc2; [| lia].
        destruct (decide (c = h)); [lia |].
        rewrite <- (proj2 (parent_children c c' ltac:(lia)) Hc2).
        apply Ha; [lia | lia |].
        rewrite (proj2 (parent_children c c' ltac:(lia)) Hc2). lia.
    + lia.
    + exists r, h'. rewrite vset_length in R3.
      split; [exact E | split; [exact R1 | split; [exact R2 | split; [exact R3 |]]]].
      intros i Hi. rewrite R4 by exact Hi. rewrite vget_vset by lia.
      destruct (decide (i = h)); [lia | reflexivity].
  - exists first, h.
    split; [reflexivity | split; [exact Hd | split; [lia | split; [reflexivity |]]]].
    intros; reflexivity.
Qed.


Lemma land_one_even (len : Z) : 0 <= len -> (Z.land len 1 =? 0) = true -> len mod 2 = 0.
Proof.
  intros Hlen H. apply Z.eqb_eq in H.
  change 1 with (Z.ones 1) in H. rewrite Z.land_ones in H by lia. exact H.
Qed.

Lemma land_one_odd (len : Z) : 0 <= len -> (Z.land len 1 =? 0) = false -> len mod 2 = 1.
Proof.
  intros Hlen H. apply Z.eqb_neq in H.
  change 1 with (Z.ones 1) in H. rewrite Z.land_ones in H by lia.
  change (2 ^ 1) with 2 in H.
  pose proof (Z.mod_pos_bound len 2 ltac:(lia)). lia.
Qed.

(** [__adjust_heap] from the root: the result is a heap. *)
Lemma adjust_heap_heap (len : Z) (value : A) (first : list A) :
  holeDown comp ok d first len 0 -> ok value ->
  let r := PriorityQueue.adjust_heap comp first 0 len value in
  heapUpto comp d len r
  /\ length r = length first
  /\ (forall i, 0 <= i < len -> ok (vget d r i)).
Proof.
  intros Hd Hv.
  pose proof Hd as (Hh0 & Hlen0 & _).
  destruct (adjust_heap_loop_down len value (length first) first 0 Hd ltac:(lia))
    as (r1 & h & E & (Hh & Hlen & Hok & Ha & Hc) & Hstop & Hl1 & _).
  unfold PriorityQueue.adjust_heap. rewrite E.
  rewrite Z.quot_div_nonneg in Hstop by lia.
  pose proof (Z.div_mod (len - 1) 2 ltac:(lia)) as Hdm.
  pose proof (Z.mod_pos_bound (len - 1) 2 ltac:(lia)) as Hmb.
  pose proof (Z.div_mod len 2 ltac:(lia)) as Hdl.
  destruct ((Z.land len 1 =? 0) && (h =? Z.quot (len - 2) 2)) eqn:Hcond.
  - apply andb_prop in Hcond. destruct Hcond as [Hev Hq].
    apply land_one_even in Hev; [| lia]. apply Z.eqb_eq in Hq.
    assert (Hl2 : 2 <= len) by lia.
    rewrite Z.quot_div_nonneg in Hq by lia.
    pose proof (Z.div_mod (len - 2) 2 ltac:(lia)) as Hd2.
    pose proof (Z.mod_pos_bound (len - 2) 2 ltac:(lia)) as Hm2.
    assert (Hlast : 2 * (h + 1) - 1 = len - 1).
    { assert ((len - 2) mod 2 = 0).
      { replace (len - 2) with (len + (-1) * 2) by lia. rewrite Z.mod_add by lia. exact Hev. }
      lia. }
    rewrite Hlast.
    rewrite (vget_any _ value d) by lia.
    assert (Hpl : parent (len - 1) = h) by (apply parent_children; lia).
    destruct (push_heap_loop_heap len value
                (length (vset r1 h (vget d r1 (len - 1))))
                (vset r1 h (vget d r1 (len - 1))) (len - 1))
      as (R1 & R2 & R3 & _).
    + unfold holeUp. rewrite vset_length.
      split; [lia | split; [lia | split; [exact Hv |]]].
      split; [| split; [| split]].
      * intros i Hi Hne. rewrite vget_vset by lia.
        destruct (decide (i = h)); apply Hok; lia.
      * intros i Hi Hne Hpne.
        pose proof (parent_bounds i ltac:(lia)) as Hpi.
        rewrite !vget_vset by lia.
        destruct (decide (parent i = h)) as [E1 | E1], (decide (i = h)) as [E2 | E2].
        -- subst i. lia.
        -- apply parent_children in E1; lia.
        -- subst i. apply Hc; [lia | lia | exact Hpl].
        -- apply Ha; lia.
      * intros c Hc1 Hc2. apply parent_children in Hc2; lia.
      * intros _ c Hc1 Hc2. apply parent_children in Hc2; lia.
    + rewrite vset_length. lia.
    + split; [exact R1 | split; [| exact R3]].
      exact (eq_trans R2 (eq_trans (vset_length _ _ _) Hl1)).
  - destruct (push_heap_loop_heap len value
                (length r1) r1 h) as (R1 & R2 & R3 & _).
    + unfold holeUp.
      split; [lia | split; [lia | split; [exact Hv |]]].
      split; [exact Hok | split; [exact Ha | split; [| exact Hc]]].
      intros c Hc1 Hc2. exfalso.
      apply parent_children in Hc2; [| lia].
      destruct (Z.eqb_spec (Z.land len 1) 0) as [Hev | Hod].
      * assert (Hev' : len mod 2 = 0)
          by (apply land_one_even; [lia | apply Z.eqb_eq; exact Hev]).
        cbn [andb] in Hcond. apply Z.eqb_neq in Hcond.
        assert (Hl2 : 2 <= len) by lia.
        rewrite Z.quot_div_nonneg in Hcond by lia.
        pose proof (Z.div_mod (len - 2) 2 ltac:(lia)) as Hd2.
        pose proof (Z.mod_pos_bound (len - 2) 2 ltac:(lia)) as Hm2.
        assert ((len - 2) mod 2 = 0).
        { replace (len - 2) with (len + (-1) * 2) by lia. rewrite Z.mod_add by lia.
          exact Hev'. }
        assert ((len - 1) mod 2 = 1).
        { replace (len - 1) with (1 + (len - 2)) by lia.
          rewrite Z.add_mod by lia. rewrite H. reflexivity. }
        lia.
      * assert (Hod' : len mod 2 = 1)
          by (apply land_one_odd; [lia | apply Z.eqb_neq; exact Hod]).
        assert ((len - 1) mod 2 = 0).
        { replace (len - 1) with (len + (-1)) by lia.
          rewrite Z.add_mod by lia. rewrite Hod'. reflexivity. }
        lia.
    + lia.
    + split; [exact R1 | split; [exact (eq_trans R2 Hl1) | exact R3]].
Qed.


Lemma Forall_vget (P : A -> Prop) (v : list A) (i : Z) :
  Forall P v -> 0 <= i < Z.of_nat (length v) -> P (vget d v i).
Proof.
  intros HF Hi. unfold vget.
  destruct (v !! Z.to_nat i) as [x |] eqn:E.
  - exact (Forall_lookup_1 _ _ _ _ HF E).
  - apply lookup_ge_None in E. lia.
Qed.

Lemma vget_Forall (P : A -> Prop) (v : list A) :
  (forall i, 0 <= i < Z.of_nat (length v) -> P (vget d v i)) -> Forall P v.
Proof.
  intros H. apply Forall_lookup_2. intros i x E.
  pose proof (lookup_lt_Some _ _ _ E) as Hlt.
  specialize (H (Z.of_nat i) ltac:(lia)).
  unfold vget in H. rewrite Nat2Z.id, E in H. exact H.
Qed.

Lemma vget_app_l (v w : list A) (i : Z) :
  0 <= i < Z.of_nat (length v) -> vget d (v ++ w) i = vget d v i.
Proof. intros H. unfold vget. rewrite lookup_app_l by lia. reflexivity. Qed.

Lemma vget_removelast (v : list A) (i : Z) :
  0 <= i < Z.of_nat (length v) - 1 -> vget d (removelast v) i = vget d v i.
Proof.
  intros H. unfold vget. rewrite removelast_firstn_len.
  change (firstn (Nat.pred (length v)) v) with (take (Nat.pred (length v)) v).
  rewrite lookup_take_lt by lia. reflexivity.
Qed.

Lemma length_removelast (v : list A) : length (removelast v) = Nat.pred (length v).
Proof.
  rewrite removelast_firstn_len.
  change (firstn (Nat.pred (length v)) v) with (take (Nat.pred (length v)) v).
  rewrite length_take. lia.
Qed.

(** [push] keeps the heap. *)
Lemma push_queue (q : list A) (x : A) :
  heapUpto comp d (Z.of_nat (length q)) q -> Forall ok q -> ok x ->
  let r := PriorityQueue.push comp x q in
  heapUpto comp d (Z.of_nat (length r)) r /\ Forall ok r /\ length r = S (length q).
Proof.
  intros Hq Hok Hx. unfold PriorityQueue.push, PriorityQueue.push_heap_aux.
  rewrite length_app. cbn [length].
  destruct (push_heap_loop_heap (Z.of_nat (length q) + 1) x
              (length q + 1) (q ++ [x]) (Z.of_nat (length q))) as (R1 & R2 & R3 & _).
  - unfold holeUp. rewrite length_app. cbn [length].
    split; [lia | split; [lia | split; [exact Hx |]]].
    split; [| split; [| split]].
    + intros i Hi Hne. rewrite vget_app_l by lia. apply Forall_vget; [exact Hok | lia].
    + intros i Hi Hne Hpne.
      pose proof (parent_bounds i ltac:(lia)) as Hpi.
      rewrite !vget_app_l by lia. apply Hq. lia.
    + intros c Hc1 Hc2. apply parent_children in Hc2; lia.
    + intros _ c Hc1 Hc2. apply parent_children in Hc2; lia.
  - lia.
  - replace (Z.of_nat (length q + 1) - 1) with (Z.of_nat (length q)) by lia.
    rewrite length_app in R2. cbn [length] in R2.
    cbv zeta. rewrite R2.
    split; [| split; [| lia]].
    + replace (Z.of_nat (length q + 1)) with (Z.of_nat (length q) + 1) by lia. exact R1.
    + apply vget_Forall. intros i Hi. apply R3. rewrite R2 in Hi. lia.
Qed.

(** [pop] keeps the heap. *)
Lemma pop_queue (q : list A) :
  heapUpto comp d (Z.of_nat (length q)) q -> Forall ok q ->
  let r := PriorityQueue.pop comp q in
  heapUpto comp d (Z.of_nat (length r)) r /\ Forall ok r
  /\ length r = Nat.pred (length q).
Proof.
  intros Hq Hok. unfold PriorityQueue.pop.
  destruct q as [|first0 q'] eqn:Eq; [cbn; auto |].
  rewrite <- Eq in *.
  assert (Hlen : (1 <= length q)%nat) by (rewrite Eq; cbn; lia).
  destruct (last q) as [value |] eqn:El;
    [| rewrite Eq in El; apply last_None in El; discriminate].
  destruct (Z.ltb_spec 1 (Z.of_nat (length q))) as [H2 | H1].
  - assert (Hval : ok value).
    { rewrite last_lookup in El. exact (Forall_lookup_1 _ _ _ _ Hok El). }
    destruct (adjust_heap_heap (Z.of_nat (length q) - 1) value
                (vset q (Z.of_nat (length q) - 1) first0)) as (R1 & R2 & R3).
    + unfold holeDown. rewrite vset_length.
      split; [lia | split; [lia | split; [| split]]].
      * intros i Hi Hne. rewrite vget_vset by lia.
        destruct (decide (i = Z.of_nat (length q) - 1)); [lia |].
        apply Forall_vget; [exact Hok | lia].
      * intros i Hi Hne Hpne.
        pose proof (parent_bounds i ltac:(lia)) as Hpi.
        rewrite !vget_vset by lia.
        destruct (decide (parent i = Z.of_nat (length q) - 1)); [lia |].
        destruct (decide (i = Z.of_nat (length q) - 1)); [lia |].
        apply Hq. lia.
      * intros Hh. lia.
    + exact Hval.
    + rewrite vset_length in R2. cbv zeta.
      rewrite length_removelast, R2.
      split; [| split; [| reflexivity]].
      * intros i Hi.
        pose proof (parent_bounds i ltac:(lia)) as Hpi.
        rewrite !vget_removelast by (rewrite R2; lia).
        apply R1. lia.
      * apply vget_Forall. intros i Hi.
        rewrite length_removelast, R2 in Hi.
        rewrite vget_removelast by (rewrite R2; lia).
        apply R3. lia.
  - assert (Hq1 : q' = []) by (destruct q'; [reflexivity | rewrite Eq in H1; cbn in H1; lia]).
    rewrite Eq, Hq1. cbn. split; [intros i Hi; lia | split; [constructor | reflexivity]].
Qed.

(** The first entry of a heap is a minimum. *)
Lemma heap_top_min (q : list A) (x : A) :
  heapUpto comp d (Z.of_nat (length q)) q -> Forall ok q ->
  PriorityQueue.top q = Some x ->
  forall y, y ∈ q -> comp x y = false.
Proof.
  intros Hq Hok Htop.
  assert (Hx : vget d q 0 = x).
  { unfold PriorityQueue.top in Htop. destruct q; [discriminate |].
    injection Htop as <-. reflexivity. }
  assert (Hirr : forall a, comp a a = false).
  { intros a. destruct (comp a a) eqn:E; [| reflexivity].
    rewrite (comp_asym _ _ E) in E. discriminate. }
  assert (Hall : forall (n : nat) (i : Z), i < Z.of_nat n ->
                 0 <= i < Z.of_nat (length q) -> comp x (vget d q i) = false).
  { induction n as [|n IH]; intros i Hn Hi; [lia |].
    destruct (decide (i = 0)) as [-> | Hne]; [rewrite Hx; apply Hirr |].
    pose proof (parent_bounds i ltac:(lia)) as Hp.
    apply (comp_ntrans _ (vget d q (parent i))).
    - apply Forall_vget; [exact Hok | lia].
    - apply IH; lia.
    - apply Hq. lia. }
  intros y Hy. apply list_elem_of_lookup in Hy. destruct Hy as [i Hi].
  pose proof (lookup_lt_Some _ _ _ Hi) as Hlt.
  specialize (Hall (S i) (Z.of_nat i) ltac:(lia) ltac:(lia)).
  unfold vget in Hall. rewrite Nat2Z.id, Hi in Hall. exact Hall.
Qed.

End HeapFacts.

Section HeapPerm.
Context {A : Type} (comp : A -> A -> bool).

Lemma insert_cons_perm (l : list A) (j : nat) (x y : A) :
  l !! j = Some y -> y :: <[j := x]> l ≡ₚ x :: l.
Proof.
  revert j. induction l as [|a l IH]; intros [|j] E; try discriminate.
  - injection E as ->. apply Permutation_swap.
  - change (y :: a :: <[j := x]> l ≡ₚ x :: a :: l).
    rewrite Permutation_swap, (IH j E). apply Permutation_swap.
Qed.

Lemma insert_swap_perm (l : list A) (i j : nat) (x y : A) :
  l !! i = Some x -> l !! j = Some y -> i <> j ->
  <[i := y]> (<[j := x]> l) ≡ₚ l.
Proof.
  revert i j. induction l as [|a l IH]; intros [|i] [|j] Ei Ej Hne;
    try discriminate; try lia.
  - injection Ei as ->. apply (insert_cons_perm l j x y Ej).
  - injection Ej as ->. apply (insert_cons_perm l i y x Ei).
  - change (a :: <[i := y]> (<[j := x]> l) ≡ₚ a :: l).
    rewrite (IH i j Ei Ej ltac:(lia)). reflexivity.
Qed.

(** Moving the hole from [h] to [c] does not change the contents. *)
Lemma hole_move (d : A) (first : list A) (h c : Z) (value : A) :
  0 <= h < Z.of_nat (length first) -> 0 <= c < Z.of_nat (length first) ->
  h <> c ->
  vset (vset first h (vget d first c)) c value ≡ₚ vset first h value.
Proof.
  intros Hh Hc Hne. unfold vset, vget.
  destruct (lookup_lt_is_Some_2 first (Z.to_nat c) ltac:(lia)) as [y Ey].
  rewrite Ey. cbn [default].
  assert (Heq : <[Z.to_nat h := y]> first
                = <[Z.to_nat h := y]> (<[Z.to_nat h := value]> first))
    by (symmetry; apply list_insert_insert_eq).
  change (<[Z.to_nat c := value]> (<[Z.to_nat h := y]> first)
          ≡ₚ <[Z.to_nat h := value]> first).
  rewrite Heq.
  apply insert_swap_perm.
  - rewrite list_lookup_insert_ne by lia. exact Ey.
  - apply list_lookup_insert_eq. lia.
  - lia.
Qed.

Lemma push_heap_loop_perm (value : A) (n : nat) (first : list A) (h : Z) :
  0 <= h < Z.of_nat (length first) ->
  let r := PriorityQueue.push_heap_loop comp n first h 0 value in
  r ≡ₚ vset first h value
  /\ forall i, h < i -> r !! Z.to_nat i = first !! Z.to_nat i.
Proof.
  revert first h. induction n as [|n IH]; intros first h Hh;
    cbn [PriorityQueue.push_heap_loop]; cbv zeta.
  - split; [reflexivity |]. intros i Hi. unfold vset.
    apply list_lookup_insert_ne. lia.
  - fold (parent h).
    destruct ((0 <? h) && comp (vget value first (parent h)) value) eqn:E.
    + apply andb_true_iff in E. destruct E as [E _]. apply Z.ltb_lt in E.
      pose proof (parent_bounds h ltac:(lia)) as Hp.
      destruct (IH (vset first h (vget value first (parent h))) (parent h)) as [P U].
      { rewrite vset_length. lia. }
      split.
      * rewrite P. apply hole_move; lia.
      * intros i Hi. rewrite U by lia. unfold vset.
        apply list_lookup_insert_ne. lia.
    + split; [reflexivity |]. intros i Hi. unfold vset.
      apply list_lookup_insert_ne. lia.
Qed.

Lemma adjust_heap_loop_perm (len : Z) (value : A) (n : nat) (first : list A) (h : Z) :
  0 <= h < len -> len <= Z.of_nat (length first) ->
  exists r h' s,
    PriorityQueue.adjust_heap_loop comp n first len value h h = (r, h', s)
    /\ h <= h' < len /\ s = h'
    /\ length r = length first
    /\ (forall v, vset r h' v ≡ₚ vset first h v)
    /\ (forall i, len <= i -> r !! Z.to_nat i = first !! Z.to_nat i).
Proof.
  revert first h. induction n as [|n IH]; intros first h Hh Hlen;
    cbn [PriorityQueue.adjust_heap_loop].
  - exists first, h, h. repeat split; auto; lia.
  - destruct (Z.ltb_spec h (Z.quot (len - 1) 2)) as [Hlt | Hge].
    + cbv zeta.
      assert (Hc : 2 * (h + 1) <= len - 1).
      { rewrite Z.quot_div_nonneg in Hlt by lia.
        pose proof (Z.div_mod (len - 1) 2 ltac:(lia)).
        pose proof (Z.mod_pos_bound (len - 1) 2 ltac:(lia)). lia. }
      set (c' := if comp _ _ then _ else _).
      assert (Hc' : c' = 2 * (h + 1) - 1 \/ c' = 2 * (h + 1)).
      { subst c'. destruct (comp _ _); auto. }
      clearbody c'.
      destruct (IH (vset first h (vget value first c')) c') as
        (r & h' & s & E & Hh' & Hs & Hl & P & U).
      { lia. } { rewrite vset_length. lia. }
      exists r, h', s. rewrite vset_length in Hl.
      split; [exact E | split; [lia | split; [exact Hs | split; [exact Hl | split]]]].
      * intros v. rewrite P. apply hole_move; lia.
      * intros i Hi. rewrite U by lia. unfold vset.
        apply list_lookup_insert_ne. lia.
    + exists first, h, h. repeat split; auto; lia.
Qed.

Lemma adjust_heap_perm (len : Z) (value : A) (first : list A) :
  0 < len <= Z.of_nat (length first) ->
  let r := PriorityQueue.adjust_heap comp first 0 len value in
  r ≡ₚ vset first 0 value
  /\ forall i, len <= i -> r !! Z.to_nat i = first !! Z.to_nat i.
Proof.
  intros Hlen.
  destruct (adjust_heap_loop_perm len value (length first) first 0
              ltac:(lia) ltac:(lia))
    as (r1 & h1 & s1 & E & Hh1 & -> & Hl1 & P1 & U1).
  unfold PriorityQueue.adjust_heap, PriorityQueue.push_heap_aux. rewrite E.
  destruct ((Z.land len 1 =? 0) && (h1 =? Z.quot (len - 2) 2)) eqn:Ev.
  - apply andb_true_iff in Ev. destruct Ev as [Ev Eh].
    apply land_one_even in Ev; [| lia]. apply Z.eqb_eq in Eh.
    assert (Hc : 2 * (h1 + 1) - 1 = len - 1).
    { pose proof (Z.div_mod len 2 ltac:(lia)).
      rewrite Z.quot_div_nonneg in Eh by lia.
      replace (len - 2) with (len + (-1) * 2) in Eh by lia.
      rewrite Z.div_add in Eh by lia. lia. }
    rewrite Hc.
    destruct (push_heap_loop_perm value
                (length (vset r1 h1 (vget value r1 (len - 1))))
                (vset r1 h1 (vget value r1 (len - 1))) (len - 1)) as [P U].
    { rewrite vset_length. lia. }
    split.
    + rewrite P, <- P1. apply hole_move; lia.
    + intros i Hi. rewrite U by lia. unfold vset.
      rewrite list_lookup_insert_ne by lia. apply U1. exact Hi.
  - destruct (push_heap_loop_perm value (length r1) r1 h1 ltac:(lia)) as [P U].
    split.
    + rewrite P. apply P1.
    + intros i Hi. rewrite U by lia. apply U1. exact Hi.
Qed.

Lemma push_perm (x : A) (q : list A) : PriorityQueue.push comp x q ≡ₚ x :: q.
Proof.
  unfold PriorityQueue.push, PriorityQueue.push_heap_aux.
  destruct (push_heap_loop_perm x (length (q ++ [x])) (q ++ [x])
              (Z.of_nat (length (q ++ [x])) - 1)) as [P _].
  { rewrite length_app. cbn [length]. lia. }
  rewrite P. unfold vset.
  rewrite length_app. cbn [length].
  replace (Z.to_nat (Z.of_nat (length q + 1) - 1)) with (length q + 0)%nat by lia.
  rewrite insert_app_r. cbn. symmetry. apply Permutation_cons_append.
Qed.

Lemma pop_perm (first0 : A) (q : list A) :
  first0 :: PriorityQueue.pop comp (first0 :: q) ≡ₚ first0 :: q.
Proof.
  unfold PriorityQueue.pop.
  destruct (last (first0 :: q)) as [value |] eqn:El;
    [| apply last_None in El; discriminate].
  set (c := first0 :: q) in *.
  assert (Hlen : Z.of_nat (length c) = Z.of_nat (length q) + 1)
    by (subst c; cbn [length]; lia).
  destruct (Z.ltb_spec 1 (Z.of_nat (length c))) as [H2 | H1].
  - destruct (adjust_heap_perm (Z.of_nat (length c) - 1) value
                (vset c (Z.of_nat (length c) - 1) first0)) as [P U].
    { rewrite vset_length. lia. }
    set (r := PriorityQueue.adjust_heap comp _ _ _ _) in *.
    assert (Hr : length r = length c).
    { rewrite (Permutation_length P). rewrite !vset_length. reflexivity. }
    assert (Hlast : last r = Some first0).
    { rewrite last_lookup.
      replace (Nat.pred (length r)) with (Z.to_nat (Z.of_nat (length c) - 1)) by lia.
      rewrite U by lia. unfold vset. apply list_lookup_insert_eq. lia. }
    assert (Hsplit : r = removelast r ++ [first0]).
    { assert (Hne : r <> []) by (intros E; rewrite E in Hr; cbn in Hr; lia).
      destruct (exists_last Hne) as (r' & a & E).
      rewrite E, last_snoc in Hlast. injection Hlast as ->.
      rewrite E, removelast_last. reflexivity. }
    rewrite Permutation_cons_append, <- Hsplit, P.
    unfold vset. apply insert_swap_perm.
    + reflexivity.
    + rewrite last_lookup in El.
      replace (Z.to_nat (Z.of_nat (length c) - 1)) with (Nat.pred (length c)) by lia.
      exact El.
    + lia.
  - assert (Hq : q = []) by (destruct q; [reflexivity | cbn [length] in Hlen; lia]).
    subst c. rewrite Hq. reflexivity.
Qed.

End HeapPerm.

Lemma SFltb_false_leb (a b : spec_float) :
  a <> S754_nan -> b <> S754_nan -> SFltb b a = false -> SFleb a b = true.
Proof.
  unfold SFltb, SFleb. intros Ha Hb.
  destruct a as [sa | sa | | sa ma ea], b as [sb | sb | | sb mb eb];
    cbn; try congruence; sf_cases; cmp_cases.
Qed.

Lemma ltb_false_leb (a b : float) :
  is_nan a = false -> is_nan b = false ->
  (b <? a)%float = false -> (a <=? b)%float = true.
Proof.
  intros Ha Hb. rewrite ltb_spec, leb_spec.
  apply SFltb_false_leb; apply is_nan_Prim2SF; assumption.
Qed.

Lemma cmp_asym (a b : Node.t) : Node.cmp a b = true -> Node.cmp b a = false.
Proof. unfold Node.cmp. apply ltb_asym. Qed.

Lemma cmp_ntrans (a b c : Node.t) :
  openNode b -> Node.cmp a b = false -> Node.cmp b c = false -> Node.cmp a c = false.
Proof.
  unfold Node.cmp. intros [_ Hb] H1 H2.
  exact (ltb_neg_trans _ _ _ Hb H1 H2).
Qed.

Lemma checkNode_queueOk (node : Node.t) (ip : IP.t) :
  queueOk (IP.nodeQueue ip) -> queueOk (IP.nodeQueue (IP.checkNode node ip)).
Proof.
  intros [Hh Hok]. unfold IP.checkNode.
  destruct (bool_decide (Node.type node = Node.IP_FEASIBLE)
            && (Node.lowerBound node <? IP.objValueUpperBound ip)%float);
    [split; assumption |].
  destruct (bool_decide (Node.type node = Node.LP_FEASIBLE)
            && (Node.lowerBound node <? IP.objValueUpperBound ip)%float) eqn:E.
  - apply andb_true_iff in E. destruct E as [Et El].
    apply bool_decide_eq_true in Et. apply ltb_not_nan_l in El.
    destruct (push_queue Node.cmp openNode _ cmp_asym cmp_ntrans
                (IP.nodeQueue ip) node Hh Hok (conj Et El)) as (R1 & R2 & _).
    split; [exact R1 | exact R2].
  - destruct (bool_decide (Node.type node = Node.UNBOUNDED)); split; assumption.
Qed.

Lemma popNode_queueOk (ip : IP.t) :
  queueOk (IP.nodeQueue ip) -> queueOk (IP.nodeQueue (IP.popNode ip)).
Proof.
  intros [Hh Hok].
  destruct (pop_queue Node.cmp openNode _ cmp_asym cmp_ntrans
              (IP.nodeQueue ip) Hh Hok) as (R1 & R2 & _).
  split; [exact R1 | exact R2].
Qed.

Lemma solveSteps_queueOk (ip ip' : IP.t) :
  solveSteps ip ip' -> queueOk (IP.nodeQueue ip) -> queueOk (IP.nodeQueue ip').
Proof.
  induction 1 as [ip | node ip ip' _ IH | ip ip' _ IH]; intros H.
  - exact H.
  - apply IH, checkNode_queueOk, H.
  - apply IH, popNode_queueOk, H.
Qed.

Lemma queueOk_nil : queueOk [].
Proof. split; [intros i Hi; cbn in Hi; lia | constructor]. Qed.

Lemma init_queueOk (fuel : nat) (ip ip1 : IP.t) :
  IP.nodeQueue ip = [] -> IP.init fuel ip = Some ip1 -> queueOk (IP.nodeQueue ip1).
Proof.
  intros Hq H. unfold IP.init in H.
  destruct (Node.new fuel _ _ _) as [root |]; [| discriminate].
  cbn [mbind option_bind] in H. injection H as <-.
  apply checkNode_queueOk. cbn [IP.nodeQueue]. rewrite Hq. apply queueOk_nil.
Qed.

Lemma queueOk_top (q : list Node.t) (node : Node.t) :
  queueOk q -> PriorityQueue.top q = Some node ->
  openNode node
  /\ (forall y, y ∈ q -> (Node.lowerBound node <=? Node.lowerBound y)%float = true)
  /\ node :: PriorityQueue.pop Node.cmp q ≡ₚ q.
Proof.
  intros [Hh Hok] Ht.
  assert (Hin : node ∈ q).
  { unfold PriorityQueue.top in Ht. destruct q; [discriminate |].
    injection Ht as <-. apply list_elem_of_here. }
  assert (Hn : openNode node) by exact (proj1 (Forall_forall _ _) Hok _ Hin).
  split; [exact Hn | split].
  - intros y Hy.
    pose proof (proj1 (Forall_forall _ _) Hok _ Hy) as [_ Hyn].
    apply ltb_false_leb; [exact (proj2 Hn) | exact Hyn |].
    exact (heap_top_min Node.cmp openNode _ cmp_asym cmp_ntrans q node Hh Hok Ht y Hy).
  - unfold PriorityQueue.top in Ht. destruct q as [|a q]; [discriminate |].
    injection Ht as <-. apply pop_perm.
Qed.

Lemma expand_pops_top (fuel : nat) (ip ip' : IP.t) :
  IP.expand fuel ip = Some ip' ->
  exists node l r,
    PriorityQueue.top (IP.nodeQueue ip) = Some node
    /\ Node.new fuel (IP.objFunc ip) (IP.multiCon ip) (Node.varRangeLeft node) = Some l
    /\ Node.new fuel (IP.objFunc ip) (IP.multiCon ip) (Node.varRangeRight node) = Some r
    /\ ip' = IP.checkNode r (IP.checkNode l (IP.popNode ip)).
Proof.
  unfold IP.expand. intros H.
  destruct (PriorityQueue.top (IP.nodeQueue ip)) as [node |]; [| discriminate].
  cbn [mbind option_bind] in H.
  destruct (Node.new fuel _ _ (Node.varRangeLeft node)) as [l |] eqn:El; [| discriminate].
  cbn [mbind option_bind] in H.
  destruct (Node.new fuel _ _ (Node.varRangeRight node)) as [r |] eqn:Er; [| discriminate].
  cbn [mbind option_bind] in H. injection H as <-.
  exists node, l, r. auto.
Qed.

Lemma iterations_steps (fuel k : nat) (ip ip' : IP.t) :
  iterations fuel k ip = Some ip' -> solveSteps ip ip'.
Proof.
  revert ip. induction k as [|k IH]; intros ip H; cbn [iterations] in H.
  - injection H as <-. apply steps_done.
  - destruct (IP.expand fuel ip) as [ip1 |] eqn:He; [| discriminate].
    cbn [mbind option_bind] in H.
    exact (solveSteps_trans _ _ _ (expand_steps _ _ _ He) (IH _ H)).
Qed.

Lemma checkNode_queue (node : Node.t) (ip : IP.t) :
  IP.nodeQueue (IP.checkNode node ip)
  ≡ₚ (if bool_decide (Node.type node = Node.LP_FEASIBLE)
         && (Node.lowerBound node <? IP.objValueUpperBound ip)%float
      then node :: IP.nodeQueue ip else IP.nodeQueue ip).
Proof.
  unfold IP.checkNode.
  destruct (bool_decide (Node.type node = Node.IP_FEASIBLE)) eqn:Ei;
    destruct (bool_decide (Node.type node = Node.LP_FEASIBLE)) eqn:El;
    destruct (Node.lowerBound node <? IP.objValueUpperBound ip)%float;
    destruct (bool_decide (Node.type node = Node.UNBOUNDED));
    cbn [andb IP.nodeQueue]; try reflexivity; try apply push_perm.
  all: apply bool_decide_eq_true in Ei; apply bool_decide_eq_true in El;
    rewrite Ei in El; discriminate El.
Qed.

(** C7.  Along a sequential solve that starts with an empty queue the vector
    under the node queue is a heap for [Node::cmp] of open nodes
    ([LP_FEASIBLE], lower bound a number), after [init] and after every
    statement and every iteration of the loop.  Every iteration takes the
    front node and pops it.  On such a queue the front node is open, no
    queued node has a lower bound below its own, and the pop removes exactly
    that node; [checkNode] adds exactly the nodes it pushes.  Which of several
    nodes with the least lower bound sits at the front is decided by the
    layout of the heap: [Node::cmp] reads nothing but the lower bound. *)
Theorem pop_returns_open_node_of_least_lower_bound :
  (forall (fuel : nat) (ip ip1 : IP.t),
      IP.nodeQueue ip = [] -> IP.init fuel ip = Some ip1 ->
      queueOk (IP.nodeQueue ip1)
      /\ (forall ip', solveSteps ip1 ip' -> queueOk (IP.nodeQueue ip'))
      /\ (forall k ip', iterations fuel k ip1 = Some ip' ->
                        queueOk (IP.nodeQueue ip')))
  /\ (forall (fuel : nat) (ip ip' : IP.t),
        IP.expand fuel ip = Some ip' ->
        exists node l r,
          PriorityQueue.top (IP.nodeQueue ip) = Some node
          /\ Node.new fuel (IP.objFunc ip) (IP.multiCon ip) (Node.varRangeLeft node) = Some l
          /\ Node.new fuel (IP.objFunc ip) (IP.multiCon ip) (Node.varRangeRight node) = Some r
          /\ ip' = IP.checkNode r (IP.checkNode l (IP.popNode ip)))
  /\ (forall (ip : IP.t) (node : Node.t),
        queueOk (IP.nodeQueue ip) ->
        PriorityQueue.top (IP.nodeQueue ip) = Some node ->
        Node.type node = Node.LP_FEASIBLE
        /\ (forall y, y ∈ IP.nodeQueue ip ->
                      (Node.lowerBound node <=? Node.lowerBound y)%float = true)
        /\ node :: IP.nodeQueue (IP.popNode ip) ≡ₚ IP.nodeQueue ip)
  /\ (forall (node : Node.t) (ip : IP.t),
        IP.nodeQueue (IP.checkNode node ip)
        ≡ₚ (if bool_decide (Node.type node = Node.LP_FEASIBLE)
               && (Node.lowerBound node <? IP.objValueUpperBound ip)%float
            then node :: IP.nodeQueue ip else IP.nodeQueue ip))
  /\ (forall a b : Node.t,
        Node.cmp a b = (Node.lowerBound b <? Node.lowerBound a)%float).
Proof.
  split; [| split; [exact expand_pops_top | split; [| split; [exact checkNode_queue |]]]].
  - intros fuel ip ip1 Hq Hi.
    pose proof (init_queueOk fuel ip ip1 Hq Hi) as H1.
    split; [exact H1 | split].
    + intros ip' Hs. exact (solveSteps_queueOk _ _ Hs H1).
    + intros k ip' Hk. exact (solveSteps_queueOk _ _ (iterations_steps _ _ _ _ Hk) H1).
  - intros ip node Hq Ht.
    destruct (queueOk_top _ _ Hq Ht) as ([Hty _] & Hmin & Hperm).
    split; [exact Hty | split; [exact Hmin | exact Hperm]].
  - intros a b. reflexivity.
Qed.

(** C7, ties.  In the solve of [tie_ip] every queued node has the lower bound
    0.  The node with the solution (1, 0.5, 1, 0) is in the queue after three
    iterations; the node with the solution (0, 1, 0, 0.5) is pushed in the
    fourth.  After five iterations the later one is at the front, the one
    the sixth iteration pops, and the earlier one is still queued. *)
Lemma ties_not_in_insertion_order_counterexample :
  tie_queue 3 = Some [ (0%float, [0%float; 1%float; 0.5%float; 0%float]);
                       (0%float, [1%float; 0%float; 0%float; 0.5%float]);
                       (0%float, [1%float; 0.5%float; 1%float; 0%float]) ]
  /\ tie_queue 4 = Some [ (0%float, [1%float; 0%float; 0%float; 0.5%float]);
                          (0%float, [1%float; 0.5%float; 1%float; 0%float]);
                          (0%float, [0%float; 1%float; 0%float; 0.5%float]);
                          (0%float, [0%float; 1.5%float; 1%float; 0%float]) ]
  /\ tie_queue 5 = Some [ (0%float, [0%float; 1%float; 0%float; 0.5%float]);
                          (0%float, [1%float; 0.5%float; 1%float; 0%float]);
                          (0%float, [0%float; 1.5%float; 1%float; 0%float]);
                          (0%float, [1%float; 0.5%float; 0%float; 1%float]) ].
Proof. repeat split; vm_compute; reflexivity. Qed.

(** * The bimap of the variables *)

Lemma u64_small (z : Z) : 0 <= z < 2 ^ 64 -> u64 z = z.
Proof. intros H. unfold u64. now apply Z.mod_small. Qed.

Lemma bimapOk_empty : bimapOk VarBimap.empty.
Proof.
  intros name j. cbn. rewrite lookup_empty. split; [discriminate |].
  intros [_ H]. discriminate.
Qed.

Lemma getVarIndex_ok (name : string) (b : VarBimap.t) :
  bimapOk b ->
  Z.of_nat (length (VarBimap.indexToStr b)) < 2 ^ 32 ->
  bimapOk (VarBimap.getVarIndex name b).2.
Proof.
  intros Hok Hsz. unfold VarBimap.getVarIndex.
  destruct (VarBimap.strToIndex b !! name) as [j0 |] eqn:E; [exact Hok |].
  cbn [snd]. unfold VarBimap.getVarCount. rewrite u32_small by lia.
  intros n j. cbn [VarBimap.strToIndex VarBimap.indexToStr].
  destruct (decide (n = name)) as [-> | Hne].
  - rewrite lookup_insert_eq. split.
    + intros [= <-]. split; [lia |].
      rewrite Nat2Z.id. apply list_lookup_middle. reflexivity.
    + intros [Hj Hs].
      destruct (decide (Z.to_nat j < length (VarBimap.indexToStr b))%nat) as [Hlt | Hge].
      * rewrite lookup_app_l in Hs by exact Hlt.
        assert (VarBimap.strToIndex b !! name = Some j) as E' by (apply Hok; auto).
        rewrite E in E'. discriminate E'.
      * pose proof (lookup_lt_Some _ _ _ Hs) as Hl. rewrite length_app in Hl.
        cbn [length] in Hl. f_equal. lia.
  - rewrite lookup_insert_ne by congruence. rewrite (Hok n j). split.
    + intros [Hj Hs]. split; [exact Hj |].
      rewrite lookup_app_l by (apply (lookup_lt_Some _ _ _ Hs)). exact Hs.
    + intros [Hj Hs]. split; [exact Hj |].
      destruct (decide (Z.to_nat j < length (VarBimap.indexToStr b))%nat) as [Hlt | Hge].
      * rewrite lookup_app_l in Hs by exact Hlt. exact Hs.
      * pose proof (lookup_lt_Some _ _ _ Hs) as Hl. rewrite length_app in Hl.
        cbn [length] in Hl.
        replace (Z.to_nat j) with (length (VarBimap.indexToStr b)) in Hs by lia.
        rewrite list_lookup_middle in Hs by reflexivity. congruence.
Qed.

Lemma getVarIndex_size (name : string) (b : VarBimap.t) :
  (length (VarBimap.indexToStr (VarBimap.getVarIndex name b).2)
   <= S (length (VarBimap.indexToStr b)))%nat
  /\ (length (VarBimap.indexToStr b)
      <= length (VarBimap.indexToStr (VarBimap.getVarIndex name b).2))%nat.
Proof.
  unfold VarBimap.getVarIndex.
  destruct (VarBimap.strToIndex b !! name); cbn [snd VarBimap.indexToStr].
  - lia.
  - rewrite length_app. cbn [length]. lia.
Qed.

Lemma registerAll_size (names : list string) (b : VarBimap.t) :
  (length (VarBimap.indexToStr (registerAll names b))
   <= length names + length (VarBimap.indexToStr b))%nat.
Proof.
  revert b. induction names as [|n names IH]; intros b; [cbn; lia |].
  cbn [registerAll foldl]. fold (registerAll names (VarBimap.getVarIndex n b).2).
  specialize (IH (VarBimap.getVarIndex n b).2).
  pose proof (getVarIndex_size n b). cbn [length]. lia.
Qed.

Lemma registerAll_ok (names : list string) (b : VarBimap.t) :
  bimapOk b ->
  Z.of_nat (length names) + Z.of_nat (length (VarBimap.indexToStr b)) <= 2 ^ 32 ->
  bimapOk (registerAll names b).
Proof.
  revert b. induction names as [|n names IH]; intros b Hok Hsz; [exact Hok |].
  cbn [registerAll foldl]. fold (registerAll names (VarBimap.getVarIndex n b).2).
  cbn [length] in Hsz.
  apply IH.
  - apply getVarIndex_ok; [exact Hok | lia].
  - pose proof (getVarIndex_size n b). lia.
Qed.

(** X1.  The two maps of a VarBimap stay inverse to each other (a name has the
    index j exactly when entry j of the vector of names is this name): the
    empty bimap has the property, getVarIndex keeps it while fewer than 2^32
    names are registered, and so it holds after registering any list of at
    most 2^32 names. Under it two names with the same index are equal and
    every index is below the number of names. *)
Theorem bimap_directions_agree :
  bimapOk VarBimap.empty
  /\ (forall (name : string) (b : VarBimap.t),
        bimapOk b -> Z.of_nat (length (VarBimap.indexToStr b)) < 2 ^ 32 ->
        bimapOk (VarBimap.getVarIndex name b).2)
  /\ (forall names : list string,
        Z.of_nat (length names) <= 2 ^ 32 ->
        bimapOk (registerAll names VarBimap.empty))
  /\ (forall (b : VarBimap.t) (n1 n2 : string) (j : Z),
        bimapOk b ->
        VarBimap.strToIndex b !! n1 = Some j ->
        VarBimap.strToIndex b !! n2 = Some j ->
        n1 = n2 /\ 0 <= j < Z.of_nat (length (VarBimap.indexToStr b))).
Proof.
  split; [exact bimapOk_empty |].
  split; [exact getVarIndex_ok |].
  split.
  - intros names H. apply registerAll_ok; [exact bimapOk_empty |]. cbn. lia.
  - intros b n1 n2 j Hok H1 H2.
    apply Hok in H1. apply Hok in H2. destruct H1 as [Hj H1], H2 as [_ H2].
    split; [congruence |].
    pose proof (lookup_lt_Some _ _ _ H1). lia.
Qed.

(** X2.  In a bimap whose two maps agree and which holds fewer than 2^32
    names, getVarName reads the index that getVarIndex returns for a name back
    as this name, whether the name was registered before or by this call. *)
Theorem getVarName_of_getVarIndex (name : string) (b : VarBimap.t) :
  bimapOk b ->
  Z.of_nat (length (VarBimap.indexToStr b)) < 2 ^ 32 ->
  VarBimap.getVarName (VarBimap.getVarIndex name b).1 (VarBimap.getVarIndex name b).2
  = Some name.
Proof.
  intros Hok Hsz. unfold VarBimap.getVarIndex, VarBimap.getVarName.
  destruct (VarBimap.strToIndex b !! name) as [j |] eqn:E; cbn [fst snd].
  - apply Hok in E. destruct E as [Hj Hs].
    pose proof (lookup_lt_Some _ _ _ Hs) as Hl.
    rewrite u64_small by lia.
    destruct (Z.leb_spec j (Z.of_nat (length (VarBimap.indexToStr b)) - 1)); [exact Hs | lia].
  - cbn [VarBimap.indexToStr]. unfold VarBimap.getVarCount.
    rewrite u32_small by lia. rewrite length_app. cbn [length].
    rewrite u64_small by lia.
    destruct (Z.leb_spec (Z.of_nat (length (VarBimap.indexToStr b)))
                (Z.of_nat (length (VarBimap.indexToStr b) + 1) - 1)); [| lia].
    rewrite Nat2Z.id. apply list_lookup_middle. reflexivity.
Qed.

Lemma getVarName_of_getVarIndex_witness :
  VarBimap.getVarName
    (VarBimap.getVarIndex "y" (registerAll ["x"; "y"; "z"]%string VarBimap.empty)).1
    (VarBimap.getVarIndex "y" (registerAll ["x"; "y"; "z"]%string VarBimap.empty)).2
  = Some "y"%string.
Proof.
  apply getVarName_of_getVarIndex.
  - apply registerAll_ok; [exact bimapOk_empty | cbn; lia].
  - vm_compute. reflexivity.
Defined.

Lemma getVarIndex_keeps (name other : string) (j : Z) (b : VarBimap.t) :
  VarBimap.strToIndex b !! name = Some j ->
  VarBimap.strToIndex (VarBimap.getVarIndex other b).2 !! name = Some j.
Proof.
  intros H. unfold VarBimap.getVarIndex.
  destruct (VarBimap.strToIndex b !! other) as [k |] eqn:E; cbn [snd]; [exact H |].
  cbn [VarBimap.strToIndex]. rewrite lookup_insert_ne; [exact H |].
  intros ->. rewrite E in H. discriminate H.
Qed.

Lemma registerAll_keeps (name : string) (j : Z) (others : list string) (b : VarBimap.t) :
  VarBimap.strToIndex b !! name = Some j ->
  VarBimap.strToIndex (registerAll others b) !! name = Some j.
Proof.
  revert b. induction others as [|o others IH]; intros b H; [exact H |].
  cbn [registerAll foldl]. fold (registerAll others (VarBimap.getVarIndex o b).2).
  apply IH, getVarIndex_keeps, H.
Qed.

Lemma getVarIndex_registers (name : string) (b : VarBimap.t) :
  VarBimap.strToIndex (VarBimap.getVarIndex name b).2 !! name
  = Some (VarBimap.getVarIndex name b).1.
Proof.
  unfold VarBimap.getVarIndex.
  destruct (VarBimap.strToIndex b !! name) as [k |] eqn:E; cbn [fst snd]; [exact E |].
  cbn [VarBimap.strToIndex]. apply lookup_insert_eq.
Qed.

(** X3.  getVarIndex gives a name one index for good: asking again for the
    same name returns the same index and leaves the bimap as it is, also after
    any other names were registered in between. *)
Theorem getVarIndex_is_stable (name : string) (others : list string) (b : VarBimap.t) :
  let r := VarBimap.getVarIndex name b in
  let b' := registerAll others r.2 in
  VarBimap.getVarIndex name r.2 = r
  /\ VarBimap.getVarIndex name b' = (r.1, b').
Proof.
  cbv zeta.
  pose proof (getVarIndex_registers name b) as H.
  split.
  - unfold VarBimap.getVarIndex at 1. rewrite H.
    destruct (VarBimap.getVarIndex name b); reflexivity.
  - unfold VarBimap.getVarIndex at 1.
    rewrite (registerAll_keeps _ _ others _ H). reflexivity.
Qed.

(** X4.  The guard of getVarName, varIndex <= indexToStr.size() - 1, is
    computed in size_t: for a bimap that is not empty an index at or past the
    number of names gives the text [unknown-var] and an index below it gives
    the stored name. For the empty bimap size() - 1 wraps to 2^64 - 1, so
    every uint32_t index passes the guard and the empty vector is read outside
    its bounds instead of [unknown-var] being returned. *)
Theorem getVarName_guard (varIndex : Z) :
  (forall b : VarBimap.t,
      VarBimap.indexToStr b <> [] ->
      Z.of_nat (length (VarBimap.indexToStr b)) <= varIndex ->
      VarBimap.getVarName varIndex b = Some "[unknown-var]"%string)
  /\ (forall b : VarBimap.t,
        Z.of_nat (length (VarBimap.indexToStr b)) <= 2 ^ 64 ->
        0 <= varIndex < Z.of_nat (length (VarBimap.indexToStr b)) ->
        VarBimap.getVarName varIndex b = VarBimap.indexToStr b !! Z.to_nat varIndex)
  /\ (0 <= varIndex < 2 ^ 32 ->
      VarBimap.getVarName varIndex VarBimap.empty = None).
Proof.
  unfold VarBimap.getVarName. split; [| split].
  - intros b Hne Hle.
    assert (0 < Z.of_nat (length (VarBimap.indexToStr b))).
    { destruct (VarBimap.indexToStr b); [congruence | cbn [length]; lia]. }
    unfold u64.
    pose proof (Z.mod_le (Z.of_nat (length (VarBimap.indexToStr b)) - 1) (2 ^ 64)
                  ltac:(lia) ltac:(lia)).
    destruct (Z.leb_spec varIndex
                ((Z.of_nat (length (VarBimap.indexToStr b)) - 1) mod 2 ^ 64));
      [lia | reflexivity].
  - intros b Hsz H. rewrite u64_small by lia.
    destruct (Z.leb_spec varIndex (Z.of_nat (length (VarBimap.indexToStr b)) - 1));
      [reflexivity | lia].
  - intros H. cbn [VarBimap.empty VarBimap.indexToStr length].
    change (u64 (Z.of_nat 0 - 1)) with (2 ^ 64 - 1).
    destruct (Z.leb_spec varIndex (2 ^ 64 - 1)); [reflexivity | lia].
Qed.

(** * Normalised constraints *)

Lemma SFleb_zero_opp (x : spec_float) :
  x <> S754_nan -> SFleb (S754_zero false) x = false ->
  SFleb (S754_zero false) (SFopp x) = true.
Proof.
  unfold SFleb. intros Hx.
  destruct x as [s | s | | s m e]; cbn; try congruence; destruct s; cbn; congruence.
Qed.

Lemma leb_zero_opp (x : float) :
  is_nan x = false -> (0 <=? x)%float = false -> (0 <=? - x)%float = true.
Proof.
  intros Hx. rewrite !leb_spec, opp_spec.
  change (Prim2SF 0) with (S754_zero false).
  apply SFleb_zero_opp, is_nan_Prim2SF, Hx.
Qed.

Lemma stdOfNegativeRightConst_rightConstOk (c : Constraint.t) :
  is_nan (Constraint.rightConst c) = false ->
  rightConstOk (Constraint.stdOfNegativeRightConst c).
Proof.
  intros Hn. unfold rightConstOk, Constraint.stdOfNegativeRightConst.
  destruct (0 <=? Constraint.rightConst c)%float eqn:E; [exact E |].
  cbn [Constraint.rightConst]. exact (leb_zero_opp _ Hn E).
Qed.

(** X5.  For a constraint whose right constant is not NaN,
    stdOfNegativeRightConst returns a constraint with a right constant >= 0,
    and applying it again changes nothing. It keeps whether the constraint has
    a slack variable, leaves a constraint with a right constant >= 0 as it is,
    and keeps an equality an equality. *)
Theorem stdOfNegativeRightConst_normal_form (c : Constraint.t) :
  is_nan (Constraint.rightConst c) = false ->
  let c' := Constraint.stdOfNegativeRightConst c in
  rightConstOk c'
  /\ Constraint.stdOfNegativeRightConst c' = c'
  /\ Constraint.haveSlackVar c' = Constraint.haveSlackVar c
  /\ (rightConstOk c -> c' = c)
  /\ (Constraint.relation c = EQ -> Constraint.relation c' = EQ).
Proof.
  intros Hn. cbv zeta. unfold rightConstOk, Constraint.stdOfNegativeRightConst.
  destruct (0 <=? Constraint.rightConst c)%float eqn:E.
  - rewrite E. repeat split; auto.
  - cbn [Constraint.rightConst Constraint.relation].
    rewrite (leb_zero_opp _ Hn E).
    split; [reflexivity | split; [reflexivity | split; [| split]]].
    + unfold Constraint.haveSlackVar. cbn [Constraint.relation].
      destruct (Constraint.relation c); reflexivity.
    + discriminate.
    + intros ->. reflexivity.
Qed.

Lemma stdOfNegativeRightConst_normal_form_witness :
  let c := Constraint.geq (-9) (Examples.constraint [(2%float, 0); ((-5)%float, 1)]) in
  let c' := Constraint.stdOfNegativeRightConst c in
  rightConstOk c'
  /\ Constraint.stdOfNegativeRightConst c' = c'
  /\ Constraint.haveSlackVar c' = Constraint.haveSlackVar c
  /\ (rightConstOk c -> c' = c)
  /\ (Constraint.relation c = EQ -> Constraint.relation c' = EQ).
Proof.
  apply (stdOfNegativeRightConst_normal_form
           (Constraint.geq (-9) (Examples.constraint [(2%float, 0); ((-5)%float, 1)]))).
  vm_compute. reflexivity.
Defined.

Lemma addTerms_constraint (terms : list (float * string)) (c : Constraint.t)
    (b : VarBimap.t) :
  Constraint.relation (IP.addTerms Constraint.add terms (c, b)).1 = Constraint.relation c
  /\ Constraint.rightConst (IP.addTerms Constraint.add terms (c, b)).1
     = Constraint.rightConst c.
Proof.
  unfold IP.addTerms. revert c b.
  induction terms as [|[coef name] terms IH]; intros c b; [split; reflexivity |].
  cbn [foldl fst snd].
  destruct (VarBimap.getVarIndex name b) as [j b1].
  exact (IH (Constraint.add coef j c) b1).
Qed.

(** X6.  addConstraint appends exactly one constraint and changes neither the
    objective nor the sense; a mode other than <= and >= is read as =. For
    rightConst >= 0 the constraint keeps rightConst and the relation of the
    mode, otherwise it has -rightConst and the reversed relation, so its right
    constant is >= 0 unless rightConst is NaN. *)
Theorem addConstraint_appends_normalised (terms : list (float * string))
    (mode : string) (rightConst : float) (ip : IP.t) :
  let ip' := IP.addConstraint terms mode rightConst ip in
  exists con : Constraint.t,
    IP.multiCon ip' = IP.multiCon ip ++ [con]
    /\ IP.objFunc ip' = IP.objFunc ip
    /\ IP.isMin ip' = IP.isMin ip
    /\ (is_nan rightConst = false -> rightConstOk con)
    /\ ((0 <=? rightConst)%float = true ->
        Constraint.rightConst con = rightConst
        /\ Constraint.relation con
           = (if bool_decide (mode = "<="%string) then LEQ
              else if bool_decide (mode = ">="%string) then GEQ else EQ))
    /\ ((0 <=? rightConst)%float = false ->
        Constraint.rightConst con = (- rightConst)%float
        /\ Constraint.relation con
           = (if bool_decide (mode = "<="%string) then GEQ
              else if bool_decide (mode = ">="%string) then LEQ else EQ)).
Proof.
  cbv zeta. unfold IP.addConstraint.
  pose proof (addTerms_constraint terms Constraint.new (IP.bimap ip)) as [Hr Hc].
  destruct (IP.addTerms Constraint.add terms (Constraint.new, IP.bimap ip)) as [con b].
  cbn [fst] in Hr, Hc. cbn [IP.multiCon IP.objFunc IP.isMin].
  set (con1 := if bool_decide (mode = "<="%string) then Constraint.leq rightConst con
               else if bool_decide (mode = ">="%string) then Constraint.geq rightConst con
                    else Constraint.eq rightConst con).
  assert (H1 : Constraint.rightConst con1 = rightConst).
  { subst con1. destruct (bool_decide (mode = "<="%string));
      [| destruct (bool_decide (mode = ">="%string))]; reflexivity. }
  assert (H2 : Constraint.relation con1
               = (if bool_decide (mode = "<="%string) then LEQ
                  else if bool_decide (mode = ">="%string) then GEQ else EQ)).
  { subst con1. destruct (bool_decide (mode = "<="%string));
      [| destruct (bool_decide (mode = ">="%string))]; reflexivity. }
  clearbody con1.
  exists (Constraint.stdOfNegativeRightConst con1).
  split; [reflexivity | split; [reflexivity | split; [reflexivity | split; [| split]]]].
  - intros Hn. apply stdOfNegativeRightConst_rightConstOk. rewrite H1. exact Hn.
  - intros E. unfold Constraint.stdOfNegativeRightConst. rewrite H1, E. auto.
  - intros E. unfold Constraint.stdOfNegativeRightConst. rewrite H1, E.
    cbn [Constraint.rightConst Constraint.relation]. rewrite ?H1, H2.
    split; [reflexivity |].
    destruct (bool_decide (mode = "<="%string));
      [| destruct (bool_decide (mode = ">="%string))]; reflexivity.
Qed.

(** * The cells of a tableau *)

Lemma idx_cell (tb : Tableau.t) (i j : Z) :
  shaped tb -> cell tb i j ->
  Tableau.idx tb i j = Tableau.cols tb * i + j
  /\ 0 <= Tableau.cols tb * i + j < Z.of_nat (length (Tableau.arr tb)).
Proof.
  intros (Hr & Hc & Hb & Hl) [Hi Hj]. unfold Tableau.idx.
  assert (0 <= Tableau.cols tb * i + j < Tableau.rows tb * Tableau.cols tb) by nia.
  rewrite u32_small by lia. lia.
Qed.

Lemma idx_inj (tb : Tableau.t) (i j i' j' : Z) :
  shaped tb -> cell tb i j -> cell tb i' j' ->
  Tableau.idx tb i j = Tableau.idx tb i' j' -> i = i' /\ j = j'.
Proof.
  intros Hs H1 H2 E.
  rewrite (proj1 (idx_cell _ _ _ Hs H1)), (proj1 (idx_cell _ _ _ Hs H2)) in E.
  destruct H1 as [Hi Hj], H2 as [Hi' Hj'].
  assert (i = i') by nia. subst. lia.
Qed.

Lemma set_frame (tb : Tableau.t) (i j : Z) (x : float) :
  sameFrame tb (Tableau.set tb i j x).
Proof. repeat split. Qed.

Lemma set_shaped (tb : Tableau.t) (i j : Z) (x : float) :
  shaped tb -> shaped (Tableau.set tb i j x).
Proof.
  intros (Hr & Hc & Hb & Hl). unfold shaped. cbn [Tableau.set Tableau.rows Tableau.cols Tableau.arr].
  rewrite vset_length. auto.
Qed.

Lemma get_set (tb : Tableau.t) (i j i' j' : Z) (x : float) :
  shaped tb -> cell tb i j -> cell tb i' j' ->
  Tableau.get (Tableau.set tb i j x) i' j'
  = if decide (i' = i /\ j' = j) then x else Tableau.get tb i' j'.
Proof.
  intros Hs H1 H2. unfold Tableau.get.
  change (Tableau.idx (Tableau.set tb i j x) i' j') with (Tableau.idx tb i' j').
  cbn [Tableau.set Tableau.arr].
  destruct (idx_cell _ _ _ Hs H1) as [E1 B1], (idx_cell _ _ _ Hs H2) as [E2 B2].
  destruct (decide (i' = i /\ j' = j)) as [[-> ->] | Hne].
  - apply vget_vset_eq. rewrite E1. exact B1.
  - apply vget_vset_ne; [lia | lia |].
    intros E. apply Hne. destruct (idx_inj _ _ _ _ _ Hs H1 H2 E). auto.
Qed.

Lemma sameFrame_refl (tb : Tableau.t) : sameFrame tb tb.
Proof. repeat split. Qed.

Lemma sameFrame_trans (a b c : Tableau.t) :
  sameFrame a b -> sameFrame b c -> sameFrame a c.
Proof. intros (?&?&?) (?&?&?). repeat split; congruence. Qed.

Lemma cell_frame (tb tb' : Tableau.t) (i j : Z) :
  sameFrame tb tb' -> cell tb i j -> cell tb' i j.
Proof. intros (Hr & Hc & _) H. unfold cell. rewrite Hr, Hc. exact H. Qed.

(** A loop that assigns the cells [0 .. n-1] of row [r], the value of cell
    [k] computed from cells the loop has not assigned yet. *)
Lemma set_row_fold (tb : Tableau.t) (r : Z) (F : Tableau.t -> Z -> float)
    (g : Z -> float) (n : nat) :
  shaped tb -> 0 <= r < Tableau.rows tb -> Z.of_nat n <= Tableau.cols tb ->
  (forall tb' k, 0 <= k < Z.of_nat n -> shaped tb' -> sameFrame tb tb' ->
     (forall i j, cell tb i j -> i <> r \/ k <= j ->
                  Tableau.get tb' i j = Tableau.get tb i j) ->
     F tb' k = g k) ->
  let R := foldl (fun tb k => Tableau.set tb r k (F tb k)) tb (range 0 (Z.of_nat n)) in
  shaped R /\ sameFrame tb R
  /\ forall i j, cell tb i j ->
       Tableau.get R i j
       = if decide (i = r /\ j < Z.of_nat n) then g j else Tableau.get tb i j.
Proof.
  intros Hs Hr. induction n as [|n IH]; intros Hn HF.
  - cbv zeta. change (range 0 (Z.of_nat 0)) with (@nil Z). cbn [foldl].
    split; [exact Hs | split; [apply sameFrame_refl |]].
    intros i j Hc.
    destruct (decide (i = r /\ j < Z.of_nat 0)) as [[_ H] | _]; [| reflexivity].
    destruct Hc as [_ Hj]. lia.
  - replace (Z.of_nat (S n)) with (Z.of_nat n + 1) by lia.
    rewrite range_snoc by lia. cbv zeta. rewrite foldl_app. cbn [foldl].
    destruct IH as (Hs1 & Hf1 & Hg1); [lia | |].
    { intros tb' k Hk. apply HF. lia. }
    set (R1 := foldl _ tb (range 0 (Z.of_nat n))) in *.
    assert (HFn : F R1 (Z.of_nat n) = g (Z.of_nat n)).
    { apply HF; [lia | exact Hs1 | exact Hf1 |].
      intros i j Hc Hor. rewrite Hg1 by exact Hc.
      destruct (decide (i = r /\ j < Z.of_nat n)) as [[-> Hlt] | _]; [| reflexivity].
      destruct Hor; [congruence | lia]. }
    rewrite HFn.
    assert (Hcr : cell R1 r (Z.of_nat n)).
    { apply (cell_frame tb); [exact Hf1 |]. split; lia. }
    split; [apply set_shaped, Hs1 |].
    split; [exact (sameFrame_trans _ _ _ Hf1 (set_frame _ _ _ _)) |].
    intros i j Hc.
    rewrite get_set by (try exact Hs1; try exact Hcr; apply (cell_frame tb); assumption).
    rewrite Hg1 by exact Hc.
    destruct (decide (i = r /\ j = Z.of_nat n)) as [H1 | H1];
      destruct (decide (i = r /\ j < Z.of_nat n)) as [H2 | H2];
      destruct (decide (i = r /\ j < Z.of_nat n + 1)) as [H3 | H3];
      try reflexivity; try (exfalso; intuition lia).
    destruct H1 as [_ ->]. reflexivity.
Qed.

Lemma scaleRow_cells (tb : Tableau.t) (r : Z) (s : float) :
  shaped tb -> 0 <= r < Tableau.rows tb ->
  let R := Tableau.scaleRow r s tb in
  shaped R /\ sameFrame tb R
  /\ forall i j, cell tb i j ->
       Tableau.get R i j
       = if decide (i = r) then (Tableau.get tb i j / s)%float else Tableau.get tb i j.
Proof.
  intros Hs Hr. unfold Tableau.scaleRow.
  pose proof Hs as (_ & Hc & _).
  destruct (set_row_fold tb r (fun tb k => (Tableau.get tb r k / s)%float)
              (fun k => (Tableau.get tb r k / s)%float)
              (Z.to_nat (Tableau.cols tb)) Hs Hr ltac:(lia)) as (H1 & H2 & H3).
  { intros tb' k Hk Hs' Hf Hsame. cbv beta. rewrite Hsame; [reflexivity | split; lia | lia]. }
  rewrite Z2Nat.id in * by lia.
  split; [exact H1 | split; [exact H2 |]].
  intros i j Hcell. rewrite H3 by exact Hcell.
  destruct Hcell as [_ Hj].
  destruct (decide (i = r)) as [-> | Hne];
    destruct (decide (_ /\ _)) as [[He Hl] | Hn]; try reflexivity; try lia.
Qed.

Lemma addRowToRow_cells (tb : Tableau.t) (a r : Z) (s : float) :
  shaped tb -> 0 <= a < Tableau.rows tb -> 0 <= r < Tableau.rows tb ->
  let R := Tableau.addRowToRow a r s tb in
  shaped R /\ sameFrame tb R
  /\ forall i j, cell tb i j ->
       Tableau.get R i j
       = if decide (i = r) then (Tableau.get tb r j + Tableau.get tb a j * s)%float
         else Tableau.get tb i j.
Proof.
  intros Hs Ha Hr. unfold Tableau.addRowToRow.
  pose proof Hs as (_ & Hc & _).
  destruct (set_row_fold tb r
              (fun tb k => (Tableau.get tb r k + Tableau.get tb a k * s)%float)
              (fun k => (Tableau.get tb r k + Tableau.get tb a k * s)%float)
              (Z.to_nat (Tableau.cols tb)) Hs Hr ltac:(lia)) as (H1 & H2 & H3).
  { intros tb' k Hk Hs' Hf Hsame. cbv beta.
    rewrite !Hsame; [reflexivity | split; lia | lia | split; lia | lia]. }
  rewrite Z2Nat.id in * by lia.
  split; [exact H1 | split; [exact H2 |]].
  intros i j Hcell. rewrite H3 by exact Hcell.
  destruct Hcell as [_ Hj].
  destruct (decide (i = r)) as [-> | Hne];
    destruct (decide (_ /\ _)) as [[He Hl] | Hn]; try reflexivity; try lia.
Qed.

(** A loop over the rows [0 .. n-1] that rewrites every row but [skip],
    row [k] from the rows the loop has not rewritten yet and from [skip]. *)
Lemma skip_rows_fold (tb : Tableau.t) (skip : Z)
    (step : Tableau.t -> Z -> Tableau.t) (g : Z -> Z -> float) (n : nat) :
  shaped tb -> Z.of_nat n <= Tableau.rows tb ->
  (forall tb' k, 0 <= k < Z.of_nat n -> k <> skip -> shaped tb' -> sameFrame tb tb' ->
     (forall r c, cell tb r c -> k <= r \/ r = skip ->
                  Tableau.get tb' r c = Tableau.get tb r c) ->
     shaped (step tb' k) /\ sameFrame tb' (step tb' k)
     /\ forall r c, cell tb r c ->
          Tableau.get (step tb' k) r c
          = if decide (r = k) then g k c else Tableau.get tb' r c) ->
  let R := foldl (fun tb k => if bool_decide (k ≠ skip) then step tb k else tb)
                 tb (range 0 (Z.of_nat n)) in
  shaped R /\ sameFrame tb R
  /\ forall r c, cell tb r c ->
       Tableau.get R r c
       = if decide (r < Z.of_nat n /\ r <> skip) then g r c else Tableau.get tb r c.
Proof.
  intros Hs. induction n as [|n IH]; intros Hn Hstep.
  - cbv zeta. change (range 0 (Z.of_nat 0)) with (@nil Z). cbn [foldl].
    split; [exact Hs | split; [apply sameFrame_refl |]].
    intros r c [Hr _].
    destruct (decide (r < Z.of_nat 0 /\ r <> skip)) as [[H _] | _]; [lia | reflexivity].
  - replace (Z.of_nat (S n)) with (Z.of_nat n + 1) by lia.
    rewrite range_snoc by lia. cbv zeta. rewrite foldl_app. cbn [foldl].
    destruct IH as (Hs1 & Hf1 & Hg1); [lia | |].
    { intros tb' k Hk. apply Hstep. lia. }
    set (R1 := foldl _ tb (range 0 (Z.of_nat n))) in *.
    destruct (bool_decide_reflect (Z.of_nat n ≠ skip)) as [Hne | He].
    + destruct (Hstep R1 (Z.of_nat n) ltac:(lia) Hne Hs1 Hf1) as (Hs2 & Hf2 & Hg2).
      { intros r c Hc Hor. rewrite Hg1 by exact Hc.
        destruct (decide (r < Z.of_nat n /\ r <> skip)) as [[H1 H2] | _]; [| reflexivity].
        exfalso. destruct Hor; [lia | congruence]. }
      split; [exact Hs2 | split; [exact (sameFrame_trans _ _ _ Hf1 Hf2) |]].
      intros r c Hc. rewrite Hg2, Hg1 by exact Hc.
      destruct (decide (r = Z.of_nat n)) as [H1 | H1];
        destruct (decide (r < Z.of_nat n /\ r <> skip)) as [H2 | H2];
        destruct (decide (r < Z.of_nat n + 1 /\ r <> skip)) as [H3 | H3];
        try reflexivity; try (exfalso; intuition lia).
      subst r. reflexivity.
    + split; [exact Hs1 | split; [exact Hf1 |]].
      intros r c Hc. rewrite Hg1 by exact Hc.
      destruct (decide (r < Z.of_nat n /\ r <> skip)) as [H2 | H2];
        destruct (decide (r < Z.of_nat n + 1 /\ r <> skip)) as [H3 | H3];
        try reflexivity; exfalso; intuition lia.
Qed.

(** The cells of the tableau after [elimination(i, j)]. *)
Lemma elimination_cells (tb : Tableau.t) (i j : Z) :
  shaped tb -> cell tb i j ->
  let aij := Tableau.get tb i j in
  let R := Tableau.elimination i j tb in
  shaped R /\ sameFrame tb R
  /\ forall r c, cell tb r c ->
       Tableau.get R r c
       = if decide (r = i) then (Tableau.get tb i c / aij)%float
         else if decide (c = j) then 0%float
         else (Tableau.get tb r c
               + Tableau.get tb i c * (- Tableau.get tb r j / aij))%float.
Proof.
  intros Hs [Hi Hj]. cbv zeta. unfold Tableau.elimination.
  set (aij := Tableau.get tb i j).
  pose proof Hs as (Hr0 & Hc0 & _).
  (* first loop *)
  destruct (skip_rows_fold tb i
              (fun tb k => Tableau.addRowToRow i k (- Tableau.get tb k j / aij)%float tb)
              (fun r c => (Tableau.get tb r c
                           + Tableau.get tb i c * (- Tableau.get tb r j / aij))%float)
              (Z.to_nat (Tableau.rows tb)) Hs ltac:(lia)) as (Hs1 & Hf1 & Hg1).
  { intros tb' k Hk Hne Hs' Hf' Hsame. cbv beta.
    assert (Hrows : Tableau.rows tb' = Tableau.rows tb) by apply Hf'.
    destruct (addRowToRow_cells tb' i k (- Tableau.get tb' k j / aij)%float Hs')
      as (Ha & Hb & Hc); [lia | lia |].
    split; [exact Ha | split; [exact Hb |]].
    intros r c Hcell. rewrite Hc by (apply (cell_frame tb); assumption).
    destruct (decide (r = k)) as [-> | Hrk]; [| reflexivity].
    destruct Hcell as [Hr Hcc].
    rewrite !Hsame; [reflexivity | split; lia | lia | split; lia | lia | split; lia | lia]. }
  rewrite Z2Nat.id in * by lia.
  set (tb1 := foldl _ tb (range 0 (Tableau.rows tb))) in *.
  (* second loop *)
  destruct (skip_rows_fold tb1 i
              (fun tb k => Tableau.set tb k j 0%float)
              (fun r c => if decide (c = j) then 0%float else Tableau.get tb1 r c)
              (Z.to_nat (Tableau.rows tb)) Hs1) as (Hs2 & Hf2 & Hg2).
  { destruct Hf1 as (-> & _). lia. }
  { intros tb' k Hk Hne Hs' Hf' Hsame. cbv beta.
    split; [apply set_shaped, Hs' | split; [apply set_frame |]].
    intros r c Hcell.
    assert (Hcell' : cell tb' r c) by (apply (cell_frame tb1); assumption).
    assert (Hkj : cell tb' k j).
    { apply (cell_frame tb1); [exact Hf' |]. apply (cell_frame tb); [exact Hf1 |].
      split; lia. }
    rewrite get_set by assumption.
    destruct (decide (r = k)) as [-> | Hrk].
    - destruct (decide (c = j)) as [-> | Hcj].
      + destruct (decide (k = k /\ j = j)); [reflexivity | tauto].
      + destruct (decide (k = k /\ c = j)) as [[_ ?] | _]; [congruence |].
        apply Hsame; [exact Hcell | lia].
    - destruct (decide (r = k /\ c = j)) as [[? _] | _]; [congruence | reflexivity]. }
  rewrite Z2Nat.id in * by lia.
  set (tb2 := foldl _ tb1 (range 0 (Tableau.rows tb))) in *.
  (* the pivot row *)
  assert (Hrows2 : Tableau.rows tb2 = Tableau.rows tb).
  { destruct Hf1 as (E1 & _), Hf2 as (E2 & _). congruence. }
  destruct (scaleRow_cells tb2 i aij Hs2 ltac:(lia)) as (Hs3 & Hf3 & Hg3).
  split; [exact Hs3 |].
  split; [exact (sameFrame_trans _ _ _ (sameFrame_trans _ _ _ Hf1 Hf2) Hf3) |].
  intros r c Hcell.
  assert (Hcell1 : cell tb1 r c) by (apply (cell_frame tb); assumption).
  assert (Hcell2 : cell tb2 r c) by (apply (cell_frame tb1); assumption).
  rewrite Hg3, Hg2, Hg1 by assumption.
  destruct Hcell as [Hr Hc].
  destruct (decide (r = i)) as [-> | Hri].
  - destruct (decide (i < Tableau.rows tb /\ i <> i)) as [[_ ?] | _]; [congruence |].
    reflexivity.
  - destruct (decide (r < Tableau.rows tb /\ r <> i)) as [_ | H]; [| exfalso; intuition lia].
    destruct (decide (c = j)); reflexivity.
Qed.

(** * The vectorised elimination *)

Lemma SFopp_round (s : bool) (m e : Z) (l : location) :
  SFopp (binary_round_aux prec emax s m e l) = binary_round_aux prec emax (negb s) m e l.
Proof.
  unfold binary_round_aux.
  destruct (shr_fexp prec emax m e l) as [mrs' e'].
  destruct (shr_fexp prec emax _ e' loc_Exact) as [mrs'' e''].
  destruct (shr_m mrs''); [reflexivity | | reflexivity].
  destruct (e'' <=? emax - prec); reflexivity.
Qed.

Lemma SFmul_opp_r (x y : spec_float) :
  SFmul prec emax x (SFopp y) = SFopp (SFmul prec emax x y).
Proof.
  destruct x as [sx | sx | | sx mx ex], y as [sy | sy | | sy my ey]; cbn [SFmul SFopp];
    try reflexivity; try (destruct sx, sy; reflexivity).
  rewrite SFopp_round. destruct sx, sy; reflexivity.
Qed.

Lemma SFdiv_opp_l (x y : spec_float) :
  SFdiv prec emax (SFopp x) y = SFopp (SFdiv prec emax x y).
Proof.
  destruct x as [sx | sx | | sx mx ex], y as [sy | sy | | sy my ey]; cbn [SFdiv SFopp];
    try reflexivity; try (destruct sx, sy; reflexivity).
  destruct (SFdiv_core_binary prec emax (Z.pos mx) ex (Z.pos my) ey) as [[mz ez] lz].
  rewrite SFopp_round. destruct sx, sy; reflexivity.
Qed.

Lemma SFadd_opp_r (x y : spec_float) :
  SFadd prec emax x (SFopp y) = SFsub prec emax x y.
Proof.
  destruct x as [sx | sx | | sx mx ex], y as [sy | sy | | sy my ey]; cbn [SFadd SFsub SFopp];
    try reflexivity; try (destruct sx, sy; reflexivity).
Qed.

(** [a + b * (-x / y) = a - b * (x / y)] for doubles. *)
Lemma add_mul_opp_div (a b x y : float) :
  (a + b * (- x / y))%float = (a - b * (x / y))%float.
Proof.
  apply Prim2SF_inj.
  rewrite add_spec, sub_spec, !mul_spec, !div_spec, opp_spec.
  unfold SF64add, SF64sub, SF64mul, SF64div.
  rewrite SFdiv_opp_l, SFmul_opp_r, SFadd_opp_r. reflexivity.
Qed.

Lemma chunk_cells (pI pK : Z) (ratio : float) (a : list float) (q : Z) :
  0 <= pI -> 0 <= pK -> 0 <= q -> pI + 4 <= pK \/ pK + 4 <= pI ->
  Avx.storeu_pd a (pK + 4 * q)
    (Avx.sub_pd (Avx.loadu_pd a (pK + 4 * q))
                (Avx.mul_pd (Avx.loadu_pd a (pI + 4 * q)) (Avx.set1_pd ratio)))
  = foldl (rowCell pI pK ratio) a [4 * q; 4 * q + 1; 4 * q + 2; 4 * q + 3].
Proof.
  intros HI HK Hq Hap. cbn [foldl]. unfold rowCell.
  unfold Avx.storeu_pd, Avx.sub_pd, Avx.mul_pd, Avx.loadu_pd, Avx.set1_pd.
  cbn [Avx.lane0 Avx.lane1 Avx.lane2 Avx.lane3].
  replace (pK + (4 * q + 1)) with (pK + 4 * q + 1) by lia.
  replace (pK + (4 * q + 2)) with (pK + 4 * q + 2) by lia.
  replace (pK + (4 * q + 3)) with (pK + 4 * q + 3) by lia.
  replace (pI + (4 * q + 1)) with (pI + 4 * q + 1) by lia.
  replace (pI + (4 * q + 2)) with (pI + 4 * q + 2) by lia.
  replace (pI + (4 * q + 3)) with (pI + 4 * q + 3) by lia.
  rewrite !vget_vset_ne by lia. reflexivity.
Qed.

Lemma chunks_cells (pI pK : Z) (ratio : float) (a : list float) (m : nat) :
  0 <= pI -> 0 <= pK -> pI + 4 <= pK \/ pK + 4 <= pI ->
  foldl (fun arr q =>
           let c := 4 * q in
           let vecScaled := Avx.mul_pd (Avx.loadu_pd arr (pI + c)) (Avx.set1_pd ratio) in
           Avx.storeu_pd arr (pK + c) (Avx.sub_pd (Avx.loadu_pd arr (pK + c)) vecScaled))
        a (range 0 (Z.of_nat m))
  = foldl (rowCell pI pK ratio) a (range 0 (4 * Z.of_nat m)).
Proof.
  intros HI HK Hap. induction m as [|m IH]; [reflexivity |].
  replace (Z.of_nat (S m)) with (Z.of_nat m + 1) by lia.
  rewrite range_snoc by lia. rewrite foldl_app, IH. cbn [foldl]. cbv zeta.
  rewrite chunk_cells by lia.
  replace (4 * (Z.of_nat m + 1)) with (4 * Z.of_nat m + 1 + 1 + 1 + 1) by lia.
  rewrite !range_snoc by lia. rewrite !foldl_app. cbn [foldl].
  replace (4 * Z.of_nat m + 1 + 1) with (4 * Z.of_nat m + 2) by lia.
  replace (4 * Z.of_nat m + 2 + 1) with (4 * Z.of_nat m + 3) by lia.
  reflexivity.
Qed.

Lemma rowCell_set (tb : Tableau.t) (i k c : Z) (ratio : float) :
  shaped tb -> cell tb i c -> cell tb k c ->
  rowCell (Tableau.cols tb * i) (Tableau.cols tb * k) ratio (Tableau.arr tb) c
  = Tableau.arr (Tableau.set tb k c
                   (Tableau.get tb k c - Tableau.get tb i c * ratio)%float).
Proof.
  intros Hs Hi Hk. unfold rowCell, Tableau.set, Tableau.get. cbn [Tableau.arr].
  rewrite (proj1 (idx_cell _ _ _ Hs Hi)), (proj1 (idx_cell _ _ _ Hs Hk)). reflexivity.
Qed.

Lemma rowCells_set (i k : Z) (ratio : float) (l : list Z) (tb : Tableau.t) :
  shaped tb -> 0 <= i < Tableau.rows tb -> 0 <= k < Tableau.rows tb ->
  (forall c, c ∈ l -> 0 <= c < Tableau.cols tb) ->
  foldl (rowCell (Tableau.cols tb * i) (Tableau.cols tb * k) ratio) (Tableau.arr tb) l
  = Tableau.arr
      (foldl (fun tb c => Tableau.set tb k c
                            (Tableau.get tb k c - Tableau.get tb i c * ratio)%float)
             tb l).
Proof.
  intros Hs Hi Hk. revert tb Hs Hi Hk.
  induction l as [|c l IH]; intros tb Hs Hi Hk Hl; [reflexivity |].
  cbn [foldl].
  assert (Hc : 0 <= c < Tableau.cols tb) by (apply Hl; left).
  rewrite rowCell_set by (try exact Hs; split; assumption).
  set (tb1 := Tableau.set tb k c _).
  change (Tableau.cols tb) with (Tableau.cols tb1).
  apply IH.
  - apply set_shaped, Hs.
  - exact Hi.
  - exact Hk.
  - intros c' Hc'. apply Hl. right. exact Hc'.
Qed.

(** The cells after the body of the loop over the rows. *)
Lemma eliminateRow_cells (tb : Tableau.t) (i j k : Z) :
  shaped tb -> cell tb i j -> 0 <= k < Tableau.rows tb -> k <> i ->
  let tb' := Tableau.mk (eliminateRow (Tableau.cols tb) i j (Tableau.arr tb) k)
                        (Tableau.rows tb) (Tableau.cols tb) (Tableau.baseVarIndexs tb) in
  shaped tb' /\ sameFrame tb tb'
  /\ forall r c, cell tb r c ->
       Tableau.get tb' r c
       = if decide (r = k)
         then if decide (c = j) then 0%float
              else (Tableau.get tb k c
                    - Tableau.get tb i c * (Tableau.get tb k j / Tableau.get tb i j))%float
         else Tableau.get tb r c.
Proof.
  intros Hs [Hi Hj] Hk Hne. cbv zeta.
  pose proof Hs as (Hr0 & Hc0 & Hb0 & Hl0).
  unfold eliminateRow.
  assert (E1 : vget 0%float (Tableau.arr tb) (Tableau.cols tb * k + j) = Tableau.get tb k j).
  { unfold Tableau.get. rewrite (proj1 (idx_cell tb k j Hs ltac:(split; lia))). reflexivity. }
  assert (E2 : vget 0%float (Tableau.arr tb) (Tableau.cols tb * i + j) = Tableau.get tb i j).
  { unfold Tableau.get. rewrite (proj1 (idx_cell tb i j Hs ltac:(split; lia))). reflexivity. }
  rewrite E1, E2. cbv zeta.
  set (ratio := (Tableau.get tb k j / Tableau.get tb i j)%float).
  set (m := Tableau.cols tb / 4).
  assert (Hm : 0 <= 4 * m <= Tableau.cols tb).
  { subst m. pose proof (Z.div_mod (Tableau.cols tb) 4 ltac:(lia)).
    pose proof (Z.mod_pos_bound (Tableau.cols tb) 4 ltac:(lia)).
    pose proof (Z.div_pos (Tableau.cols tb) 4 ltac:(lia) ltac:(lia)). lia. }
  assert (Hfold :
    foldl (rowCell (Tableau.cols tb * i) (Tableau.cols tb * k) ratio) (Tableau.arr tb)
          (range 0 (Tableau.cols tb))
    = foldl (fun arr c =>
               vset arr (Tableau.cols tb * k + c)
                    (vget 0%float arr (Tableau.cols tb * k + c)
                     - vget 0%float arr (Tableau.cols tb * i + c) * ratio)%float)
            (foldl (fun arr q =>
                      let c := 4 * q in
                      let vecScaled :=
                        Avx.mul_pd (Avx.loadu_pd arr (Tableau.cols tb * i + c))
                                   (Avx.set1_pd ratio) in
                      Avx.storeu_pd arr (Tableau.cols tb * k + c)
                        (Avx.sub_pd (Avx.loadu_pd arr (Tableau.cols tb * k + c)) vecScaled))
                   (Tableau.arr tb) (range 0 m))
            (range (4 * m) (Tableau.cols tb))).
  { destruct (decide (m = 0)) as [Hm0 | Hm0].
    - rewrite Hm0. reflexivity.
    - pose proof (chunks_cells (Tableau.cols tb * i) (Tableau.cols tb * k) ratio
                    (Tableau.arr tb) (Z.to_nat m) ltac:(nia) ltac:(nia) ltac:(nia)) as Hch.
      rewrite Z2Nat.id in Hch by lia. rewrite Hch.
      assert (Hsplit : range 0 (Tableau.cols tb)
                       = range 0 (4 * m) ++ range (4 * m) (Tableau.cols tb)).
      { unfold range. replace (Tableau.cols tb - 0) with ((4 * m - 0) + (Tableau.cols tb - 4 * m)) by lia.
        rewrite seqZ_app by lia. f_equal. f_equal. lia. }
      rewrite Hsplit, foldl_app. reflexivity. }
  cbv zeta in Hfold. rewrite <- Hfold.
  rewrite rowCells_set; [| exact Hs | lia | lia | intros c Hc; apply elem_of_range in Hc; lia].
  destruct (set_row_fold tb k
              (fun tb c => (Tableau.get tb k c - Tableau.get tb i c * ratio)%float)
              (fun c => (Tableau.get tb k c - Tableau.get tb i c * ratio)%float)
              (Z.to_nat (Tableau.cols tb)) Hs Hk ltac:(lia)) as (H1 & H2 & H3).
  { intros tb' c Hc Hs' Hf Hsame. cbv beta.
    rewrite !Hsame; [reflexivity | split; lia | lia | split; lia | lia]. }
  rewrite Z2Nat.id in * by lia.
  set (tb1 := foldl _ tb (range 0 (Tableau.cols tb))) in *.
  assert (Hkj : cell tb1 k j) by (apply (cell_frame tb); [exact H2 | split; lia]).
  assert (Earr : vset (Tableau.arr tb1) (Tableau.cols tb * k + j) 0%float
                 = Tableau.arr (Tableau.set tb1 k j 0%float)).
  { unfold Tableau.set. cbn [Tableau.arr].
    rewrite (proj1 (idx_cell _ _ _ H1 Hkj)).
    destruct H2 as (_ & -> & _). reflexivity. }
  rewrite Earr.
  assert (Eq : Tableau.mk (Tableau.arr (Tableau.set tb1 k j 0%float)) (Tableau.rows tb)
                 (Tableau.cols tb) (Tableau.baseVarIndexs tb)
               = Tableau.set tb1 k j 0%float).
  { destruct H2 as (Ea & Eb & Ec). unfold Tableau.set. cbn [Tableau.arr].
    rewrite Ea, Eb, Ec. reflexivity. }
  rewrite Eq.
  split; [apply set_shaped, H1 |].
  split; [exact (sameFrame_trans _ _ _ H2 (set_frame _ _ _ _)) |].
  intros r c Hcell.
  rewrite get_set by (try exact H1; try exact Hkj; apply (cell_frame tb); assumption).
  rewrite H3 by exact Hcell.
  destruct Hcell as [Hr Hc].
  destruct (decide (r = k)) as [-> | Hrk].
  - destruct (decide (c = j)) as [-> | Hcj].
    + destruct (decide (k = k /\ j = j)); [reflexivity | tauto].
    + destruct (decide (k = k /\ c = j)) as [[_ ?] | _]; [congruence |].
      destruct (decide (k = k /\ c < Tableau.cols tb)) as [_ | H]; [reflexivity |].
      exfalso. apply H. split; [reflexivity | lia].
  - destruct (decide (r = k /\ c = j)) as [[? _] | _]; [congruence |].
    destruct (decide (r = k /\ c < Tableau.cols tb)) as [[? _] | _]; [congruence | reflexivity].
Qed.

Lemma rows_fold_lift (co i j : Z) (l : list Z) (tb : Tableau.t) :
  Tableau.cols tb = co ->
  foldl (fun arr k => if bool_decide (k ≠ i) then eliminateRow co i j arr k else arr)
        (Tableau.arr tb) l
  = Tableau.arr
      (foldl (fun tb k =>
                if bool_decide (k ≠ i)
                then Tableau.mk (eliminateRow (Tableau.cols tb) i j (Tableau.arr tb) k)
                                (Tableau.rows tb) (Tableau.cols tb)
                                (Tableau.baseVarIndexs tb)
                else tb)
             tb l).
Proof.
  revert tb. induction l as [|k l IH]; intros tb Hco; [reflexivity |].
  cbn [foldl]. destruct (bool_decide (k ≠ i)).
  - rewrite <- IH by exact Hco. cbn [Tableau.arr]. rewrite Hco. reflexivity.
  - apply IH, Hco.
Qed.

Lemma scale_fold_lift (co i : Z) (s : float) (l : list Z) (tb : Tableau.t) :
  Tableau.cols tb = co ->
  foldl (fun arr k => vset arr (u32 (co * i + k))
                           (vget 0%float arr (u32 (co * i + k)) / s)%float)
        (Tableau.arr tb) l
  = Tableau.arr (foldl (fun tb k => Tableau.set tb i k (Tableau.get tb i k / s)%float) tb l).
Proof.
  revert tb. induction l as [|k l IH]; intros tb Hco; [reflexivity |].
  cbn [foldl]. rewrite <- IH by exact Hco.
  unfold Tableau.set, Tableau.get, Tableau.idx. cbn [Tableau.arr]. rewrite Hco. reflexivity.
Qed.

Lemma shaped_rows (tb : Tableau.t) :
  shaped tb -> 0 < Tableau.cols tb ->
  u32 (Z.of_nat (length (Tableau.arr tb)) / Tableau.cols tb) = Tableau.rows tb.
Proof.
  intros (Hr & Hc & Hb & Hl) Hpos. rewrite Hl, Z.div_mul by lia.
  apply u32_small. nia.
Qed.

(** The cells of the tableau after [parallelArrayElimination]. *)
Lemma eliminationParallel_cells (tb : Tableau.t) (i j : Z) :
  shaped tb -> cell tb i j ->
  let aij := Tableau.get tb i j in
  let R := eliminationParallel i j tb in
  shaped R /\ sameFrame tb R
  /\ forall r c, cell tb r c ->
       Tableau.get R r c
       = if decide (r = i) then (Tableau.get tb i c / aij)%float
         else if decide (c = j) then 0%float
         else (Tableau.get tb r c - Tableau.get tb i c * (Tableau.get tb r j / aij))%float.
Proof.
  intros Hs Hcell. pose proof Hcell as [Hi Hj]. cbv zeta.
  pose proof Hs as (Hr0 & Hc0 & _).
  unfold eliminationParallel, parallelArrayElimination.
  rewrite shaped_rows by (try exact Hs; lia).
  rewrite (rows_fold_lift (Tableau.cols tb) i j _ tb eq_refl).
  destruct (skip_rows_fold tb i
              (fun tb k => Tableau.mk (eliminateRow (Tableau.cols tb) i j (Tableau.arr tb) k)
                                      (Tableau.rows tb) (Tableau.cols tb)
                                      (Tableau.baseVarIndexs tb))
              (fun r c => if decide (c = j) then 0%float
                          else (Tableau.get tb r c
                                - Tableau.get tb i c
                                  * (Tableau.get tb r j / Tableau.get tb i j))%float)
              (Z.to_nat (Tableau.rows tb)) Hs ltac:(lia)) as (Hs1 & Hf1 & Hg1).
  { intros tb' k Hk Hne Hs' Hf' Hsame. cbv beta.
    assert (Hrows : Tableau.rows tb' = Tableau.rows tb) by apply Hf'.
    destruct (eliminateRow_cells tb' i j k Hs') as (Ha & Hb & Hc);
      [apply (cell_frame tb); assumption | lia | exact Hne |].
    split; [exact Ha | split; [exact Hb |]].
    intros r c Hrc. rewrite Hc by (apply (cell_frame tb); assumption).
    destruct (decide (r = k)) as [-> | Hrk]; [| reflexivity].
    destruct (decide (c = j)); [reflexivity |].
    destruct Hrc as [Hr Hcc].
    rewrite !Hsame;
      [reflexivity | split; lia | lia | split; lia | lia | split; lia | lia | split; lia | lia]. }
  rewrite Z2Nat.id in * by lia.
  set (tb1 := foldl _ tb (range 0 (Tableau.rows tb))) in *.
  assert (Hcols1 : Tableau.cols tb1 = Tableau.cols tb) by apply Hf1.
  assert (Haij : vget 0%float (Tableau.arr tb1) (u32 (Tableau.cols tb * i + j))
                 = Tableau.get tb i j).
  { rewrite <- Hcols1. change (Tableau.get tb1 i j = Tableau.get tb i j).
    rewrite Hg1 by exact Hcell.
    destruct (decide (i < Tableau.rows tb /\ i <> i)) as [[_ ?] | _]; [congruence | reflexivity]. }
  rewrite Haij.
  rewrite (scale_fold_lift (Tableau.cols tb) i _ _ tb1 Hcols1).
  rewrite <- Hcols1.
  match goal with
  | |- context [foldl ?f tb1 (range 0 (Tableau.cols tb1))] =>
      change (foldl f tb1 (range 0 (Tableau.cols tb1)))
        with (Tableau.scaleRow i (Tableau.get tb i j) tb1)
  end.
  assert (Hrows1 : Tableau.rows tb1 = Tableau.rows tb) by apply Hf1.
  destruct (scaleRow_cells tb1 i (Tableau.get tb i j) Hs1 ltac:(lia)) as (Hs2 & Hf2 & Hg2).
  set (tb2 := Tableau.scaleRow i (Tableau.get tb i j) tb1) in *.
  assert (Eq : Tableau.mk (Tableau.arr tb2) (Tableau.rows tb) (Tableau.cols tb1)
                 (Tableau.baseVarIndexs tb) = tb2).
  { destruct (sameFrame_trans _ _ _ Hf1 Hf2) as (Ea & Eb & Ec).
    rewrite Hcols1, <- Ea, <- Eb, <- Ec. destruct tb2; reflexivity. }
  rewrite Eq.
  split; [exact Hs2 | split; [exact (sameFrame_trans _ _ _ Hf1 Hf2) |]].
  intros r c Hrc.
  rewrite Hg2, Hg1 by (try exact Hrc; apply (cell_frame tb); assumption).
  destruct Hrc as [Hr Hc].
  destruct (decide (r = i)) as [-> | Hri].
  - destruct (decide (i < Tableau.rows tb /\ i <> i)) as [[_ ?] | _]; [congruence | reflexivity].
  - destruct (decide (r < Tableau.rows tb /\ r <> i)) as [_ | H]; [reflexivity |].
    exfalso. apply H. split; [lia | exact Hri].
Qed.

(** Two tableaux of the same shape with the same cells are equal. *)
Lemma shaped_ext (a b : Tableau.t) :
  shaped a -> shaped b -> sameFrame a b ->
  (forall r c, cell a r c -> Tableau.get a r c = Tableau.get b r c) ->
  a = b.
Proof.
  intros Ha Hb (Er & Ec & Eb) Hcells.
  destruct a as [aa ar ac ab], b as [ba br bc bb].
  cbn [Tableau.rows Tableau.cols Tableau.baseVarIndexs] in Er, Ec, Eb. subst br bc bb.
  f_equal. apply list_eq. intros n.
  destruct Ha as (Hr & Hc & Hbd & Hl), Hb as (_ & _ & _ & Hl').
  cbn [Tableau.rows Tableau.cols Tableau.arr] in *.
  destruct (decide (n < length aa)%nat) as [Hlt | Hge].
  - assert (Hpos : 0 < ac) by nia.
    pose proof (Z.div_mod (Z.of_nat n) ac ltac:(lia)) as Hdm.
    pose proof (Z.mod_pos_bound (Z.of_nat n) ac Hpos) as Hmod.
    assert (Hdiv : 0 <= Z.of_nat n / ac < ar).
    { split; [apply Z.div_pos; lia |]. apply Z.div_lt_upper_bound; nia. }
    specialize (Hcells (Z.of_nat n / ac) (Z.of_nat n mod ac) ltac:(split; assumption)).
    unfold Tableau.get, Tableau.idx, vget in Hcells.
    cbn [Tableau.cols Tableau.arr] in Hcells.
    rewrite <- Hdm, u32_small, Nat2Z.id in Hcells by lia.
    destruct (lookup_lt_is_Some_2 aa n Hlt) as [x Hx].
    destruct (lookup_lt_is_Some_2 ba n ltac:(lia)) as [y Hy].
    rewrite Hx, Hy in *. cbn in Hcells. congruence.
  - rewrite !lookup_ge_None_2 by lia. reflexivity.
Qed.

(** * Row operations and the elimination *)

(** Closed shape and cell conditions of an example. *)
Ltac closed_shape :=
  unfold shaped, cell;
  repeat match goal with
         | |- _ /\ _ => split
         end;
  vm_compute; congruence.

(** X7.  In a tableau whose array holds rows * cols cells, with rows * cols <
    2^32, assigning the cell (i, j) changes this cell only: reading a cell
    (i', j') afterwards gives the assigned value when (i', j') = (i, j) and
    the value it had otherwise, and the array keeps its length. *)
Theorem tableau_cells_are_independent (tb : Tableau.t) (i j i' j' : Z) (x : float) :
  shaped tb -> cell tb i j -> cell tb i' j' ->
  Tableau.get (Tableau.set tb i j x) i' j'
  = (if decide (i' = i /\ j' = j) then x else Tableau.get tb i' j')
  /\ shaped (Tableau.set tb i j x).
Proof.
  intros Hs H1 H2. split; [apply get_set; assumption | apply set_shaped, Hs].
Qed.

Lemma tableau_cells_are_independent_witness :
  let tb := LP.tableau Examples.test2_s0 in
  Tableau.get (Tableau.set tb 1 4 7%float) 2 0
  = (if decide (2 = 1 /\ 0 = 4) then 7%float else Tableau.get tb 2 0)
  /\ shaped (Tableau.set tb 1 4 7%float).
Proof.
  apply (tableau_cells_are_independent (LP.tableau Examples.test2_s0) 1 4 2 0 7%float);
    closed_shape.
Defined.

(** X8.  On a well-shaped tableau addRowToRow(a, r, s) replaces every cell of
    row r by itself plus s times the cell of row a in the same column (also
    when a = r), and scaleRow(r, s) divides every cell of row r by s; both
    leave the other rows, the dimensions and the basis as they are. *)
Theorem row_operations_cells (tb : Tableau.t) (a r : Z) (s : float) :
  shaped tb -> 0 <= a < Tableau.rows tb -> 0 <= r < Tableau.rows tb ->
  (shaped (Tableau.addRowToRow a r s tb)
   /\ sameFrame tb (Tableau.addRowToRow a r s tb)
   /\ forall i j, cell tb i j ->
        Tableau.get (Tableau.addRowToRow a r s tb) i j
        = if decide (i = r) then (Tableau.get tb r j + Tableau.get tb a j * s)%float
          else Tableau.get tb i j)
  /\ (shaped (Tableau.scaleRow r s tb)
      /\ sameFrame tb (Tableau.scaleRow r s tb)
      /\ forall i j, cell tb i j ->
           Tableau.get (Tableau.scaleRow r s tb) i j
           = if decide (i = r) then (Tableau.get tb i j / s)%float
             else Tableau.get tb i j).
Proof.
  intros Hs Ha Hr. split.
  - exact (addRowToRow_cells tb a r s Hs Ha Hr).
  - exact (scaleRow_cells tb r s Hs Hr).
Qed.

Lemma row_operations_cells_witness :
  let tb := LP.tableau Examples.test2_s0 in
  (shaped (Tableau.addRowToRow 1 0 2%float tb)
   /\ sameFrame tb (Tableau.addRowToRow 1 0 2%float tb)
   /\ forall i j, cell tb i j ->
        Tableau.get (Tableau.addRowToRow 1 0 2%float tb) i j
        = if decide (i = 0) then (Tableau.get tb 0 j + Tableau.get tb 1 j * 2)%float
          else Tableau.get tb i j)
  /\ (shaped (Tableau.scaleRow 0 2%float tb)
      /\ sameFrame tb (Tableau.scaleRow 0 2%float tb)
      /\ forall i j, cell tb i j ->
           Tableau.get (Tableau.scaleRow 0 2%float tb) i j
           = if decide (i = 0) then (Tableau.get tb i j / 2)%float
             else Tableau.get tb i j).
Proof.
  apply (row_operations_cells (LP.tableau Examples.test2_s0) 1 0 2%float);
    [closed_shape | vm_compute; split; congruence | vm_compute; split; congruence].
Defined.

(** X9.  elimination(i, j) on a well-shaped tableau with pivot cell (i, j)
    inside it: every other row gets exactly 0 in column j, row i is divided by
    the pivot a_ij (the pivot cell becomes a_ij / a_ij), every other cell (r,
    c) becomes a_rc + a_ic * (-a_rj / a_ij), and the dimensions and the basis
    are unchanged. *)
Theorem elimination_clears_the_pivot_column (tb : Tableau.t) (i j : Z) :
  shaped tb -> cell tb i j ->
  let aij := Tableau.get tb i j in
  let R := Tableau.elimination i j tb in
  shaped R /\ sameFrame tb R
  /\ (forall r, 0 <= r < Tableau.rows tb -> r <> i -> Tableau.get R r j = 0%float)
  /\ Tableau.get R i j = (aij / aij)%float
  /\ (forall c, 0 <= c < Tableau.cols tb ->
        Tableau.get R i c = (Tableau.get tb i c / aij)%float)
  /\ (forall r c, cell tb r c -> r <> i -> c <> j ->
        Tableau.get R r c
        = (Tableau.get tb r c + Tableau.get tb i c * (- Tableau.get tb r j / aij))%float).
Proof.
  intros Hs Hc. cbv zeta.
  destruct (elimination_cells tb i j Hs Hc) as (H1 & H2 & H3).
  pose proof Hc as [Hi Hj].
  split; [exact H1 | split; [exact H2 | split; [| split; [| split]]]].
  - intros r Hr Hne. rewrite H3 by (split; assumption).
    destruct (decide (r = i)); [congruence |].
    destruct (decide (j = j)); [reflexivity | congruence].
  - rewrite H3 by exact Hc. destruct (decide (i = i)); [reflexivity | congruence].
  - intros c Hcc. rewrite H3 by (split; assumption).
    destruct (decide (i = i)); [reflexivity | congruence].
  - intros r c Hrc Hne Hcj. rewrite H3 by exact Hrc.
    destruct (decide (r = i)); [congruence |].
    destruct (decide (c = j)); [congruence | reflexivity].
Qed.

Lemma elimination_clears_the_pivot_column_witness :
  let tb := LP.tableau Examples.test2_s0 in
  let aij := Tableau.get tb 1 0 in
  let R := Tableau.elimination 1 0 tb in
  shaped R /\ sameFrame tb R
  /\ (forall r, 0 <= r < Tableau.rows tb -> r <> 1 -> Tableau.get R r 0 = 0%float)
  /\ Tableau.get R 1 0 = (aij / aij)%float
  /\ (forall c, 0 <= c < Tableau.cols tb ->
        Tableau.get R 1 c = (Tableau.get tb 1 c / aij)%float)
  /\ (forall r c, cell tb r c -> r <> 1 -> c <> 0 ->
        Tableau.get R r c
        = (Tableau.get tb r c + Tableau.get tb 1 c * (- Tableau.get tb r 0 / aij))%float).
Proof.
  apply (elimination_clears_the_pivot_column (LP.tableau Examples.test2_s0) 1 0);
    closed_shape.
Defined.

(** X10.  With enableMatrixEliminationParallel set, elimination runs
    parallelArrayElimination instead of the scalar loops: on a well-shaped
    tableau with the pivot cell inside it the AVX version returns the same
    tableau as the scalar version, cell for cell as doubles. (The vector loop
    and the scalar tail cover every column of a row once, and a - b * (x / y)
    is the same double as a + b * (-x / y).) *)
Theorem parallel_elimination_agrees_with_scalar (tb : Tableau.t) (i j : Z) :
  shaped tb -> cell tb i j ->
  eliminationParallel i j tb = Tableau.elimination i j tb.
Proof.
  intros Hs Hc.
  destruct (eliminationParallel_cells tb i j Hs Hc) as (P1 & P2 & P3).
  destruct (elimination_cells tb i j Hs Hc) as (S1 & S2 & S3).
  apply shaped_ext; [exact P1 | exact S1 | |].
  - destruct P2 as (Pa & Pb & Pc), S2 as (Sa & Sb & Sc). repeat split; congruence.
  - intros r c Hrc.
    assert (Hrc' : cell tb r c).
    { destruct P2 as (Pa & Pb & _), Hrc as [Hr Hcc]. rewrite Pa in Hr. rewrite Pb in Hcc.
      split; assumption. }
    rewrite P3, S3 by exact Hrc'.
    destruct (decide (r = i)); [reflexivity |].
    destruct (decide (c = j)); [reflexivity |].
    symmetry. apply add_mul_opp_div.
Qed.

Lemma parallel_elimination_agrees_with_scalar_witness :
  eliminationParallel 1 0 (LP.tableau Examples.test2_s0)
  = Tableau.elimination 1 0 (LP.tableau Examples.test2_s0).
Proof.
  apply (parallel_elimination_agrees_with_scalar (LP.tableau Examples.test2_s0) 1 0);
    closed_shape.
Defined.

(** * The ratio test *)

Lemma SFleb_ltb_trans (a b c : spec_float) :
  SFleb a b = true -> SFltb b c = true -> SFltb a c = true.
Proof.
  unfold SFleb, SFltb.
  destruct a as [sa | sa | | sa ma ea], b as [sb | sb | | sb mb eb],
           c as [sc | sc | | sc mc ec]; cbn; try congruence; sf_cases; cmp_cases.
Qed.

Lemma leb_ltb_trans (a b c : float) :
  (a <=? b)%float = true -> (b <? c)%float = true -> (a <? c)%float = true.
Proof. rewrite leb_spec, !ltb_spec. apply SFleb_ltb_trans. Qed.

Lemma ltb_irrefl (a : float) : (a <? a)%float = false.
Proof.
  destruct (a <? a)%float eqn:E; [| reflexivity].
  rewrite (ltb_asym _ _ E) in E. discriminate E.
Qed.

Lemma minRatioStep_inv (tb : Tableau.t) (j k : Z) (st : float * Z) :
  1 <= k < 2 ^ 31 ->
  minRatioInv tb j k st -> minRatioInv tb j (k + 1) (LP.minRatioStep tb j st k).
Proof.
  intros Hk [Hst Hall]. unfold LP.minRatioStep.
  destruct (FOP.isPos (Tableau.get tb k j)) eqn:Hpos.
  - fold (ratio tb j k). cbv zeta.
    destruct (ratio tb j k <? st.1)%float eqn:Hlt.
    + rewrite i32_small by lia. unfold minRatioInv. cbn [fst snd]. split.
      * right. split; [lia | split; [exact Hpos | split; [reflexivity | split]]].
        -- destruct Hst as [[_ E] | (_ & _ & _ & E & _)].
           ++ rewrite <- E. exact Hlt.
           ++ exact (ltb_trans _ _ _ Hlt E).
        -- intros i Hi Hp.
           destruct (ratio tb j i <=? ratio tb j k)%float eqn:Hle; [| reflexivity].
           pose proof (leb_ltb_trans _ _ _ Hle Hlt) as H3.
           rewrite (Hall i ltac:(lia) Hp) in H3. discriminate H3.
      * intros i Hi Hp.
        destruct (decide (i = k)) as [-> | Hne]; [apply ltb_irrefl |].
        destruct (ratio tb j i <? ratio tb j k)%float eqn:H2; [| reflexivity].
        pose proof (ltb_trans _ _ _ H2 Hlt) as H3.
        rewrite (Hall i ltac:(lia) Hp) in H3. discriminate H3.
    + split.
      * destruct Hst as [H | (H1 & H2)]; [left; exact H | right; split; [lia | exact H2]].
      * intros i Hi Hp.
        destruct (decide (i = k)) as [-> | Hne]; [exact Hlt | apply Hall; [lia | exact Hp]].
  - split.
    + destruct Hst as [H | (H1 & H2)]; [left; exact H | right; split; [lia | exact H2]].
    + intros i Hi Hp.
      destruct (decide (i = k)) as [-> | Hne]; [congruence | apply Hall; [lia | exact Hp]].
Qed.

Lemma minRatio_fold_inv (tb : Tableau.t) (j : Z) (n : nat) :
  1 + Z.of_nat n <= 2 ^ 31 ->
  minRatioInv tb j (1 + Z.of_nat n)
    (foldl (LP.minRatioStep tb j) (1e300%float, -1) (range 1 (1 + Z.of_nat n))).
Proof.
  induction n as [|n IH]; intros Hn.
  - change (range 1 (1 + Z.of_nat 0)) with (@nil Z). cbn [foldl].
    split; [left; split; reflexivity | intros i Hi; lia].
  - replace (1 + Z.of_nat (S n)) with (1 + Z.of_nat n + 1) by lia.
    rewrite range_snoc by lia. rewrite foldl_app. cbn [foldl].
    apply minRatioStep_inv; [lia | apply IH; lia].
Qed.

(** X11.  findMinPosRatioRowIndex(j) returns -1 exactly when no row i >= 1
    with an entry >= EPS in column j has a ratio (right side over entry) below
    1e300. Otherwise it returns the first row of the least ratio: a row r >= 1
    with an entry >= EPS in column j and a ratio below 1e300 such that no such
    row has a smaller ratio and no earlier such row has a ratio as small. *)
Theorem findMinPosRatioRowIndex_least_ratio (j : Z) (lp : LP.t) :
  let tb := LP.tableau lp in
  let r := LP.findMinPosRatioRowIndex j lp in
  1 <= Tableau.rows tb <= 2 ^ 31 ->
  (r = -1
   /\ forall i, 1 <= i < Tableau.rows tb -> FOP.isPos (Tableau.get tb i j) = true ->
                (ratio tb j i <? 1e300)%float = false)
  \/ (1 <= r < Tableau.rows tb
      /\ FOP.isPos (Tableau.get tb r j) = true
      /\ (ratio tb j r <? 1e300)%float = true
      /\ (forall i, 1 <= i < Tableau.rows tb -> FOP.isPos (Tableau.get tb i j) = true ->
                    (ratio tb j i <? ratio tb j r)%float = false)
      /\ (forall i, 1 <= i < r -> FOP.isPos (Tableau.get tb i j) = true ->
                    (ratio tb j i <=? ratio tb j r)%float = false)).
Proof.
  cbv zeta. intros Hrows. unfold LP.findMinPosRatioRowIndex.
  pose proof (minRatio_fold_inv (LP.tableau lp) j
                (Z.to_nat (Tableau.rows (LP.tableau lp) - 1)) ltac:(lia)) as Hinv.
  replace (1 + Z.of_nat (Z.to_nat (Tableau.rows (LP.tableau lp) - 1)))
    with (Tableau.rows (LP.tableau lp)) in Hinv by lia.
  destruct (foldl _ _ _) as [m r]. destruct Hinv as [Hst Hall]. cbn [fst snd] in *.
  destruct Hst as [[-> ->] | (H1 & H2 & -> & H4 & H5)].
  - left. split; [reflexivity | exact Hall].
  - right. split; [exact H1 | split; [exact H2 | split; [exact H4 | split; assumption]]].
Qed.

Lemma findMinPosRatioRowIndex_least_ratio_witness :
  let lp := Examples.test2_s0 in
  let tb := LP.tableau lp in
  let j := 0 in
  let r := LP.findMinPosRatioRowIndex j lp in
  (r = -1
   /\ forall i, 1 <= i < Tableau.rows tb -> FOP.isPos (Tableau.get tb i j) = true ->
                (ratio tb j i <? 1e300)%float = false)
  \/ (1 <= r < Tableau.rows tb
      /\ FOP.isPos (Tableau.get tb r j) = true
      /\ (ratio tb j r <? 1e300)%float = true
      /\ (forall i, 1 <= i < Tableau.rows tb -> FOP.isPos (Tableau.get tb i j) = true ->
                    (ratio tb j i <? ratio tb j r)%float = false)
      /\ (forall i, 1 <= i < r -> FOP.isPos (Tableau.get tb i j) = true ->
                    (ratio tb j i <=? ratio tb j r)%float = false)).
Proof.
  apply (findMinPosRatioRowIndex_least_ratio 0 Examples.test2_s0).
  vm_compute. split; congruence.
Defined.

(** * The frame of the tableau *)

Lemma foldl_frame {X : Type} (f : Tableau.t -> X -> Tableau.t) (l : list X)
    (tb : Tableau.t) :
  (forall tb x, sameFrame tb (f tb x)) -> sameFrame tb (foldl f tb l).
Proof.
  intros Hf. revert tb. induction l as [|x l IH]; intros tb; [apply sameFrame_refl |].
  cbn [foldl]. exact (sameFrame_trans _ _ _ (Hf tb x) (IH _)).
Qed.

Lemma map_fold_frame (f : Z -> float -> Tableau.t -> Tableau.t) (m : gmap Z float)
    (tb : Tableau.t) :
  (forall k x tb, sameFrame tb (f k x tb)) -> sameFrame tb (map_fold f tb m).
Proof.
  intros Hf.
  apply (map_fold_weak_ind (fun r _ => sameFrame tb r)); [apply sameFrame_refl |].
  intros k x m' r _ Hr. exact (sameFrame_trans _ _ _ Hr (Hf k x r)).
Qed.

Lemma addRowToRow_frame (a r : Z) (s : float) (tb : Tableau.t) :
  sameFrame tb (Tableau.addRowToRow a r s tb).
Proof. unfold Tableau.addRowToRow. apply foldl_frame. intros. apply set_frame. Qed.

Lemma scaleRow_frame (r : Z) (s : float) (tb : Tableau.t) :
  sameFrame tb (Tableau.scaleRow r s tb).
Proof. unfold Tableau.scaleRow. apply foldl_frame. intros. apply set_frame. Qed.

Lemma elimination_frame (i j : Z) (tb : Tableau.t) :
  sameFrame tb (Tableau.elimination i j tb).
Proof.
  unfold Tableau.elimination.
  set (tb1 := foldl _ tb (range 0 (Tableau.rows tb))).
  set (tb2 := foldl _ tb1 (range 0 (Tableau.rows tb))).
  assert (H1 : sameFrame tb tb1).
  { apply foldl_frame. intros tb' k. destruct (bool_decide (k ≠ i));
      [apply addRowToRow_frame | apply sameFrame_refl]. }
  assert (H2 : sameFrame tb1 tb2).
  { apply foldl_frame. intros tb' k. destruct (bool_decide (k ≠ i));
      [apply set_frame | apply sameFrame_refl]. }
  exact (sameFrame_trans _ _ _ (sameFrame_trans _ _ _ H1 H2) (scaleRow_frame _ _ _)).
Qed.

Lemma sameDims_refl (tb : Tableau.t) : sameDims tb tb.
Proof. repeat split. Qed.

Lemma sameDims_trans (a b c : Tableau.t) :
  sameDims a b -> sameDims b c -> sameDims a c.
Proof. intros (?&?&?&?) (?&?&?&?). repeat split; congruence. Qed.

Lemma foldl_dims {X : Type} (f : Tableau.t -> X -> Tableau.t) (l : list X)
    (tb : Tableau.t) :
  (forall tb x, sameDims tb (f tb x)) -> sameDims tb (foldl f tb l).
Proof.
  intros Hf. revert tb. induction l as [|x l IH]; intros tb; [apply sameDims_refl |].
  cbn [foldl]. exact (sameDims_trans _ _ _ (Hf tb x) (IH _)).
Qed.

Lemma map_fold_dims (f : Z -> float -> Tableau.t -> Tableau.t) (m : gmap Z float)
    (tb : Tableau.t) :
  (forall k x tb, sameDims tb (f k x tb)) -> sameDims tb (map_fold f tb m).
Proof.
  intros Hf.
  apply (map_fold_weak_ind (fun r _ => sameDims tb r)); [apply sameDims_refl |].
  intros k x m' r _ Hr. exact (sameDims_trans _ _ _ Hr (Hf k x r)).
Qed.

Lemma set_dims (tb : Tableau.t) (i j : Z) (x : float) : sameDims tb (Tableau.set tb i j x).
Proof.
  unfold sameDims. cbn [Tableau.set Tableau.rows Tableau.cols Tableau.arr Tableau.baseVarIndexs].
  rewrite vset_length. auto.
Qed.

Lemma setBase_dims (tb : Tableau.t) (i b : Z) : sameDims tb (Tableau.setBase tb i b).
Proof.
  unfold sameDims.
  cbn [Tableau.setBase Tableau.rows Tableau.cols Tableau.arr Tableau.baseVarIndexs].
  rewrite vset_length. auto.
Qed.

Lemma addRowToRow_dims (a r : Z) (s : float) (tb : Tableau.t) :
  sameDims tb (Tableau.addRowToRow a r s tb).
Proof. unfold Tableau.addRowToRow. apply foldl_dims. intros. apply set_dims. Qed.

Lemma scaleRow_dims (r : Z) (s : float) (tb : Tableau.t) :
  sameDims tb (Tableau.scaleRow r s tb).
Proof. unfold Tableau.scaleRow. apply foldl_dims. intros. apply set_dims. Qed.

Lemma elimination_dims (i j : Z) (tb : Tableau.t) :
  sameDims tb (Tableau.elimination i j tb).
Proof.
  unfold Tableau.elimination.
  set (tb1 := foldl _ tb (range 0 (Tableau.rows tb))).
  set (tb2 := foldl _ tb1 (range 0 (Tableau.rows tb))).
  assert (H1 : sameDims tb tb1).
  { apply foldl_dims. intros tb' k. destruct (bool_decide (k ≠ i));
      [apply addRowToRow_dims | apply sameDims_refl]. }
  assert (H2 : sameDims tb1 tb2).
  { apply foldl_dims. intros tb' k. destruct (bool_decide (k ≠ i));
      [apply set_dims | apply sameDims_refl]. }
  exact (sameDims_trans _ _ _ (sameDims_trans _ _ _ H1 H2) (scaleRow_dims _ _ _)).
Qed.

Lemma pivot_dims (r c : Z) (lp : LP.t) :
  sameDims (LP.tableau lp) (LP.tableau (LP.pivot r c lp)).
Proof.
  unfold LP.pivot. cbn [LP.tableau LP.withTableau].
  exact (sameDims_trans _ _ _ (elimination_dims _ _ _) (setBase_dims _ _ _)).
Qed.

Lemma pivots_dims (lp lp' : LP.t) :
  pivots lp lp' -> sameDims (LP.tableau lp) (LP.tableau lp').
Proof.
  induction 1 as [lp | lp lp' Hj Hr Hp IH]; [apply sameDims_refl |].
  exact (sameDims_trans _ _ _ (pivot_dims _ _ _) IH).
Qed.

Lemma run_dims (fuel : nat) (lp lp' : LP.t) (b : bool) :
  LP.runMinSimplexMethod fuel lp = Some (b, lp') ->
  sameDims (LP.tableau lp) (LP.tableau lp').
Proof.
  intros H. apply runMinSimplexMethod_outcome in H.
  destruct H as (lpk & Hp & [(_ & _ & ->) | (_ & _ & ->)]);
    apply pivots_dims in Hp; exact Hp.
Qed.

Lemma addArtificialRows_dims (lp : LP.t) :
  sameDims (LP.tableau lp) (LP.tableau (LP.addArtificialRows lp)).
Proof.
  unfold LP.addArtificialRows. cbn [LP.tableau LP.withTableau].
  apply foldl_dims. intros tb i. destruct (Tableau.base tb i =? -1);
    [apply addRowToRow_dims | apply sameDims_refl].
Qed.

Lemma clearHead_dims (lp : LP.t) :
  sameDims (LP.tableau lp) (LP.tableau (LP.clearHead lp)).
Proof.
  unfold LP.clearHead. cbn [LP.tableau LP.withTableau].
  apply foldl_dims. intros. apply set_dims.
Qed.

Lemma checkInfeasible_dims (fuel : nat) (lp lp' : LP.t) (b : bool) :
  LP.checkInfeasible fuel lp = Some (b, lp') ->
  sameDims (LP.tableau lp) (LP.tableau lp').
Proof.
  intros H. apply checkInfeasible_outcome in H.
  destruct H as [(_ & _ & ->) | (_ & lpr & Hr & ->)]; [apply sameDims_refl |].
  apply run_dims in Hr.
  pose proof (sameDims_trans _ _ _ (addArtificialRows_dims lp) Hr) as H1.
  destruct b; [exact (sameDims_trans _ _ _ H1 (clearHead_dims _)) | exact H1].
Qed.

Lemma phase2Start_dims (lp : LP.t) :
  sameDims (LP.tableau lp) (LP.tableau (LP.phase2Start lp)).
Proof.
  unfold LP.phase2Start, LP.handleNonZeroHead, LP.insertObjFuncToTableau.
  cbn [LP.tableau LP.withTableau].
  set (tb1 := map_fold _ (LP.tableau lp) _).
  assert (H1 : sameDims (LP.tableau lp) tb1)
    by (apply map_fold_dims; intros; apply set_dims).
  apply (sameDims_trans _ _ _ H1).
  apply foldl_dims. intros tb i.
  destruct (negb (FOP.isZero _)); [apply addRowToRow_dims | apply sameDims_refl].
Qed.

Lemma setTableauRow_dims (st : Tableau.t * Z * Z) (con : Constraint.t) :
  sameDims st.1.1 (LP.setTableauRow st con).1.1.
Proof.
  destruct st as [[tb r] s]. unfold LP.setTableauRow. cbn [fst].
  set (tb1 := map_fold _ tb (Constraint.getTerms con)).
  assert (H1 : sameDims tb tb1) by (apply map_fold_dims; intros; apply set_dims).
  destruct (Constraint.haveSlackVar con);
    repeat (eapply sameDims_trans; [| first [apply setBase_dims | apply set_dims]]);
    exact H1.
Qed.

Lemma insertConToTableau_dims (lp : LP.t) :
  sameDims (LP.tableau lp) (LP.tableau (LP.insertConToTableau lp)).
Proof.
  unfold LP.insertConToTableau. cbn [LP.tableau LP.withTableau].
  assert (H : forall l st, sameDims st.1.1 (foldl LP.setTableauRow st l).1.1).
  { induction l as [|c l IH]; intros st; [apply sameDims_refl |].
    cbn [foldl]. exact (sameDims_trans _ _ _ (setTableauRow_dims st c) (IH _)). }
  eapply sameDims_trans; [| apply H]. apply (H _ (LP.tableau lp, 1, _)).
Qed.

Lemma new_dims (fuel : nat) (isMin : bool) (obj : Linearform.t)
    (cons : list Constraint.t) (vr : list (float * float)) (lp : LP.t) :
  LP.new fuel isMin obj cons vr = Some lp ->
  sameDims (LP.tableau (LP.construct isMin obj cons vr)) (LP.tableau lp).
Proof.
  intros Hnew.
  destruct (new_inv _ _ _ _ _ _ Hnew)
    as [(lpr & _ & Hr & ->) | [(lp2 & lp4 & Hc & Hr & ->) | (lp2 & lp4 & Hc & Hr & ->)]].
  - apply run_dims in Hr.
    exact (sameDims_trans _ _ _ (addArtificialRows_dims _) Hr).
  - apply checkInfeasible_dims in Hc. apply run_dims in Hr.
    exact (sameDims_trans _ _ _ Hc (sameDims_trans _ _ _ (phase2Start_dims _) Hr)).
  - apply checkInfeasible_dims in Hc. apply run_dims in Hr.
    exact (sameDims_trans _ _ _ Hc (sameDims_trans _ _ _ (phase2Start_dims _) Hr)).
Qed.

(** X12.  Whatever the constructor of LP does after initTableau, the tableau
    it returns with has the dimensions initTableau chose: rows = 1 + the
    number of constraints + the number of range constraints and cols =
    varCount + the number of slack variables + 1, both as computed in
    uint32_t. The array has rows * cols (mod 2^32) cells and the basis vector
    rows entries, so the array is as long as the dimensions say when rows *
    cols < 2^32. *)
Theorem tableau_dimensions_are_fixed (fuel : nat) (isMin : bool) (obj : Linearform.t)
    (cons : list Constraint.t) (vr : list (float * float)) (lp : LP.t) :
  LP.new fuel isMin obj cons vr = Some lp ->
  let tb := LP.tableau lp in
  let rc := (foldl LP.varRangeStep ([], 0) vr).1 in
  let rows := u32 (1 + Z.of_nat (length cons) + Z.of_nat (length rc)) in
  let cols := u32 (u32 (Z.of_nat (length vr))
                   + u32 (LP.slackVarCount cons + LP.slackVarCount rc) + 1) in
  Tableau.rows tb = rows /\ Tableau.cols tb = cols
  /\ Z.of_nat (length (Tableau.arr tb)) = u32 (rows * cols)
  /\ Z.of_nat (length (Tableau.baseVarIndexs tb)) = rows
  /\ (rows * cols < 2 ^ 32 -> shaped tb).
Proof.
  intros Hnew. cbv zeta.
  destruct (new_dims _ _ _ _ _ _ Hnew) as (Hr & Hc & Ha & Hb).
  assert (H0 : sameDims (LP.tableau (LP.initTableau
                 (LP.mk (Tableau.mk [] 0 0 []) isMin obj cons
                        (u32 (Z.of_nat (length vr)))
                        (foldl LP.varRangeStep ([], 0) vr).1 None [] [] None)))
                 (LP.tableau (LP.construct isMin obj cons vr)))
    by apply insertConToTableau_dims.
  destruct H0 as (Hr0 & Hc0 & Ha0 & Hb0).
  unfold LP.initTableau, Tableau.init in Hr0, Hc0, Ha0, Hb0.
  cbn [LP.tableau LP.withTableau LP.multiCon LP.varRangeMultiCon LP.varCount
       Tableau.init Tableau.rows Tableau.cols Tableau.arr Tableau.baseVarIndexs]
    in Hr0, Hc0, Ha0, Hb0.
  rewrite length_replicate in Ha0. rewrite length_replicate in Hb0.
  rewrite Hr, Hc, Ha, Hb, Hr0, Hc0, Ha0, Hb0.
  set (rows := u32 _). set (cols := u32 (_ + _ + 1)).
  pose proof (u32_bounds (rows * cols)).
  assert (0 <= rows) by (subst rows; apply u32_bounds).
  assert (0 <= cols) by (subst cols; apply u32_bounds).
  split; [reflexivity | split; [reflexivity | split; [lia | split; [lia |]]]].
  intros Hlt. unfold shaped. rewrite Hr, Hc, Ha, Hr0, Hc0, Ha0.
  fold rows cols. rewrite u32_small by nia.
  split; [lia | split; [lia | split; [lia | lia]]].
Qed.

Lemma tableau_dimensions_are_fixed_witness :
  exists lp,
    LP.new 5 false Examples.test0_obj Examples.test0_con Examples.nonneg2 = Some lp
    /\ Tableau.rows (LP.tableau lp) = 4 /\ Tableau.cols (LP.tableau lp) = 6
    /\ Z.of_nat (length (Tableau.arr (LP.tableau lp))) = 24
    /\ shaped (LP.tableau lp).
Proof.
  destruct (LP.new 5 false Examples.test0_obj Examples.test0_con Examples.nonneg2)
    as [lp |] eqn:E; [| vm_compute in E; discriminate E].
  exists lp. split; [reflexivity |].
  destruct (tableau_dimensions_are_fixed _ _ _ _ _ _ E) as (H1 & H2 & H3 & H4 & H5).
  split; [rewrite H1; vm_compute; reflexivity |].
  split; [rewrite H2; vm_compute; reflexivity |].
  split; [rewrite H3; vm_compute; reflexivity |].
  apply H5. vm_compute. reflexivity.
Defined.

(** * No artificial basis *)

Lemma isArt_frame (lp lp' : LP.t) :
  sameFrame (LP.tableau lp) (LP.tableau lp') ->
  LP.isTableauHaveArtificialVar lp' = LP.isTableauHaveArtificialVar lp.
Proof.
  intros (Hr & _ & Hb). unfold LP.isTableauHaveArtificialVar, Tableau.base.
  rewrite Hr, Hb. reflexivity.
Qed.

Lemma vget_vset_cases {A : Type} (d : A) (v : list A) (k i : Z) (x : A) :
  vget d (vset v k x) i = x \/ vget d (vset v k x) i = vget d v i.
Proof.
  unfold vget, vset.
  destruct (decide (Z.to_nat k = Z.to_nat i)) as [E | Hne].
  - destruct (decide (Z.to_nat k < length v)%nat) as [Hlt | Hge].
    + left. rewrite E in *. rewrite list_lookup_insert_eq by exact Hlt. reflexivity.
    + right. rewrite list_insert_ge by lia. reflexivity.
  - right. rewrite list_lookup_insert_ne by exact Hne. reflexivity.
Qed.

Lemma pivot_noArt (r c : Z) (lp : LP.t) :
  c <> -1 ->
  LP.isTableauHaveArtificialVar lp = false ->
  LP.isTableauHaveArtificialVar (LP.pivot r c lp) = false.
Proof.
  intros Hc H. unfold LP.isTableauHaveArtificialVar in *.
  unfold LP.pivot. cbn [LP.tableau LP.withTableau].
  destruct (elimination_frame (u32 r) (u32 c) (LP.tableau lp)) as (Er & _ & Eb).
  cbn [Tableau.setBase Tableau.rows]. rewrite Er.
  apply not_true_is_false. intros Hex. apply existsb_exists in Hex.
  destruct Hex as (i & Hi & Hv).
  unfold Tableau.base, Tableau.setBase in Hv. cbn [Tableau.baseVarIndexs] in Hv.
  rewrite Eb in Hv.
  apply Z.eqb_eq in Hv.
  destruct (vget_vset_cases 0 (Tableau.baseVarIndexs (LP.tableau lp)) r i c) as [E | E];
    rewrite E in Hv; [congruence |].
  assert (Hex : existsb (fun i => Tableau.base (LP.tableau lp) i =? -1)
                        (range 1 (Tableau.rows (LP.tableau lp))) = true).
  { apply existsb_exists. exists i. split; [exact Hi |]. apply Z.eqb_eq. exact Hv. }
  rewrite Hex in H. discriminate H.
Qed.

Lemma pivots_noArt (lp lp' : LP.t) :
  pivots lp lp' ->
  LP.isTableauHaveArtificialVar lp = false ->
  LP.isTableauHaveArtificialVar lp' = false.
Proof.
  induction 1 as [lp | lp lp' Hj Hr Hp IH]; intros H; [exact H |].
  apply IH, pivot_noArt; assumption.
Qed.

Lemma clearHead_frame (lp : LP.t) :
  sameFrame (LP.tableau lp) (LP.tableau (LP.clearHead lp)).
Proof.
  unfold LP.clearHead. cbn [LP.tableau LP.withTableau].
  apply foldl_frame. intros. apply set_frame.
Qed.

Lemma phase2Start_frame (lp : LP.t) :
  sameFrame (LP.tableau lp) (LP.tableau (LP.phase2Start lp)).
Proof.
  unfold LP.phase2Start, LP.handleNonZeroHead, LP.insertObjFuncToTableau.
  cbn [LP.tableau LP.withTableau].
  set (tb1 := map_fold _ (LP.tableau lp) _).
  assert (H1 : sameFrame (LP.tableau lp) tb1)
    by (apply map_fold_frame; intros; apply set_frame).
  apply (sameFrame_trans _ _ _ H1).
  apply foldl_frame. intros tb i.
  destruct (negb (FOP.isZero _)); [apply addRowToRow_frame | apply sameFrame_refl].
Qed.

Lemma checkInfeasible_noArt (fuel : nat) (lp lp2 : LP.t) :
  LP.checkInfeasible fuel lp = Some (true, lp2) ->
  LP.isTableauHaveArtificialVar lp2 = false.
Proof.
  intros H. apply checkInfeasible_outcome in H.
  destruct H as [(Ha & _ & ->) | (_ & lpr & Hr & ->)]; [exact Ha |].
  apply runMinSimplexMethod_outcome in Hr.
  destruct Hr as (lpk & Hp & [(_ & Hb & ->) | (_ & Hb & _)]); [| discriminate Hb].
  rewrite (isArt_frame lpk _ (clearHead_frame lpk)).
  destruct (LP.isTableauHaveArtificialVar lpk); [discriminate Hb | reflexivity].
Qed.

(** What phase 2 leaves: an optimal tableau or an unbounded one. *)
Lemma phase2_outcome (fuel fuel2 : nat) (lp1 lp2 lp4 : LP.t) (b : bool) :
  LP.checkInfeasible fuel lp1 = Some (true, lp2) ->
  LP.runMinSimplexMethod fuel2 (LP.phase2Start lp2) = Some (b, lp4) ->
  (b = true /\ pivots (LP.phase2Start lp2) lp4
   /\ LP.findNewBaseVarIndex lp4 = -1
   /\ LP.isTableauHaveArtificialVar lp4 = false)
  \/ (b = false
      /\ exists lpk, pivots (LP.phase2Start lp2) lpk /\ ratioTestFails lpk
                     /\ lp4 = LP.handleUnbound (u32 (LP.findNewBaseVarIndex lpk)) lpk).
Proof.
  intros Hc Hr.
  pose proof (checkInfeasible_noArt _ _ _ Hc) as Hn.
  rewrite <- (isArt_frame lp2 _ (phase2Start_frame lp2)) in Hn.
  apply runMinSimplexMethod_outcome in Hr.
  destruct Hr as (lpk & Hp & [(Hj & Hb & ->) | (Hf & Hb & ->)]).
  - pose proof (pivots_noArt _ _ Hp Hn) as Hn'. rewrite Hn' in Hb. cbn [negb] in Hb.
    left. repeat split; assumption.
  - right. split; [exact Hb |]. exists lpk. repeat split; try assumption; apply Hf.
Qed.

Lemma new_result (fuel : nat) (isMin : bool) (obj : Linearform.t)
    (cons : list Constraint.t) (vr : list (float * float)) (lp : LP.t) :
  LP.new fuel isMin obj cons vr = Some lp ->
  exists (ty : LP.Type_) (ext : float),
    LP.solutionType lp = Some ty /\ LP.extremum lp = Some ext
    /\ match ty with
       | LP.INFEASIBLE => ext = FP64_NAN
       | LP.UNBOUNDED => ext = if isMin then neg_infinity else infinity
       | LP.BOUNDED =>
           ext = (Tableau.get (LP.tableau lp) 0 (LP.lastCol (LP.tableau lp))
                  * LP.sign isMin)%float
       end.
Proof.
  intros Hnew.
  destruct (new_inv _ _ _ _ _ _ Hnew)
    as [(lpr & _ & _ & ->) | [(lp2 & lp4 & Hc & Hr & ->) | (lp2 & lp4 & Hc & Hr & ->)]].
  - exists LP.INFEASIBLE, FP64_NAN. repeat split.
  - exists LP.BOUNDED. eexists. split; [reflexivity | split; [reflexivity |]].
    cbn [LP.handleBound LP.tableau LP.withResult].
    pose proof (checkInfeasible_true_withTableau _ _ _ Hc) as E2.
    destruct (phase2_outcome _ _ _ _ _ _ Hc Hr) as [(_ & Hp & _) | (Hb & _)];
      [| discriminate Hb].
    apply pivots_withTableau in Hp.
    replace (LP.isMin lp4) with isMin; [reflexivity |].
    rewrite Hp. cbn [LP.isMin LP.withTableau LP.phase2Start LP.handleNonZeroHead
                     LP.insertObjFuncToTableau].
    rewrite E2. reflexivity.
  - destruct (phase2_outcome _ _ _ _ _ _ Hc Hr) as [(Hb & _) | (_ & lpk & Hp & _ & ->)];
      [discriminate Hb |].
    exists LP.UNBOUNDED. eexists. split; [reflexivity | split; [reflexivity |]].
    pose proof (checkInfeasible_true_withTableau _ _ _ Hc) as E2.
    apply pivots_withTableau in Hp.
    replace (LP.isMin lpk) with isMin; [reflexivity |].
    rewrite Hp. cbn [LP.isMin LP.withTableau LP.phase2Start LP.handleNonZeroHead
                     LP.insertObjFuncToTableau].
    rewrite E2. reflexivity.
Qed.

Lemma Node_new_None (fuel : nat) (obj : Linearform.t) (cons : list Constraint.t)
    (vr : list (float * float)) :
  Node.new fuel obj cons vr = None <-> LP.new fuel true obj cons vr = None.
Proof.
  unfold Node.new. split.
  - destruct (LP.new fuel true obj cons vr) as [lp |] eqn:E; [| reflexivity].
    destruct (new_result _ _ _ _ _ _ E) as (ty & ext & Ht & Hx & _).
    cbn [mbind option_bind]. rewrite Ht. cbn [mbind option_bind].
    rewrite Hx. cbn [mbind option_bind]. discriminate.
  - intros ->. reflexivity.
Qed.

(** X13.  Whenever the constructor of LP returns, solutionType and extremum
    have been assigned (INFEASIBLE with NaN, UNBOUNDED with -inf for min and
    +inf for max, or BOUNDED with tableau(0, cols - 1) * (isMin ? 1 : -1)):
    the path of the code that would leave them unassigned, the phase-2 driver
    ending on a basis with an artificial variable, is never taken. The
    constructor of a Node returns exactly when the constructor of its LP does. *)
Theorem new_assigns_type_and_extremum :
  (forall (fuel : nat) (isMin : bool) (obj : Linearform.t) (cons : list Constraint.t)
          (vr : list (float * float)) (lp : LP.t),
      LP.new fuel isMin obj cons vr = Some lp ->
      exists (ty : LP.Type_) (ext : float),
        LP.solutionType lp = Some ty /\ LP.extremum lp = Some ext
        /\ match ty with
           | LP.INFEASIBLE => ext = FP64_NAN
           | LP.UNBOUNDED => ext = if isMin then neg_infinity else infinity
           | LP.BOUNDED =>
               ext = (Tableau.get (LP.tableau lp) 0 (LP.lastCol (LP.tableau lp))
                      * LP.sign isMin)%float
           end)
  /\ (forall (fuel : nat) (obj : Linearform.t) (cons : list Constraint.t)
             (vr : list (float * float)),
        Node.new fuel obj cons vr = None <-> LP.new fuel true obj cons vr = None).
Proof. split; [exact new_result | exact Node_new_None]. Qed.

Lemma phase2_lp (fuel : nat) (isMin : bool) (obj : Linearform.t)
    (cons : list Constraint.t) (vr : list (float * float)) (lp2 lpk : LP.t) :
  LP.checkInfeasible fuel (LP.construct isMin obj cons vr) = Some (true, lp2) ->
  pivots (LP.phase2Start lp2) lpk ->
  lpk = LP.withTableau (LP.construct isMin obj cons vr) (LP.tableau lpk).
Proof.
  intros Hc Hp.
  apply checkInfeasible_true_withTableau in Hc.
  apply pivots_withTableau in Hp. rewrite Hp, Hc. reflexivity.
Qed.

(** X14.  When the constructor of LP (with at least one variable) returns
    BOUNDED, the final tableau has no entering column and no artificial basis
    row, extremum is tableau(0, cols - 1) * (isMin ? 1 : -1),
    unboundedDirection is empty, and solution has varCount entries: 0 for a
    variable that is basic in no row, and for a basic variable the right side
    of the last row in which it is basic. *)
Theorem bounded_result_is_the_final_vertex (fuel : nat) (isMin : bool)
    (obj : Linearform.t) (cons : list Constraint.t) (vr : list (float * float))
    (lp : LP.t) :
  1 <= Z.of_nat (length vr) < 2 ^ 32 ->
  LP.new fuel isMin obj cons vr = Some lp ->
  LP.solutionType lp = Some LP.BOUNDED ->
  let tb := LP.tableau lp in
  let n := Z.of_nat (length vr) in
  LP.findNewBaseVarIndex lp = -1
  /\ LP.isTableauHaveArtificialVar lp = false
  /\ LP.extremum lp
     = Some (Tableau.get tb 0 (LP.lastCol tb) * (if isMin then 1 else -1))%float
  /\ LP.unboundedDirection lp = []
  /\ length (LP.solution lp) = length vr
  /\ (forall v, 0 <= v < n ->
        (forall i, 1 <= i < Tableau.rows tb -> u32 (Tableau.base tb i) <> v) ->
        vget 0%float (LP.solution lp) v = 0%float)
  /\ (forall v i, 0 <= v < n -> 1 <= i < Tableau.rows tb ->
        u32 (Tableau.base tb i) = v ->
        (forall i', i < i' < Tableau.rows tb -> u32 (Tableau.base tb i') <> v) ->
        vget 0%float (LP.solution lp) v = Tableau.get tb i (LP.lastCol tb)).
Proof.
  intros Hn Hnew Hty. cbv zeta.
  destruct (new_inv _ _ _ _ _ _ Hnew)
    as [(lpr & _ & _ & ->) | [(lp2 & lp4 & Hc & Hr & ->) | (lp2 & lp4 & Hc & Hr & ->)]].
  - discriminate Hty.
  - destruct (phase2_outcome _ _ _ _ _ _ Hc Hr) as [(_ & Hp & Hj & Ha) | (Hb & _)];
      [| discriminate Hb].
    pose proof (phase2_lp _ _ _ _ _ _ _ Hc Hp) as E4.
    assert (Hvc : LP.varCount lp4 = Z.of_nat (length vr)).
    { rewrite E4. change (u32 (Z.of_nat (length vr)) = Z.of_nat (length vr)).
      apply u32_small. lia. }
    assert (Hmin : LP.isMin lp4 = isMin) by (rewrite E4; reflexivity).
    assert (Hdir : LP.unboundedDirection lp4 = []) by (rewrite E4; reflexivity).
    split; [exact Hj | split; [exact Ha |]].
    unfold LP.handleBound.
    cbn [LP.extremum LP.unboundedDirection LP.solution LP.tableau LP.withResult].
    split; [rewrite Hmin; destruct isMin; reflexivity |].
    split; [exact Hdir |].
    change (LP.boundStep lp4)
      with (assignStep (fun i => u32 (Tableau.base (LP.tableau lp4) i))
              (fun i => Tableau.get (LP.tableau lp4) i (LP.lastCol (LP.tableau lp4)))
              (u32 (LP.varCount lp4 - 1))).
    rewrite Hvc.
    destruct (basic_vector_spec (LP.tableau lp4)
                (fun i => Tableau.get (LP.tableau lp4) i (LP.lastCol (LP.tableau lp4)))
                (Z.of_nat (length vr)) Hn) as (H1 & H2 & H3).
    split; [lia | split; [exact H2 | exact H3]].
  - destruct (phase2_outcome _ _ _ _ _ _ Hc Hr) as [(Hb & _) | (_ & lpk & _ & _ & ->)];
      [discriminate Hb | discriminate Hty].
Qed.

Lemma bounded_result_is_the_final_vertex_witness :
  exists lp,
    LP.new 5 false Examples.test0_obj Examples.test0_con Examples.nonneg2 = Some lp
    /\ LP.findNewBaseVarIndex lp = -1
    /\ LP.isTableauHaveArtificialVar lp = false
    /\ length (LP.solution lp) = 2%nat.
Proof.
  destruct (LP.new 5 false Examples.test0_obj Examples.test0_con Examples.nonneg2)
    as [lp |] eqn:E; [| vm_compute in E; discriminate E].
  exists lp. split; [reflexivity |].
  assert (Hty : LP.solutionType lp = Some LP.BOUNDED).
  { revert E. generalize lp. vm_compute. intros lp0 [= <-]. reflexivity. }
  destruct (bounded_result_is_the_final_vertex 5 false Examples.test0_obj
              Examples.test0_con Examples.nonneg2 lp
              ltac:(change (1 <= 2 < 2 ^ 32); lia) E Hty)
    as (H1 & H2 & _ & _ & H5 & _).
  split; [exact H1 | split; [exact H2 | exact H5]].
Defined.

(** * Problems without artificial variables *)

Lemma allBasic_frame (tb tb' : Tableau.t) :
  sameFrame tb tb' -> allBasic tb -> allBasic tb'.
Proof. intros (_ & _ & Hb) H i. unfold Tableau.base. rewrite Hb. apply H. Qed.

Lemma allBasic_setBase (tb : Tableau.t) (r b : Z) :
  b <> -1 -> allBasic tb -> allBasic (Tableau.setBase tb r b).
Proof.
  intros Hb H i. unfold Tableau.base, Tableau.setBase. cbn [Tableau.baseVarIndexs].
  destruct (vget_vset_cases 0 (Tableau.baseVarIndexs tb) r i b) as [E | E]; rewrite E;
    [exact Hb | apply H].
Qed.

Lemma allBasic_init (r c : Z) : allBasic (Tableau.init r c).
Proof.
  intros i. unfold Tableau.base, Tableau.init, vget. cbn [Tableau.baseVarIndexs].
  destruct (replicate (Z.to_nat r) 0 !! Z.to_nat i) as [x |] eqn:E.
  - change (x <> -1). apply lookup_replicate in E. destruct E as [-> _]. lia.
  - change (0 <> -1). lia.
Qed.

Lemma allBasic_noArt (lp : LP.t) :
  allBasic (LP.tableau lp) -> LP.isTableauHaveArtificialVar lp = false.
Proof.
  intros H. unfold LP.isTableauHaveArtificialVar.
  apply not_true_is_false. intros Hex. apply existsb_exists in Hex.
  destruct Hex as (i & _ & Hv). apply Z.eqb_eq in Hv. exact (H i Hv).
Qed.

Lemma u32_add_l (a b : Z) : u32 (u32 a + b) = u32 (a + b).
Proof. unfold u32. apply Zplus_mod_idemp_l. Qed.

Lemma setTableauRow_leq (n k : Z) (tb : Tableau.t) (r : Z) (con : Constraint.t) :
  Constraint.relation con = LEQ ->
  0 <= n + k < 2 ^ 31 ->
  allBasic tb ->
  let st' := LP.setTableauRow (tb, r, u32 (n - 1 + k)) con in
  allBasic st'.1.1 /\ st'.2 = u32 (n - 1 + (k + 1)).
Proof.
  intros Hrel Hb Hall. cbv zeta. unfold LP.setTableauRow.
  unfold Constraint.haveSlackVar, Constraint.haveArtificialVar. rewrite Hrel.
  rewrite (bool_decide_eq_true_2 (LEQ ≠ EQ)) by discriminate.
  rewrite (bool_decide_eq_false_2 (LEQ ≠ LEQ)) by (intros H; apply H; reflexivity).
  cbn [fst snd]. rewrite u32_add_l.
  replace (n - 1 + k + 1) with (n + k) by lia.
  replace (n - 1 + (k + 1)) with (n + k) by lia.
  split; [| reflexivity].
  apply allBasic_setBase.
  - rewrite u32_small by lia. rewrite i32_small by lia. lia.
  - eapply allBasic_frame; [| exact Hall].
    eapply sameFrame_trans; [| apply set_frame].
    eapply sameFrame_trans; [| apply set_frame].
    apply map_fold_frame. intros. apply set_frame.
Qed.

Lemma setTableauRows_leq (n : Z) (cons : list Constraint.t) (k : Z) (tb : Tableau.t)
    (r : Z) :
  Forall (fun c => Constraint.relation c = LEQ) cons ->
  0 <= k -> 0 <= n -> n + k + Z.of_nat (length cons) < 2 ^ 31 ->
  allBasic tb ->
  let st' := foldl LP.setTableauRow (tb, r, u32 (n - 1 + k)) cons in
  allBasic st'.1.1 /\ st'.2 = u32 (n - 1 + (k + Z.of_nat (length cons))).
Proof.
  revert k tb r. induction cons as [|c cons IH]; intros k tb r Hf Hk Hn Hb Hall.
  - cbn [foldl length fst snd]. split; [exact Hall |]. f_equal. lia.
  - cbn [foldl length] in *. cbv zeta.
    apply Forall_cons in Hf. destruct Hf as [Hc Hf].
    destruct (setTableauRow_leq n k tb r c Hc ltac:(lia) Hall) as [H1 H2].
    destruct (LP.setTableauRow (tb, r, u32 (n - 1 + k)) c) as [[tb1 r1] s1].
    cbn [fst snd] in H1, H2. subst s1.
    destruct (IH (k + 1) tb1 r1 Hf ltac:(lia) Hn ltac:(lia) H1) as [H3 H4].
    split; [exact H3 |]. rewrite H4. f_equal. lia.
Qed.

(** The constraints of variable ranges whose lower bounds are not positive. *)
Lemma varRange_leq (vr : list (float * float)) (acc : list Constraint.t) (i : Z) :
  Forall (fun r => (0 <? r.1)%float = false) vr ->
  Forall (fun c => Constraint.relation c = LEQ) acc ->
  let rc := (foldl LP.varRangeStep (acc, i) vr).1 in
  Forall (fun c => Constraint.relation c = LEQ) rc
  /\ (length rc <= length acc + length vr)%nat.
Proof.
  revert acc i. induction vr as [|[lo hi] vr IH]; intros acc i Hvr Hacc.
  - cbn [foldl fst length]. split; [exact Hacc | lia].
  - cbn [foldl]. apply Forall_cons in Hvr. destruct Hvr as [Hlo Hvr]. cbn [fst] in Hlo.
    assert (E : LP.varRangeStep (acc, i) (lo, hi)
                = (if negb (is_infinity hi)
                   then acc ++ [Constraint.leq hi (Constraint.add 1 i Constraint.new)]
                   else acc, u32 (i + 1))).
    { unfold LP.varRangeStep. cbn [fst snd]. rewrite Hlo. reflexivity. }
    rewrite E. cbv zeta. cbn [length].
    destruct (negb (is_infinity hi)).
    + destruct (IH (acc ++ [Constraint.leq hi (Constraint.add 1 i Constraint.new)])
                  (u32 (i + 1)) Hvr) as [H1 H2].
      { apply Forall_app. split; [exact Hacc |]. constructor; [reflexivity | constructor]. }
      split; [exact H1 |]. rewrite length_app in H2. cbn [length] in H2. lia.
    + destruct (IH acc (u32 (i + 1)) Hvr Hacc) as [H1 H2].
      split; [exact H1 |]. lia.
Qed.

Lemma construct_allBasic (isMin : bool) (obj : Linearform.t)
    (cons : list Constraint.t) (vr : list (float * float)) :
  Forall (fun c => Constraint.relation c = LEQ) cons ->
  Forall (fun r => (0 <? r.1)%float = false) vr ->
  2 * Z.of_nat (length vr) + Z.of_nat (length cons) < 2 ^ 31 ->
  allBasic (LP.tableau (LP.construct isMin obj cons vr)).
Proof.
  intros Hc Hvr Hb.
  destruct (varRange_leq vr [] 0 Hvr ltac:(constructor)) as [Hrc Hlen].
  cbn [length] in Hlen.
  unfold LP.construct, LP.insertConToTableau.
  cbn [LP.tableau LP.withTableau LP.initTableau LP.multiCon LP.varRangeMultiCon LP.varCount].
  set (rc := (foldl LP.varRangeStep ([], 0) vr).1) in *.
  set (tb0 := Tableau.init _ _).
  assert (Hn : u32 (Z.of_nat (length vr)) = Z.of_nat (length vr)) by (apply u32_small; lia).
  rewrite Hn.
  replace (Z.of_nat (length vr) - 1) with (Z.of_nat (length vr) - 1 + 0) by lia.
  destruct (setTableauRows_leq (Z.of_nat (length vr)) cons 0 tb0 1 Hc
              ltac:(lia) ltac:(lia) ltac:(lia) (allBasic_init _ _)) as [H1 H2].
  destruct (foldl LP.setTableauRow (tb0, 1, _) cons) as [[tb1 r1] s1].
  cbn [fst snd] in H1, H2. subst s1.
  destruct (setTableauRows_leq (Z.of_nat (length vr)) rc (0 + Z.of_nat (length cons))
              tb1 r1 Hrc ltac:(lia) ltac:(lia) ltac:(lia) H1) as [H3 _].
  exact H3.
Qed.

(** X15.  If every constraint given to the LP is a <= constraint and no
    variable has a positive lower bound, the tableau has no artificial basis
    row and checkInfeasible returns true at once and leaves the object as it
    is. The constructor then ends with BOUNDED or UNBOUNDED, never with
    INFEASIBLE, whatever the signs of the right constants, which the LP does
    not normalise. *)
Theorem leq_problem_is_never_infeasible (fuel : nat) (isMin : bool)
    (obj : Linearform.t) (cons : list Constraint.t) (vr : list (float * float)) :
  Forall (fun c => Constraint.relation c = LEQ) cons ->
  Forall (fun r => (0 <? r.1)%float = false) vr ->
  2 * Z.of_nat (length vr) + Z.of_nat (length cons) < 2 ^ 31 ->
  let lp1 := LP.construct isMin obj cons vr in
  LP.isTableauHaveArtificialVar lp1 = false
  /\ LP.checkInfeasible fuel lp1 = Some (true, lp1)
  /\ forall lp, LP.new fuel isMin obj cons vr = Some lp ->
                LP.solutionType lp = Some LP.BOUNDED
                \/ LP.solutionType lp = Some LP.UNBOUNDED.
Proof.
  intros Hc Hvr Hb. cbv zeta.
  pose proof (allBasic_noArt _ (construct_allBasic isMin obj cons vr Hc Hvr Hb)) as Ha.
  assert (Hci : LP.checkInfeasible fuel (LP.construct isMin obj cons vr)
                = Some (true, LP.construct isMin obj cons vr)).
  { unfold LP.checkInfeasible. rewrite Ha. reflexivity. }
  split; [exact Ha | split; [exact Hci |]].
  intros lp Hnew.
  destruct (new_inv _ _ _ _ _ _ Hnew)
    as [(lpr & Ha' & _) | [(lp2 & lp4 & _ & _ & ->) | (lp2 & lp4 & Hc2 & Hr & ->)]].
  - rewrite Ha in Ha'. discriminate Ha'.
  - left. reflexivity.
  - destruct (phase2_outcome _ _ _ _ _ _ Hc2 Hr) as [(Hb' & _) | (_ & lpk & _ & _ & ->)];
      [discriminate Hb' | right; reflexivity].
Qed.

Lemma leq_problem_is_never_infeasible_witness :
  let lp1 := LP.construct false Examples.test2_obj Examples.test2_con Examples.nonneg2 in
  LP.isTableauHaveArtificialVar lp1 = false
  /\ LP.checkInfeasible 5 lp1 = Some (true, lp1)
  /\ forall lp, LP.new 5 false Examples.test2_obj Examples.test2_con Examples.nonneg2
                = Some lp ->
                LP.solutionType lp = Some LP.BOUNDED
                \/ LP.solutionType lp = Some LP.UNBOUNDED.
Proof.
  apply (leq_problem_is_never_infeasible 5 false Examples.test2_obj Examples.test2_con
           Examples.nonneg2).
  - repeat constructor.
  - repeat constructor.
  - vm_compute. reflexivity.
Defined.

(** * The pivot of the driver *)

Lemma findNewBaseVarIndex_range (lp : LP.t) :
  2 <= Tableau.cols (LP.tableau lp) <= 2 ^ 31 ->
  LP.findNewBaseVarIndex lp <> -1 ->
  0 <= LP.findNewBaseVarIndex lp < Tableau.cols (LP.tableau lp) - 1
  /\ FOP.isPos (Tableau.get (LP.tableau lp) 0 (LP.findNewBaseVarIndex lp)) = true.
Proof.
  intros Hc Hne. unfold LP.findNewBaseVarIndex in *. cbv zeta in *.
  set (p := fun j => FOP.isPos (Tableau.get (LP.tableau lp) 0 j)) in *.
  rewrite u32_small in * by lia.
  destruct (firstFrom_spec p (Z.to_nat (Tableau.cols (LP.tableau lp) - 2 + 1)) 0
              ltac:(lia) ltac:(lia)) as [[E _] | (H1 & H2 & _)]; [contradiction |].
  split; [lia | exact H2].
Qed.

Lemma findMinPosRatioRowIndex_range (j : Z) (lp : LP.t) :
  1 <= Tableau.rows (LP.tableau lp) <= 2 ^ 31 ->
  LP.findMinPosRatioRowIndex j lp <> -1 ->
  1 <= LP.findMinPosRatioRowIndex j lp < Tableau.rows (LP.tableau lp)
  /\ FOP.isPos (Tableau.get (LP.tableau lp) (LP.findMinPosRatioRowIndex j lp) j) = true.
Proof.
  intros Hrows Hne. unfold LP.findMinPosRatioRowIndex in *.
  pose proof (minRatio_fold_inv (LP.tableau lp) j
                (Z.to_nat (Tableau.rows (LP.tableau lp) - 1)) ltac:(lia)) as Hinv.
  replace (1 + Z.of_nat (Z.to_nat (Tableau.rows (LP.tableau lp) - 1)))
    with (Tableau.rows (LP.tableau lp)) in Hinv by lia.
  cbv zeta in *.
  destruct (foldl _ _ _) as [m r]. destruct Hinv as [Hst _]. cbn [fst snd] in *.
  destruct Hst as [[-> _] | (H1 & H2 & _)]; [contradiction | auto].
Qed.

(** X16.  When the driver finds an entering column c and a ratio row r on a
    well-shaped tableau of at most 2^31 rows and columns, then 1 <= r < rows
    and 0 <= c < cols - 1 (never row 0, never the right-side column), and the
    row-0 entry of c and the pivot entry are both >= EPS. After the pivot row
    r has basis c, the pivot cell is a_rc / a_rc, and every other row has
    exactly 0 in column c and keeps its basis. *)
Theorem driver_pivots_inside_the_tableau (lp : LP.t) :
  let tb := LP.tableau lp in
  let c := LP.findNewBaseVarIndex lp in
  let r := LP.findMinPosRatioRowIndex (u32 c) lp in
  let tb' := LP.tableau (LP.pivot r c lp) in
  shaped tb ->
  2 <= Tableau.cols tb <= 2 ^ 31 -> 1 <= Tableau.rows tb <= 2 ^ 31 ->
  Z.of_nat (length (Tableau.baseVarIndexs tb)) = Tableau.rows tb ->
  c <> -1 -> r <> -1 ->
  (1 <= r < Tableau.rows tb /\ 0 <= c < Tableau.cols tb - 1)
  /\ FOP.isPos (Tableau.get tb 0 c) = true
  /\ FOP.isPos (Tableau.get tb r c) = true
  /\ shaped tb'
  /\ Tableau.base tb' r = c
  /\ Tableau.get tb' r c = (Tableau.get tb r c / Tableau.get tb r c)%float
  /\ (forall i, 0 <= i < Tableau.rows tb -> i <> r ->
        Tableau.get tb' i c = 0%float /\ Tableau.base tb' i = Tableau.base tb i).
Proof.
  cbv zeta. intros Hs Hcols Hrows Hbase Hc Hr.
  destruct (findNewBaseVarIndex_range lp Hcols Hc) as [Hcr Hcp].
  set (c := LP.findNewBaseVarIndex lp) in *.
  assert (Ec : u32 c = c) by (apply u32_small; lia).
  rewrite Ec in *.
  destruct (findMinPosRatioRowIndex_range c lp Hrows Hr) as [Hrr Hrp].
  set (r := LP.findMinPosRatioRowIndex c lp) in *.
  assert (Er : u32 r = r) by (apply u32_small; lia).
  assert (Hcell : cell (LP.tableau lp) r c) by (split; lia).
  unfold LP.pivot. cbn [LP.tableau LP.withTableau]. rewrite Er, Ec.
  destruct (elimination_cells (LP.tableau lp) r c Hs Hcell) as (H1 & H2 & H3).
  set (tbe := Tableau.elimination r c (LP.tableau lp)) in *.
  split; [split; lia |].
  split; [exact Hcp | split; [exact Hrp |]].
  split; [exact H1 |].
  split.
  { unfold Tableau.base, Tableau.setBase. cbn [Tableau.baseVarIndexs].
    apply vget_vset_eq. destruct H2 as (_ & _ & ->). lia. }
  split.
  { change (Tableau.get (Tableau.setBase tbe r c) r c) with (Tableau.get tbe r c).
    rewrite H3 by exact Hcell. destruct (decide (r = r)); [reflexivity | congruence]. }
  intros i Hi Hne. split.
  - change (Tableau.get (Tableau.setBase tbe r c) i c) with (Tableau.get tbe i c).
    rewrite H3 by (split; lia).
    destruct (decide (i = r)); [congruence |].
    destruct (decide (c = c)); [reflexivity | congruence].
  - unfold Tableau.base, Tableau.setBase. cbn [Tableau.baseVarIndexs].
    destruct H2 as (_ & _ & ->). apply vget_vset_ne; lia.
Qed.

Lemma driver_pivots_inside_the_tableau_witness :
  let lp := Examples.test2_s0 in
  let tb := LP.tableau lp in
  let c := LP.findNewBaseVarIndex lp in
  let r := LP.findMinPosRatioRowIndex (u32 c) lp in
  let tb' := LP.tableau (LP.pivot r c lp) in
  (1 <= r < Tableau.rows tb /\ 0 <= c < Tableau.cols tb - 1)
  /\ FOP.isPos (Tableau.get tb 0 c) = true
  /\ FOP.isPos (Tableau.get tb r c) = true
  /\ shaped tb'
  /\ Tableau.base tb' r = c
  /\ Tableau.get tb' r c = (Tableau.get tb r c / Tableau.get tb r c)%float
  /\ (forall i, 0 <= i < Tableau.rows tb -> i <> r ->
        Tableau.get tb' i c = 0%float /\ Tableau.base tb' i = Tableau.base tb i).
Proof.
  apply (driver_pivots_inside_the_tableau Examples.test2_s0).
  - closed_shape.
  - vm_compute. split; congruence.
  - vm_compute. split; congruence.
  - vm_compute. reflexivity.
  - vm_compute. congruence.
  - vm_compute. congruence.
Defined.

(** * The loop of [solve] *)

Lemma sameProblem_refl (ip : IP.t) : sameProblem ip ip.
Proof. repeat split. Qed.

Lemma sameProblem_trans (a b c : IP.t) :
  sameProblem a b -> sameProblem b c -> sameProblem a c.
Proof. intros (?&?&?&?) (?&?&?&?). repeat split; congruence. Qed.

Lemma checkNode_sameProblem (node : Node.t) (ip : IP.t) :
  sameProblem ip (IP.checkNode node ip).
Proof.
  unfold IP.checkNode.
  destruct (_ && _); [repeat split |].
  destruct (_ && _); [repeat split |].
  destruct (bool_decide _); repeat split.
Qed.

Lemma solveSteps_sameProblem (ip ip' : IP.t) : solveSteps ip ip' -> sameProblem ip ip'.
Proof.
  induction 1 as [ip | node ip ip' _ IH | ip ip' _ IH].
  - apply sameProblem_refl.
  - exact (sameProblem_trans _ _ _ (checkNode_sameProblem node ip) IH).
  - exact (sameProblem_trans _ _ _ (sameProblem_refl _) IH).
Qed.

Lemma checkNode_count (node : Node.t) (ip : IP.t) :
  IP.nodeSolvedCount (IP.checkNode node ip) = u32 (IP.nodeSolvedCount ip + 1).
Proof.
  unfold IP.checkNode.
  destruct (_ && _); [reflexivity |].
  destruct (_ && _); [reflexivity |].
  destruct (bool_decide _); reflexivity.
Qed.

Lemma expand_count (fuel : nat) (ip ip' : IP.t) :
  IP.expand fuel ip = Some ip' ->
  IP.nodeSolvedCount ip' = u32 (IP.nodeSolvedCount ip + 2).
Proof.
  intros H. destruct (expand_pops_top _ _ _ H) as (node & l & r & _ & _ & _ & ->).
  rewrite !checkNode_count. cbn [IP.popNode IP.nodeSolvedCount].
  rewrite u32_add_l. f_equal. lia.
Qed.

Lemma iterations_count (fuel k : nat) (ip ip' : IP.t) :
  u32 (IP.nodeSolvedCount ip) = IP.nodeSolvedCount ip ->
  iterations fuel k ip = Some ip' ->
  IP.nodeSolvedCount ip' = u32 (IP.nodeSolvedCount ip + 2 * Z.of_nat k).
Proof.
  revert ip. induction k as [|k IH]; intros ip Hc H; cbn [iterations] in H.
  - injection H as <-. rewrite Z.add_0_r. symmetry. exact Hc.
  - destruct (IP.expand fuel ip) as [ip1 |] eqn:He; [| discriminate H].
    cbn [mbind option_bind] in H.
    pose proof (expand_count _ _ _ He) as H1.
    rewrite (IH ip1) by (try exact H; rewrite H1; unfold u32; apply Zmod_mod).
    rewrite H1, u32_add_l. f_equal. lia.
Qed.

Lemma loop_iterations (fuel n : nat) (ip ip' : IP.t) :
  IP.loop fuel n ip = Some ip' ->
  exists k, (k <= n)%nat /\ iterations fuel k ip = Some ip' /\ IP.continue ip' = false.
Proof.
  revert ip. induction n as [|n IH]; intros ip H; cbn [IP.loop] in H.
  - destruct (IP.continue ip) eqn:Hc; [discriminate H |].
    injection H as <-. exists 0%nat. split; [lia | split; [reflexivity | exact Hc]].
  - destruct (IP.continue ip) eqn:Hc.
    + destruct (IP.expand fuel ip) as [ip1 |] eqn:He; [| discriminate H].
      cbn [mbind option_bind] in H.
      destruct (IH _ H) as (k & Hk & Hi & Hs).
      exists (S k). split; [lia | split; [| exact Hs]].
      cbn [iterations]. rewrite He. exact Hi.
    + injection H as <-. exists 0%nat. split; [lia | split; [reflexivity | exact Hc]].
Qed.

Lemma init_inv (fuel : nat) (ip ip1 : IP.t) :
  IP.init fuel ip = Some ip1 ->
  exists root,
    Node.new fuel (if negb (IP.isMin ip) then Linearform.negate (IP.objFunc ip)
                   else IP.objFunc ip)
             (IP.multiCon ip)
             (replicate (Z.to_nat (VarBimap.getVarCount (IP.bimap ip))) (0%float, FP64_INF))
    = Some root
    /\ ip1 = IP.checkNode root
               (IP.mk (IP.isMin ip)
                      (if negb (IP.isMin ip) then Linearform.negate (IP.objFunc ip)
                       else IP.objFunc ip)
                      (IP.multiCon ip) (IP.bimap ip) (IP.nodeQueue ip)
                      (IP.objValueUpperBound ip) (IP.nodeSolvedCount ip)
                      (IP.solutionType ip) (IP.solution ip) (IP.extremum ip)).
Proof.
  unfold IP.init. intros H.
  destruct (Node.new fuel _ _ _) as [root |]; [| discriminate H].
  cbn [mbind option_bind] in H. injection H as <-. exists root. split; reflexivity.
Qed.

Lemma solve_inv (fuel : nat) (ip r : IP.t) :
  IP.solve fuel ip = Some r ->
  exists (k : nat) (ip1 ip2 : IP.t),
    IP.init fuel ip = Some ip1 /\ iterations fuel k ip1 = Some ip2
    /\ IP.continue ip2 = false /\ r = IP.finish ip2.
Proof.
  unfold IP.solve. intros H.
  destruct (IP.init fuel ip) as [ip1 |] eqn:Hi; [| discriminate H].
  cbn [mbind option_bind] in H.
  destruct (IP.loop fuel fuel ip1) as [ip2 |] eqn:Hl; [| discriminate H].
  cbn [mbind option_bind] in H. injection H as <-.
  destruct (loop_iterations _ _ _ _ Hl) as (k & _ & Hk & Hc).
  exists k, ip1, ip2. auto.
Qed.

(** X17.  A solve that returns ran init and then some number k of iterations
    of its loop, solving 1 + 2k LPs: nodeSolvedCount has grown by 1 + 2k (mod
    2^32). It stops only with an empty queue or with the status UNBOUNDED. *)
Theorem solve_counts_two_nodes_per_iteration (fuel : nat) (ip r : IP.t) :
  IP.solve fuel ip = Some r ->
  exists (k : nat) (ip1 ip2 : IP.t),
    IP.init fuel ip = Some ip1 /\ iterations fuel k ip1 = Some ip2
    /\ r = IP.finish ip2
    /\ IP.nodeSolvedCount r = u32 (IP.nodeSolvedCount ip + 1 + 2 * Z.of_nat k)
    /\ (IP.nodeQueue r = [] \/ IP.solutionType r = IP.UNBOUNDED).
Proof.
  intros H. destruct (solve_inv _ _ _ H) as (k & ip1 & ip2 & Hi & Hk & Hc & ->).
  exists k, ip1, ip2. split; [exact Hi | split; [exact Hk | split; [reflexivity |]]].
  change (IP.nodeSolvedCount (IP.finish ip2)) with (IP.nodeSolvedCount ip2).
  change (IP.nodeQueue (IP.finish ip2)) with (IP.nodeQueue ip2).
  change (IP.solutionType (IP.finish ip2)) with (IP.solutionType ip2).
  destruct (init_inv _ _ _ Hi) as (root & _ & E1).
  assert (Hc1 : IP.nodeSolvedCount ip1 = u32 (IP.nodeSolvedCount ip + 1)).
  { rewrite E1, checkNode_count. reflexivity. }
  split.
  - rewrite (iterations_count _ _ _ _ ltac:(rewrite Hc1; unfold u32; apply Zmod_mod) Hk).
    rewrite Hc1, u32_add_l. reflexivity.
  - unfold IP.continue in Hc. apply andb_false_iff in Hc. destruct Hc as [Hq | Ht].
    + left. apply Z.ltb_ge in Hq. destruct (IP.nodeQueue ip2); [reflexivity |].
      cbn [length] in Hq. lia.
    + right. apply bool_decide_eq_false in Ht.
      destruct (decide (IP.solutionType ip2 = IP.UNBOUNDED)); [assumption | contradiction].
Qed.

Lemma solve_counts_two_nodes_per_iteration_witness :
  exists r,
    IP.solve 5 small_ip = Some r
    /\ exists (k : nat) (ip1 ip2 : IP.t),
         IP.init 5 small_ip = Some ip1 /\ iterations 5 k ip1 = Some ip2
         /\ r = IP.finish ip2
         /\ IP.nodeSolvedCount r = u32 (IP.nodeSolvedCount small_ip + 1 + 2 * Z.of_nat k)
         /\ (IP.nodeQueue r = [] \/ IP.solutionType r = IP.UNBOUNDED).
Proof.
  destruct (IP.solve 5 small_ip) as [r |] eqn:E; [| vm_compute in E; discriminate E].
  exists r. split; [reflexivity |].
  exact (solve_counts_two_nodes_per_iteration 5 small_ip r E).
Defined.

(** The state of the search while no node was accepted as incumbent. *)
Lemma checkNode_noIncumbent (node : Node.t) (ip : IP.t) :
  (IP.solutionType ip = IP.INFEASIBLE ->
   IP.objValueUpperBound ip = FP64_INF /\ IP.solution ip = []) ->
  IP.solutionType (IP.checkNode node ip) = IP.INFEASIBLE ->
  IP.objValueUpperBound (IP.checkNode node ip) = FP64_INF
  /\ IP.solution (IP.checkNode node ip) = [].
Proof.
  unfold IP.checkNode.
  destruct (_ && _); [cbn; discriminate |].
  destruct (_ && _); [cbn; auto |].
  destruct (bool_decide _); cbn; [discriminate | auto].
Qed.

Lemma solveSteps_noIncumbent (ip ip' : IP.t) :
  solveSteps ip ip' ->
  (IP.solutionType ip = IP.INFEASIBLE ->
   IP.objValueUpperBound ip = FP64_INF /\ IP.solution ip = []) ->
  IP.solutionType ip' = IP.INFEASIBLE ->
  IP.objValueUpperBound ip' = FP64_INF /\ IP.solution ip' = [].
Proof.
  induction 1 as [ip | node ip ip' _ IH | ip ip' _ IH]; intros H.
  - exact H.
  - apply IH. apply checkNode_noIncumbent. exact H.
  - apply IH. exact H.
Qed.

(** X18.  When solve on a fresh problem returns INFEASIBLE, no node was ever
    accepted as incumbent: the extremum reported is +inf for a min problem and
    -inf for a max problem (objValueUpperBound is still +inf), the solution
    vector is empty and the queue is empty. *)
Theorem infeasible_result_has_infinite_extremum (fuel : nat) (ip r : IP.t) :
  fresh ip ->
  IP.solve fuel ip = Some r ->
  IP.solutionType r = IP.INFEASIBLE ->
  IP.extremum r = Some (if IP.isMin ip then infinity else neg_infinity)
  /\ IP.solution r = []
  /\ IP.objValueUpperBound r = FP64_INF
  /\ IP.nodeQueue r = [].
Proof.
  intros (Hq & Hub & Hty & Hsol) Hs Hr.
  destruct (solve_inv _ _ _ Hs) as (k & ip1 & ip2 & Hi & Hk & Hc & ->).
  change (IP.solutionType (IP.finish ip2)) with (IP.solutionType ip2) in Hr.
  destruct (init_inv _ _ _ Hi) as (root & _ & E1).
  pose proof (iterations_steps _ _ _ _ Hk) as Hsteps.
  assert (H1 : IP.solutionType ip1 = IP.INFEASIBLE ->
               IP.objValueUpperBound ip1 = FP64_INF /\ IP.solution ip1 = []).
  { rewrite E1. apply checkNode_noIncumbent. cbn. auto. }
  destruct (solveSteps_noIncumbent _ _ Hsteps H1 Hr) as [Hub2 Hsol2].
  assert (Hmin : IP.isMin ip2 = IP.isMin ip).
  { destruct (solveSteps_sameProblem _ _ Hsteps) as (E & _).
    rewrite E, E1, checkNode_isMin. reflexivity. }
  unfold IP.finish. cbn [IP.extremum IP.solution IP.objValueUpperBound IP.nodeQueue].
  rewrite Hub2, Hmin.
  split; [destruct (IP.isMin ip); reflexivity |].
  split; [exact Hsol2 | split; [reflexivity |]].
  unfold IP.continue in Hc. apply andb_false_iff in Hc. destruct Hc as [Hq2 | Ht].
  - apply Z.ltb_ge in Hq2. destruct (IP.nodeQueue ip2); [reflexivity |].
    cbn [length] in Hq2. lia.
  - apply bool_decide_eq_false in Ht. exfalso. apply Ht. rewrite Hr. discriminate.
Qed.

Lemma infeasible_result_has_infinite_extremum_witness :
  exists r,
    IP.solve 5 infeasible_ip = Some r
    /\ IP.solutionType r = IP.INFEASIBLE
    /\ IP.extremum r = Some (if IP.isMin infeasible_ip then infinity else neg_infinity)
    /\ IP.solution r = []
    /\ IP.objValueUpperBound r = FP64_INF
    /\ IP.nodeQueue r = [].
Proof.
  destruct (IP.solve 5 infeasible_ip) as [r |] eqn:E; [| vm_compute in E; discriminate E].
  exists r. split; [reflexivity |].
  assert (Hty : IP.solutionType r = IP.INFEASIBLE).
  { revert E. generalize r. vm_compute. intros r0 [= <-]. reflexivity. }
  split; [exact Hty |].
  apply (infeasible_result_has_infinite_extremum 5 infeasible_ip r);
    [repeat split | exact E | exact Hty].
Defined.

(** X19.  solve keeps the sense, the constraints and the bimap of the problem,
    but for a max problem it leaves objFunc negated in the object. A second
    init on the result negates it again, so that the objective of the object
    is the original one, which a second solve of a max problem would then
    minimise. *)
Theorem solve_negates_a_max_objective_in_place (fuel : nat) (ip r : IP.t) :
  IP.solve fuel ip = Some r ->
  IP.isMin r = IP.isMin ip
  /\ IP.multiCon r = IP.multiCon ip
  /\ IP.bimap r = IP.bimap ip
  /\ IP.objFunc r = (if IP.isMin ip then IP.objFunc ip
                     else Linearform.negate (IP.objFunc ip))
  /\ forall r1, IP.init fuel r = Some r1 -> IP.objFunc r1 = IP.objFunc ip.
Proof.
  intros Hs.
  destruct (solve_inv _ _ _ Hs) as (k & ip1 & ip2 & Hi & Hk & Hc & ->).
  destruct (init_inv _ _ _ Hi) as (root & _ & E1).
  pose proof (solveSteps_sameProblem _ _ (iterations_steps _ _ _ _ Hk)) as (A & B & C & D).
  pose proof (checkNode_sameProblem root
                (IP.mk (IP.isMin ip)
                       (if negb (IP.isMin ip) then Linearform.negate (IP.objFunc ip)
                        else IP.objFunc ip)
                       (IP.multiCon ip) (IP.bimap ip) (IP.nodeQueue ip)
                       (IP.objValueUpperBound ip) (IP.nodeSolvedCount ip)
                       (IP.solutionType ip) (IP.solution ip) (IP.extremum ip)))
    as (A1 & B1 & C1 & D1).
  rewrite <- E1 in A1, B1, C1, D1. cbn [IP.isMin IP.objFunc IP.multiCon IP.bimap] in *.
  assert (Ho : IP.objFunc (IP.finish ip2)
               = if IP.isMin ip then IP.objFunc ip else Linearform.negate (IP.objFunc ip)).
  { change (IP.objFunc (IP.finish ip2)) with (IP.objFunc ip2). rewrite B, B1.
    destruct (IP.isMin ip); reflexivity. }
  assert (Hm : IP.isMin (IP.finish ip2) = IP.isMin ip).
  { change (IP.isMin (IP.finish ip2)) with (IP.isMin ip2). congruence. }
  split; [exact Hm |].
  split; [change (IP.multiCon (IP.finish ip2)) with (IP.multiCon ip2); congruence |].
  split; [change (IP.bimap (IP.finish ip2)) with (IP.bimap ip2); congruence |].
  split; [exact Ho |].
  intros r1 Hi2. destruct (init_inv _ _ _ Hi2) as (root2 & _ & E2).
  destruct (checkNode_sameProblem root2
              (IP.mk (IP.isMin (IP.finish ip2))
                     (if negb (IP.isMin (IP.finish ip2))
                      then Linearform.negate (IP.objFunc (IP.finish ip2))
                      else IP.objFunc (IP.finish ip2))
                     (IP.multiCon (IP.finish ip2)) (IP.bimap (IP.finish ip2))
                     (IP.nodeQueue (IP.finish ip2))
                     (IP.objValueUpperBound (IP.finish ip2))
                     (IP.nodeSolvedCount (IP.finish ip2))
                     (IP.solutionType (IP.finish ip2)) (IP.solution (IP.finish ip2))
                     (IP.extremum (IP.finish ip2)))) as (_ & B2 & _).
  rewrite <- E2 in B2. cbn [IP.objFunc] in B2. rewrite B2, Hm, Ho.
  destruct (IP.isMin ip); cbn [negb]; [reflexivity | apply negate_involutive].
Qed.

Lemma solve_negates_a_max_objective_in_place_witness :
  exists r,
    IP.solve 5 small_ip = Some r
    /\ IP.isMin r = IP.isMin small_ip
    /\ IP.multiCon r = IP.multiCon small_ip
    /\ IP.bimap r = IP.bimap small_ip
    /\ IP.objFunc r = (if IP.isMin small_ip then IP.objFunc small_ip
                       else Linearform.negate (IP.objFunc small_ip))
    /\ forall r1, IP.init 5 r = Some r1 -> IP.objFunc r1 = IP.objFunc small_ip.
Proof.
  destruct (IP.solve 5 small_ip) as [r |] eqn:E; [| vm_compute in E; discriminate E].
  exists r. split; [reflexivity |].
  exact (solve_negates_a_max_objective_in_place 5 small_ip r E).
Defined.

(** * The nodes *)

(** X20.  A node takes its solution and its lower bound from its LP
    relaxation, solved as a min problem, and its type reflects the LP:
    IP_FEASIBLE only for a BOUNDED LP all of whose solution entries are
    integers within EPS, LP_FEASIBLE only for a BOUNDED LP, INFEASIBLE with
    lower bound NaN, UNBOUNDED with lower bound -inf. A node that is not
    LP_FEASIBLE has no ranges for children. *)
Theorem node_type_reflects_the_relaxation (fuel : nat) (obj : Linearform.t)
    (cons : list Constraint.t) (vr : list (float * float)) (node : Node.t) :
  Z.of_nat (length vr) < 2 ^ 31 ->
  Node.new fuel obj cons vr = Some node ->
  exists lp,
    LP.new fuel true obj cons vr = Some lp
    /\ Node.solution node = LP.solution lp
    /\ LP.extremum lp = Some (Node.lowerBound node)
    /\ match Node.type node with
       | Node.IP_FEASIBLE =>
           LP.solutionType lp = Some LP.BOUNDED
           /\ (forall v, 0 <= v < Z.of_nat (length vr) ->
                         FOP.isInt (vget 0%float (Node.solution node) v) = true)
           /\ Node.varRangeLeft node = [] /\ Node.varRangeRight node = []
       | Node.LP_FEASIBLE => LP.solutionType lp = Some LP.BOUNDED
       | Node.INFEASIBLE =>
           LP.solutionType lp = Some LP.INFEASIBLE
           /\ Node.lowerBound node = FP64_NAN
           /\ Node.varRangeLeft node = [] /\ Node.varRangeRight node = []
       | Node.UNBOUNDED =>
           LP.solutionType lp = Some LP.UNBOUNDED
           /\ Node.lowerBound node = neg_infinity
           /\ Node.varRangeLeft node = [] /\ Node.varRangeRight node = []
       end.
Proof.
  intros Hn H. unfold Node.new in H.
  destruct (LP.new fuel true obj cons vr) as [lp |] eqn:E; [| discriminate H].
  cbn [mbind option_bind] in H.
  destruct (new_result _ _ _ _ _ _ E) as (ty & ext & Ht & Hx & Hm).
  rewrite Ht in H. cbn [mbind option_bind] in H.
  rewrite Hx in H. cbn [mbind option_bind] in H.
  exists lp. split; [reflexivity |].
  destruct ty.
  - (* BOUNDED *)
    pose proof (new_bounded_solution_length fuel true obj cons vr lp ltac:(lia) E Ht) as Hlen.
    revert H. destruct (Z.eqb_spec (Node.getSplitVarIndex lp) (-1)) as [Hs | Hs];
      intros H; injection H as <-;
      cbn [Node.solution Node.lowerBound Node.type Node.varRangeLeft Node.varRangeRight];
      (split; [reflexivity | split; [exact Hx |]]); [| exact Ht].
    split; [exact Ht | split; [| split; reflexivity]].
    intros v Hv. unfold Node.getSplitVarIndex in Hs. cbv zeta in Hs.
    destruct (firstFrom_spec
                (fun i => negb (FOP.isInt (vget 0%float (LP.solution lp) i)))
                (length (LP.solution lp)) 0 ltac:(lia) ltac:(lia))
      as [[_ Hall] | (Hr & _)]; [| lia].
    specialize (Hall v ltac:(lia)). cbv beta in Hall.
    destruct (FOP.isInt _); [reflexivity | discriminate Hall].
  - (* UNBOUNDED *)
    injection H as <-.
    cbn [Node.solution Node.lowerBound Node.type Node.varRangeLeft Node.varRangeRight].
    subst ext. repeat split; assumption.
  - (* INFEASIBLE *)
    injection H as <-.
    cbn [Node.solution Node.lowerBound Node.type Node.varRangeLeft Node.varRangeRight].
    subst ext. repeat split; assumption.
Qed.

Lemma node_type_reflects_the_relaxation_witness :
  exists node lp,
    Node.new 5 Examples.branch_obj Examples.branch_con Examples.nonneg2 = Some node
    /\ LP.new 5 true Examples.branch_obj Examples.branch_con Examples.nonneg2 = Some lp
    /\ Node.solution node = LP.solution lp
    /\ LP.extremum lp = Some (Node.lowerBound node).
Proof.
  destruct (Node.new 5 Examples.branch_obj Examples.branch_con Examples.nonneg2)
    as [node |] eqn:E; [| vm_compute in E; discriminate E].
  destruct (node_type_reflects_the_relaxation 5 Examples.branch_obj Examples.branch_con
              Examples.nonneg2 node ltac:(change (2 < 2 ^ 31); lia) E)
    as (lp & H1 & H2 & H3 & _).
  exists node, lp. auto.
Defined.

(** * The variables of a problem *)

Lemma termsBelow_mono (n n' : Z) (m : gmap Z float) :
  n <= n' -> termsBelow n m -> termsBelow n' m.
Proof. intros Hle H j c Hj. specialize (H j c Hj). lia. Qed.

Lemma getVarIndex_below (name : string) (b : VarBimap.t) :
  bimapOk b -> varCountOf b < 2 ^ 32 ->
  0 <= (VarBimap.getVarIndex name b).1 < varCountOf (VarBimap.getVarIndex name b).2.
Proof.
  intros Hok Hsz. unfold VarBimap.getVarIndex, varCountOf in *.
  destruct (VarBimap.strToIndex b !! name) as [j |] eqn:E; cbn [fst snd].
  - apply Hok in E. destruct E as [Hj Hs].
    pose proof (lookup_lt_Some _ _ _ Hs). lia.
  - cbn [VarBimap.indexToStr]. unfold VarBimap.getVarCount.
    rewrite u32_small by lia. rewrite length_app. cbn [length]. lia.
Qed.

Section AddTerms.
Context {X : Type} (add : float -> Z -> X -> X) (termsOf : X -> gmap Z float).
Hypothesis add_terms :
  forall coef j x k c, termsOf (add coef j x) !! k = Some c ->
                       k = j \/ exists c', termsOf x !! k = Some c'.

Lemma addTerms_below (terms : list (float * string)) (x : X) (b : VarBimap.t) :
  bimapOk b ->
  varCountOf b + Z.of_nat (length terms) <= 2 ^ 32 ->
  termsBelow (varCountOf b) (termsOf x) ->
  let r := IP.addTerms add terms (x, b) in
  bimapOk r.2
  /\ termsBelow (varCountOf r.2) (termsOf r.1)
  /\ varCountOf b <= varCountOf r.2 <= varCountOf b + Z.of_nat (length terms).
Proof.
  unfold IP.addTerms. revert x b.
  induction terms as [|[coef name] terms IH]; intros x b Hok Hsz Hb; cbv zeta.
  - cbn [foldl fst snd length]. split; [exact Hok | split; [exact Hb | lia]].
  - cbn [foldl length fst snd] in *.
    pose proof (getVarIndex_below name b Hok ltac:(lia)) as Hj.
    pose proof (getVarIndex_ok name b Hok ltac:(unfold varCountOf in *; lia)) as Hok1.
    pose proof (getVarIndex_size name b) as [Hs1 Hs2].
    destruct (VarBimap.getVarIndex name b) as [j b1]. cbn [fst snd] in *.
    assert (Hb1 : termsBelow (varCountOf b1) (termsOf (add coef j x))).
    { intros k c Hk. destruct (add_terms _ _ _ _ _ Hk) as [-> | [c' Hc']]; [exact Hj |].
      specialize (Hb k c' Hc'). unfold varCountOf in *. lia. }
    destruct (IH (add coef j x) b1 Hok1 ltac:(unfold varCountOf in *; lia) Hb1)
      as (H1 & H2 & H3).
    split; [exact H1 | split; [exact H2 |]].
    unfold varCountOf in *. lia.
Qed.

End AddTerms.

Lemma Linearform_add_terms (coef : float) (j : Z) (lf : Linearform.t) (k : Z) (c : float) :
  Linearform.terms (Linearform.add coef j lf) !! k = Some c ->
  k = j \/ exists c', Linearform.terms lf !! k = Some c'.
Proof.
  unfold Linearform.add.
  destruct (Linearform.terms lf !! j) as [c0 |]; cbn [Linearform.terms];
    (destruct (decide (k = j)) as [-> | Hne]; [left; reflexivity |]);
    rewrite lookup_insert_ne by congruence; intros H; right; exists c; exact H.
Qed.

Lemma Constraint_add_terms (coef : float) (j : Z) (con : Constraint.t) (k : Z) (c : float) :
  Constraint.getTerms (Constraint.add coef j con) !! k = Some c ->
  k = j \/ exists c', Constraint.getTerms con !! k = Some c'.
Proof. apply Linearform_add_terms. Qed.

Lemma stdOfNegativeRightConst_terms (n : Z) (con : Constraint.t) :
  termsBelow n (Constraint.getTerms con) ->
  termsBelow n (Constraint.getTerms (Constraint.stdOfNegativeRightConst con)).
Proof.
  intros H. unfold Constraint.stdOfNegativeRightConst.
  destruct (0 <=? Constraint.rightConst con)%float; [exact H |].
  intros k c Hk. unfold Constraint.getTerms, Linearform.negate in Hk.
  cbn [Constraint.linearform Linearform.terms] in Hk.
  rewrite lookup_fmap in Hk.
  destruct (Linearform.terms (Constraint.linearform con) !! k) as [c' |] eqn:E;
    [| discriminate Hk].
  exact (H k c' E).
Qed.

Lemma set_terms (rel : Relation) (r : float) (con : Constraint.t) :
  Constraint.getTerms (Constraint.set rel r con) = Constraint.getTerms con.
Proof. reflexivity. Qed.

(** X21.  In a problem built by the constructor of IP and by addConstraint
    every variable index of the objective and of the constraints is below the
    number of registered names, and the two maps of the bimap agree. The
    constructor registers at most one name per term, and addConstraint never
    lowers the number of names and adds at most one per term. *)
Theorem every_variable_index_is_registered :
  (forall (mode : string) (terms : list (float * string)),
      Z.of_nat (length terms) <= 2 ^ 32 ->
      variablesOk (IP.new mode terms)
      /\ varCountOf (IP.bimap (IP.new mode terms)) <= Z.of_nat (length terms))
  /\ (forall (terms : list (float * string)) (mode : string) (rightConst : float)
             (ip : IP.t),
        variablesOk ip ->
        varCountOf (IP.bimap ip) + Z.of_nat (length terms) <= 2 ^ 32 ->
        variablesOk (IP.addConstraint terms mode rightConst ip)
        /\ varCountOf (IP.bimap ip)
           <= varCountOf (IP.bimap (IP.addConstraint terms mode rightConst ip))
           <= varCountOf (IP.bimap ip) + Z.of_nat (length terms)).
Proof.
  split.
  - intros mode terms Hsz. unfold IP.new.
    destruct (addTerms_below Linearform.add Linearform.terms Linearform_add_terms
                terms Linearform.empty VarBimap.empty bimapOk_empty)
      as (H1 & H2 & H3).
    { unfold varCountOf. cbn. lia. }
    { intros j c Hj. cbn in Hj. rewrite lookup_empty in Hj. discriminate Hj. }
    destruct (IP.addTerms Linearform.add terms (Linearform.empty, VarBimap.empty))
      as [obj b]. cbn [fst snd] in *.
    unfold variablesOk. cbn [IP.bimap IP.objFunc IP.multiCon].
    split; [split; [exact H1 | split; [exact H2 | constructor]] |].
    unfold varCountOf in *. cbn [VarBimap.empty VarBimap.indexToStr length] in H3. lia.
  - intros terms mode rightConst ip (Hok & Hobj & Hcons) Hsz. unfold IP.addConstraint.
    destruct (addTerms_below Constraint.add Constraint.getTerms Constraint_add_terms
                terms Constraint.new (IP.bimap ip) Hok Hsz)
      as (H1 & H2 & H3).
    { intros j c Hj. cbn in Hj. rewrite lookup_empty in Hj. discriminate Hj. }
    destruct (IP.addTerms Constraint.add terms (Constraint.new, IP.bimap ip))
      as [con b]. cbn [fst snd] in *.
    unfold variablesOk. cbn [IP.bimap IP.objFunc IP.multiCon].
    split; [| exact H3].
    split; [exact H1 | split].
    + exact (termsBelow_mono _ _ _ (proj1 H3) Hobj).
    + apply Forall_app. split.
      * eapply Forall_impl; [exact Hcons |]. intros c Hc.
        exact (termsBelow_mono _ _ _ (proj1 H3) Hc).
      * constructor; [| constructor]. apply stdOfNegativeRightConst_terms.
        destruct (bool_decide (mode = "<="%string));
          [| destruct (bool_decide (mode = ">="%string))]; exact H2.
Qed.

(** * Filling the tableau *)

(** A loop over the terms of a linear form that assigns the cells of row
    [row] the terms name: the order of the terms does not matter. *)
Lemma map_fold_row (tb : Tableau.t) (row : Z) (g : float -> float) (m : gmap Z float) :
  shaped tb -> 0 <= row < Tableau.rows tb ->
  termsBelow (Tableau.cols tb) m ->
  let R := map_fold (fun j c tb => Tableau.set tb row j (g c)) tb m in
  shaped R /\ sameFrame tb R
  /\ forall i j, cell tb i j ->
       Tableau.get R i j
       = if decide (i = row)
         then match m !! j with Some c => g c | None => Tableau.get tb i j end
         else Tableau.get tb i j.
Proof.
  intros Hs Hrow. cbv zeta.
  apply (map_fold_weak_ind
           (fun R m =>
              termsBelow (Tableau.cols tb) m ->
              shaped R /\ sameFrame tb R
              /\ forall i j, cell tb i j ->
                   Tableau.get R i j
                   = if decide (i = row)
                     then match m !! j with Some c => g c | None => Tableau.get tb i j end
                     else Tableau.get tb i j)).
  - intros _. split; [exact Hs | split; [apply sameFrame_refl |]].
    intros i j _. rewrite lookup_empty. destruct (decide (i = row)); reflexivity.
  - intros k x m' R Hk IH Hb.
    destruct IH as (H1 & H2 & H3).
    { intros j c Hj. apply (Hb j c).
      destruct (decide (j = k)) as [-> | Hne]; [congruence |].
      rewrite lookup_insert_ne by congruence. exact Hj. }
    assert (Hkc : 0 <= k < Tableau.cols tb).
    { apply (Hb k x). apply lookup_insert_eq. }
    assert (Hcell : cell R row k) by (apply (cell_frame tb); [exact H2 | split; lia]).
    split; [apply set_shaped, H1 |].
    split; [exact (sameFrame_trans _ _ _ H2 (set_frame _ _ _ _)) |].
    intros i j Hij.
    rewrite get_set by (try exact H1; try exact Hcell; apply (cell_frame tb); assumption).
    rewrite H3 by exact Hij.
    destruct (decide (i = row /\ j = k)) as [[-> ->] | Hne].
    + destruct (decide (row = row)); [| congruence].
      rewrite lookup_insert_eq. reflexivity.
    + destruct (decide (i = row)) as [-> | Hir]; [| reflexivity].
      rewrite lookup_insert_ne; [reflexivity |].
      intros ->. apply Hne. split; reflexivity.
Qed.

(** The cells and the basis after the lambda [setTableauRow]. *)
Lemma setTableauRow_cells (n : Z) (tb : Tableau.t) (r s : Z) (con : Constraint.t) :
  shaped tb -> 1 <= r < Tableau.rows tb ->
  Z.of_nat (length (Tableau.baseVarIndexs tb)) = Tableau.rows tb ->
  termsBelow n (Constraint.getTerms con) ->
  0 <= n <= Tableau.cols tb - 1 ->
  (Constraint.haveSlackVar con = true -> n <= s + 1 < Tableau.cols tb - 1) ->
  let s' := if Constraint.haveSlackVar con then s + 1 else s in
  let st' := LP.setTableauRow (tb, r, s) con in
  let tb' := st'.1.1 in
  st'.1.2 = u32 (r + 1) /\ st'.2 = (if Constraint.haveSlackVar con then u32 (s + 1) else s)
  /\ shaped tb' /\ sameDims tb tb'
  /\ (forall i, 0 <= i -> Tableau.base tb' i
        = if decide (i = r)
          then (if Constraint.haveArtificialVar con then -1
                else i32 (if Constraint.haveSlackVar con then u32 (s + 1) else s))
          else Tableau.base tb i)
  /\ forall i j, cell tb i j ->
       Tableau.get tb' i j
       = if decide (i = r)
         then if decide (j = Tableau.cols tb - 1) then Constraint.getRightConst con
              else if decide (Constraint.haveSlackVar con = true /\ j = s + 1)
                   then Constraint.getSlackVarCoef con
                   else match Constraint.getTerms con !! j with
                        | Some c => c
                        | None => Tableau.get tb i j
                        end
         else Tableau.get tb i j.
Proof.
  intros Hs Hr Hbl Hterms Hn Hslack. cbv zeta. unfold LP.setTableauRow.
  pose proof Hs as (Hr0 & Hc0 & Hb0 & Hl0).
  assert (Hcb : Tableau.cols tb < 2 ^ 32) by nia.
  destruct (map_fold_row tb r (fun c => c) (Constraint.getTerms con) Hs ltac:(lia))
    as (H1 & F1 & G1).
  { eapply termsBelow_mono; [| exact Hterms]. lia. }
  set (tb1 := map_fold _ tb (Constraint.getTerms con)) in *.
  cbn [fst snd].
  set (s1 := if Constraint.haveSlackVar con then u32 (s + 1) else s).
  set (tb2 := if Constraint.haveSlackVar con
              then Tableau.set tb1 r s1 (Constraint.getSlackVarCoef con)
              else tb1).
  assert (H2 : shaped tb2 /\ sameFrame tb tb2
               /\ forall i j, cell tb i j ->
                    Tableau.get tb2 i j
                    = if decide (i = r /\ Constraint.haveSlackVar con = true /\ j = s + 1)
                      then Constraint.getSlackVarCoef con
                      else Tableau.get tb1 i j).
  { subst tb2 s1. destruct (Constraint.haveSlackVar con) eqn:Eh.
    - specialize (Hslack eq_refl). rewrite u32_small by lia.
      assert (Hcell : cell tb1 r (s + 1)) by (apply (cell_frame tb); [exact F1 | split; lia]).
      split; [apply set_shaped, H1 |].
      split; [exact (sameFrame_trans _ _ _ F1 (set_frame _ _ _ _)) |].
      intros i j Hij.
      rewrite get_set by (try exact H1; try exact Hcell; apply (cell_frame tb); assumption).
      destruct (decide (i = r /\ j = s + 1)) as [[-> ->] | Hne];
        destruct (decide (_ /\ _ /\ _)) as [(? & ? & ?) | Hne2]; try reflexivity;
        exfalso; [apply Hne2 | apply Hne]; auto.
    - split; [exact H1 | split; [exact F1 |]].
      intros i j Hij.
      destruct (decide (_ /\ _ /\ _)) as [(? & ? & ?) | Hne2]; [discriminate | reflexivity]. }
  destruct H2 as (H2 & F2 & G2).
  assert (Hlast : LP.lastCol tb2 = Tableau.cols tb - 1).
  { unfold LP.lastCol. destruct F2 as (_ & -> & _). apply u32_small. lia. }
  rewrite Hlast.
  assert (Hcl : cell tb2 r (Tableau.cols tb - 1))
    by (apply (cell_frame tb); [exact F2 | split; lia]).
  split; [reflexivity | split; [reflexivity |]].
  split; [apply set_shaped, H2 |].
  split.
  { eapply sameDims_trans; [| apply setBase_dims].
    eapply sameDims_trans; [| apply set_dims].
    subst tb2. destruct (Constraint.haveSlackVar con).
    - eapply sameDims_trans; [| apply set_dims].
      subst tb1. apply map_fold_dims. intros. apply set_dims.
    - subst tb1. apply map_fold_dims. intros. apply set_dims. }
  split.
  { intros i Hi. unfold Tableau.base, Tableau.setBase, Tableau.set.
    cbn [Tableau.baseVarIndexs].
    destruct F2 as (_ & _ & ->).
    destruct (decide (i = r)) as [-> | Hne].
    - apply vget_vset_eq. lia.
    - apply vget_vset_ne; lia. }
  intros i j Hij.
  change (Tableau.get (Tableau.setBase ?t _ _) i j) with (Tableau.get t i j).
  rewrite get_set by (try exact H2; try exact Hcl; apply (cell_frame tb); assumption).
  rewrite G2, G1 by exact Hij.
  destruct Hij as [Hi Hj].
  destruct (decide (i = r)) as [-> | Hir].
  - destruct (decide (j = Tableau.cols tb - 1)) as [-> | Hjl].
    + destruct (decide (r = r /\ Tableau.cols tb - 1 = Tableau.cols tb - 1));
        [reflexivity | tauto].
    + destruct (decide (r = r /\ j = Tableau.cols tb - 1)) as [[_ ?] | _]; [congruence |].
      destruct (decide (r = r /\ Constraint.haveSlackVar con = true /\ j = s + 1))
        as [(_ & A & B) | Hn1];
        destruct (decide (Constraint.haveSlackVar con = true /\ j = s + 1))
        as [[A' B'] | Hn2]; try reflexivity; exfalso; tauto.
  - destruct (decide (i = r /\ j = Tableau.cols tb - 1)) as [[? _] | _]; [congruence |].
    destruct (decide (i = r /\ _ /\ _)) as [(? & _) | _]; [congruence | reflexivity].
Qed.

Lemma slackVarCount_app (l1 l2 : list Constraint.t) :
  LP.slackVarCount (l1 ++ l2) = LP.slackVarCount l1 + LP.slackVarCount l2.
Proof. unfold LP.slackVarCount. rewrite filter_app, length_app. lia. Qed.

Lemma slackVarCount_nonneg (l : list Constraint.t) : 0 <= LP.slackVarCount l.
Proof. unfold LP.slackVarCount. lia. Qed.

Lemma slackVarCount_one (c : Constraint.t) :
  LP.slackVarCount [c] = if Constraint.haveSlackVar c then 1 else 0.
Proof.
  unfold LP.slackVarCount.
  destruct (Constraint.haveSlackVar c) eqn:E.
  - rewrite filter_cons_True by exact E. reflexivity.
  - rewrite filter_cons_False by (rewrite E; discriminate). reflexivity.
Qed.

Lemma rowHolds_frame (tb tb' : Tableau.t) (n : Z) (L L' : list Constraint.t) (k : nat)
    (con : Constraint.t) :
  Tableau.cols tb' = Tableau.cols tb ->
  (forall j, 0 <= j < Tableau.cols tb ->
     Tableau.get tb' (Z.of_nat k + 1) j = Tableau.get tb (Z.of_nat k + 1) j) ->
  Tableau.base tb' (Z.of_nat k + 1) = Tableau.base tb (Z.of_nat k + 1) ->
  slackCol n L' k = slackCol n L k ->
  0 <= n <= Tableau.cols tb - 1 ->
  rowHolds tb n L k con -> rowHolds tb' n L' k con.
Proof.
  intros Hc Hg Hb Hsc Hn (H1 & H2 & H3 & H4). unfold rowHolds. cbv zeta.
  rewrite Hc, Hsc, Hb.
  split; [intros j Hj; rewrite Hg by lia; apply H1; exact Hj |].
  split; [rewrite Hg by lia; exact H2 |].
  split; [intros j Hj; rewrite Hg by lia; apply H3; exact Hj | exact H4].
Qed.

Lemma take_S_middle {A : Type} (pre : list A) (x : A) (l : list A) :
  take (S (length pre)) (pre ++ x :: l) = pre ++ [x].
Proof. induction pre as [|a pre IH]; cbn; [reflexivity | rewrite IH; reflexivity]. Qed.

Lemma setTableauRows_cells (n : Z) (l pre : list Constraint.t) (tb : Tableau.t) :
  shaped tb ->
  Tableau.rows tb = 1 + Z.of_nat (length (pre ++ l)) ->
  Tableau.cols tb = n + LP.slackVarCount (pre ++ l) + 1 ->
  Z.of_nat (length (Tableau.baseVarIndexs tb)) = Tableau.rows tb ->
  1 <= n -> Tableau.cols tb <= 2 ^ 31 -> Tableau.rows tb <= 2 ^ 31 ->
  Forall (fun c => termsBelow n (Constraint.getTerms c)) l ->
  (forall k' con, pre !! k' = Some con -> rowHolds tb n (pre ++ l) k' con) ->
  (forall i j, cell tb i j -> i = 0 \/ Z.of_nat (length pre) < i ->
               Tableau.get tb i j = 0%float) ->
  let st' := foldl LP.setTableauRow
                   (tb, Z.of_nat (length pre) + 1, n - 1 + LP.slackVarCount pre) l in
  shaped st'.1.1 /\ sameDims tb st'.1.1
  /\ (forall k' con, (pre ++ l) !! k' = Some con -> rowHolds st'.1.1 n (pre ++ l) k' con)
  /\ (forall j, 0 <= j < Tableau.cols tb -> Tableau.get st'.1.1 0 j = 0%float).
Proof.
  revert pre tb. induction l as [|con l IH];
    intros pre tb Hs Hrows Hcols Hbl Hn Hcb Hrb Hterms Hpre Hzero; cbv zeta.
  - cbn [foldl fst]. rewrite app_nil_r in *.
    split; [exact Hs | split; [apply sameDims_refl | split; [exact Hpre |]]].
    intros j Hj. apply Hzero; [split; lia | left; reflexivity].
  - cbn [foldl].
    apply Forall_cons in Hterms. destruct Hterms as [Hcon Hterms].
    pose proof (slackVarCount_nonneg pre) as Hp0.
    pose proof (slackVarCount_nonneg l) as Hl0.
    assert (Hsvc : LP.slackVarCount (pre ++ con :: l)
                   = LP.slackVarCount pre
                     + (if Constraint.haveSlackVar con then 1 else 0)
                     + LP.slackVarCount l).
    { change (con :: l) with ([con] ++ l).
      rewrite !slackVarCount_app, slackVarCount_one. lia. }
    assert (Hnc : 0 <= n <= Tableau.cols tb - 1).
    { pose proof (slackVarCount_nonneg (pre ++ con :: l)). lia. }
    rewrite length_app in Hrows. cbn [length] in Hrows.
    set (k := length pre) in *.
    set (s := n - 1 + LP.slackVarCount pre) in *.
    destruct (setTableauRow_cells n tb (Z.of_nat k + 1) s con Hs ltac:(lia) Hbl Hcon Hnc)
      as (E1 & E2 & Hs1 & Hd1 & Hb1 & Hg1).
    { intros Eh. rewrite Eh in Hsvc. subst s. lia. }
    destruct (LP.setTableauRow (tb, Z.of_nat k + 1, s) con) as [[tb1 r1] s1].
    cbn [fst snd] in E1, E2, Hs1, Hd1, Hb1, Hg1. subst r1 s1.
    destruct Hd1 as (Dr & Dc & Da & Db).
    assert (Es : (if Constraint.haveSlackVar con then u32 (s + 1) else s)
                 = n - 1 + LP.slackVarCount (pre ++ [con])).
    { rewrite slackVarCount_app, slackVarCount_one.
      destruct (Constraint.haveSlackVar con); [rewrite u32_small by (subst s; lia) |];
        subst s; lia. }
    assert (Er : u32 (Z.of_nat k + 1 + 1) = Z.of_nat (length (pre ++ [con])) + 1).
    { rewrite length_app. cbn [length]. fold k. rewrite u32_small by lia. lia. }
    rewrite Es, Er.
    assert (EL : pre ++ con :: l = (pre ++ [con]) ++ l)
      by (rewrite <- app_assoc; reflexivity).
    destruct (IH (pre ++ [con]) tb1) as (R1 & R2 & R3 & R4).
    + exact Hs1.
    + rewrite Dr, <- EL, length_app. cbn [length]. fold k. lia.
    + rewrite Dc, <- EL. exact Hcols.
    + rewrite Db, Dr. exact Hbl.
    + exact Hn.
    + rewrite Dc. exact Hcb.
    + rewrite Dr. exact Hrb.
    + exact Hterms.
    + intros k' c' Hk'. rewrite <- EL.
      destruct (decide (k' < k)%nat) as [Hlt | Hge].
      * rewrite lookup_app_l in Hk' by exact Hlt.
        apply (rowHolds_frame tb tb1 n (pre ++ con :: l) (pre ++ con :: l) k' c');
          [exact Dc | | | reflexivity | lia | apply Hpre; exact Hk'].
        -- intros j Hj. rewrite Hg1 by (split; lia).
           destruct (decide (Z.of_nat k' + 1 = Z.of_nat k + 1)); [lia | reflexivity].
        -- rewrite Hb1 by lia.
           destruct (decide (Z.of_nat k' + 1 = Z.of_nat k + 1)); [lia | reflexivity].
      * assert (k' = k).
        { pose proof (lookup_lt_Some _ _ _ Hk') as Hl. rewrite length_app in Hl.
          cbn [length] in Hl. fold k in Hl. lia. }
        subst k'. unfold k in Hk'. rewrite list_lookup_middle in Hk' by reflexivity.
        injection Hk' as <-. fold k.
        assert (Hsc : slackCol n (pre ++ con :: l) k
                      = n - 1 + LP.slackVarCount pre
                        + (if Constraint.haveSlackVar con then 1 else 0)).
        { unfold slackCol, k. rewrite take_S_middle, slackVarCount_app, slackVarCount_one.
          lia. }
        unfold rowHolds. cbv zeta. rewrite Dc, Hsc.
        assert (Hz : forall j, 0 <= j < Tableau.cols tb ->
                               Tableau.get tb (Z.of_nat k + 1) j = 0%float).
        { intros j Hj. apply Hzero; [split; lia | right; lia]. }
        split; [| split; [| split]].
        -- intros j Hj. rewrite Hg1 by (split; lia).
           destruct (decide (Z.of_nat k + 1 = Z.of_nat k + 1)); [| congruence].
           destruct (decide (j = Tableau.cols tb - 1)); [lia |].
           destruct (decide (Constraint.haveSlackVar con = true /\ j = s + 1))
             as [[_ ?] | _]; [subst s; lia |].
           rewrite Hz by lia.
           destruct (Constraint.getTerms con !! j); reflexivity.
        -- rewrite Hg1 by (split; lia).
           destruct (decide (Z.of_nat k + 1 = Z.of_nat k + 1)); [| congruence].
           destruct (decide (Tableau.cols tb - 1 = Tableau.cols tb - 1));
             [reflexivity | congruence].
        -- intros j Hj. rewrite Hg1 by (split; lia).
           destruct (decide (Z.of_nat k + 1 = Z.of_nat k + 1)); [| congruence].
           destruct (decide (j = Tableau.cols tb - 1)); [lia |].
           assert (Hnone : Constraint.getTerms con !! j = None).
           { destruct (Constraint.getTerms con !! j) as [c |] eqn:Ej; [| reflexivity].
             specialize (Hcon j c Ej). lia. }
           rewrite Hnone, Hz by lia.
           destruct (decide (Constraint.haveSlackVar con = true /\ j = s + 1))
             as [[A B] | Hn1];
             destruct (decide (Constraint.haveSlackVar con = true
                               /\ j = n - 1 + LP.slackVarCount pre
                                      + (if Constraint.haveSlackVar con then 1 else 0)))
             as [[A' B'] | Hn2]; try reflexivity; exfalso.
           ++ apply Hn2. split; [exact A |]. rewrite A. subst s. lia.
           ++ apply Hn1. split; [exact A' |]. rewrite A' in B'. subst s. lia.
        -- rewrite Hb1 by lia.
           destruct (decide (Z.of_nat k + 1 = Z.of_nat k + 1)); [| congruence].
           unfold Constraint.haveArtificialVar, Constraint.haveSlackVar in *.
           destruct (Constraint.relation con) eqn:Erel.
           ++ rewrite (bool_decide_eq_false_2 (LEQ ≠ LEQ)) by (intros H; apply H; reflexivity).
              rewrite (bool_decide_eq_true_2 (LEQ ≠ EQ)) in * by discriminate.
              rewrite u32_small by (subst s; lia). rewrite i32_small by (subst s; lia).
              subst s. lia.
           ++ rewrite (bool_decide_eq_true_2 (EQ ≠ LEQ)) by discriminate. reflexivity.
           ++ rewrite (bool_decide_eq_true_2 (GEQ ≠ LEQ)) by discriminate. reflexivity.
    + intros i j Hij Hor. rewrite length_app in Hor. cbn [length] in Hor. fold k in Hor.
      assert (Hij' : cell tb i j).
      { destruct Hij as [A B]. rewrite Dr in A. rewrite Dc in B. split; assumption. }
      rewrite Hg1 by exact Hij'.
      destruct (decide (i = Z.of_nat k + 1)); [lia |].
      apply Hzero; [exact Hij' | lia].
    + rewrite <- EL in R3.
      split; [exact R1 |].
      split; [exact (sameDims_trans _ _ _ (conj Dr (conj Dc (conj Da Db))) R2) |].
      split; [exact R3 |].
      intros j Hj. apply R4. rewrite Dc. exact Hj.
Qed.

Lemma varRange_terms (vr : list (float * float)) (acc : list Constraint.t) (i : Z) :
  0 <= i -> i + Z.of_nat (length vr) < 2 ^ 32 ->
  Forall (fun c => termsBelow (i + Z.of_nat (length vr)) (Constraint.getTerms c)) acc ->
  Forall (fun c => termsBelow (i + Z.of_nat (length vr)) (Constraint.getTerms c))
         (foldl LP.varRangeStep (acc, i) vr).1.
Proof.
  revert acc i. induction vr as [|[lo hi] vr IH]; intros acc i Hi Hb Hacc.
  - exact Hacc.
  - cbn [foldl length] in *.
    assert (Hone : forall rel r,
               termsBelow (i + Z.of_nat (S (length vr)))
                 (Constraint.getTerms
                    (Constraint.set rel r (Constraint.add 1 i Constraint.new)))).
    { intros rel r j c Hj. apply Constraint_add_terms in Hj.
      destruct Hj as [-> | [c' Hc']]; [lia |].
      cbn in Hc'. rewrite lookup_empty in Hc'. discriminate Hc'. }
    assert (E : u32 (i + 1) = i + 1) by (apply u32_small; lia).
    assert (E2 : i + Z.of_nat (S (length vr)) = u32 (i + 1) + Z.of_nat (length vr))
      by (rewrite E; lia).
    assert (Hstep : LP.varRangeStep (acc, i) (lo, hi) =
                    ((if negb (is_infinity hi)
                      then (if (0 <? lo)%float
                            then acc ++ [Constraint.geq lo (Constraint.add 1%float i Constraint.new)]
                            else acc) ++
                           [Constraint.leq hi (Constraint.add 1%float i Constraint.new)]
                      else (if (0 <? lo)%float
                            then acc ++ [Constraint.geq lo (Constraint.add 1%float i Constraint.new)]
                            else acc)), u32 (i + 1))) by reflexivity.
    rewrite Hstep, E2.
    apply IH; [apply u32_bounds | rewrite E; lia |].
    rewrite <- E2.
    assert (H1 : forall rel r,
               Forall (fun c => termsBelow (i + Z.of_nat (S (length vr))) (Constraint.getTerms c))
                 [Constraint.set rel r (Constraint.add 1 i Constraint.new)]).
    { intros rel r. constructor; [apply Hone | constructor]. }
    destruct (0 <? lo)%float; destruct (negb (is_infinity hi));
      [ apply Forall_app_2; [apply Forall_app_2; [exact Hacc | apply H1] | apply H1]
      | apply Forall_app_2; [exact Hacc | apply H1]
      | apply Forall_app_2; [exact Hacc | apply H1]
      | exact Hacc ].
Qed.

Lemma init_cells (r c : Z) :
  0 <= r -> 0 <= c -> r * c < 2 ^ 32 ->
  shaped (Tableau.init r c)
  /\ Z.of_nat (length (Tableau.baseVarIndexs (Tableau.init r c))) = r
  /\ forall i j, cell (Tableau.init r c) i j -> Tableau.get (Tableau.init r c) i j = 0%float.
Proof.
  intros Hr Hc Hb.
  assert (Hs : shaped (Tableau.init r c)).
  { unfold shaped, Tableau.init. cbn [Tableau.rows Tableau.cols Tableau.arr].
    rewrite length_replicate, u32_small by nia. split; [lia | split; [lia | split; lia]]. }
  split; [exact Hs |].
  split; [unfold Tableau.init; cbn [Tableau.baseVarIndexs]; rewrite length_replicate; lia |].
  intros i j Hij. unfold Tableau.get.
  destruct (idx_cell _ _ _ Hs Hij) as [E B]. rewrite E.
  unfold Tableau.init in *. cbn [Tableau.arr Tableau.cols] in *.
  apply vget_replicate. rewrite length_replicate in B. exact B.
Qed.

Lemma construct_cells (isMin : bool) (obj : Linearform.t)
    (cons : list Constraint.t) (vr : list (float * float)) :
  let lp1 := LP.construct isMin obj cons vr in
  let tb := LP.tableau lp1 in
  let n := Z.of_nat (length vr) in
  let L := cons ++ LP.varRangeMultiCon lp1 in
  1 <= n ->
  Forall (fun c => termsBelow n (Constraint.getTerms c)) cons ->
  (1 + Z.of_nat (length L)) * (n + LP.slackVarCount L + 1) < 2 ^ 31 ->
  Tableau.rows tb = 1 + Z.of_nat (length L)
  /\ Tableau.cols tb = n + LP.slackVarCount L + 1
  /\ shaped tb
  /\ (forall j, 0 <= j < Tableau.cols tb -> Tableau.get tb 0 j = 0%float)
  /\ forall k con, L !! k = Some con -> rowHolds tb n L k con.
Proof.
  cbv zeta. intros Hn Hcons Hb.
  unfold LP.construct, LP.insertConToTableau, LP.initTableau in *.
  cbn [LP.tableau LP.withTableau LP.multiCon LP.varRangeMultiCon LP.varCount] in *.
  set (rc := (foldl LP.varRangeStep ([], 0) vr).1) in *.
  rewrite <- foldl_app.
  pose proof (slackVarCount_nonneg (cons ++ rc)) as Hsv.
  pose proof (slackVarCount_nonneg cons) as Hsv1.
  pose proof (slackVarCount_nonneg rc) as Hsv2.
  rewrite slackVarCount_app in *. rewrite length_app in *.
  set (R := 1 + Z.of_nat (length cons + length rc)) in *.
  set (C := Z.of_nat (length vr) + (LP.slackVarCount cons + LP.slackVarCount rc) + 1) in *.
  assert (HR : 1 <= R < 2 ^ 31) by (subst R; nia).
  assert (HC : 2 <= C < 2 ^ 31) by (subst C; nia).
  rewrite (u32_small (Z.of_nat (length vr))) by lia.
  rewrite (u32_small (LP.slackVarCount cons + LP.slackVarCount rc)) by lia.
  replace (1 + Z.of_nat (length cons) + Z.of_nat (length rc)) with R by (subst R; lia).
  rewrite (u32_small R) by lia.
  fold C. rewrite (u32_small C) by lia.
  rewrite (u32_small (Z.of_nat (length vr) - 1)) by lia.
  destruct (init_cells R C ltac:(lia) ltac:(lia) ltac:(lia)) as (I1 & I2 & I3).
  assert (Hrc : Forall (fun c => termsBelow (Z.of_nat (length vr)) (Constraint.getTerms c)) rc).
  { subst rc. apply (varRange_terms vr [] 0); [lia | lia | constructor]. }
  destruct (setTableauRows_cells (Z.of_nat (length vr)) (cons ++ rc) [] (Tableau.init R C))
    as (H1 & H2 & H3 & H4); try assumption.
  - cbn [app]. rewrite length_app. reflexivity.
  - cbn [app]. rewrite slackVarCount_app. reflexivity.
  - cbn [Tableau.init Tableau.cols]. lia.
  - cbn [Tableau.init Tableau.rows]. lia.
  - apply Forall_app. split; assumption.
  - intros k' con Hk'. discriminate Hk'.
  - intros i j Hij _. apply I3. exact Hij.
  - cbn [app length] in *.
    replace (Z.of_nat 0 + 1) with 1 in * by lia.
    replace (Z.of_nat (length vr) - 1 + LP.slackVarCount [])
      with (Z.of_nat (length vr) - 1) in * by (unfold LP.slackVarCount; cbn; lia).
    destruct H2 as (Dr & Dc & _).
    cbn [Tableau.init Tableau.rows Tableau.cols] in Dr, Dc, H4.
    split; [exact Dr | split; [exact Dc | split; [exact H1 | split]]].
    + intros j Hj. apply H4. lia.
    + exact H3.
Qed.

(** X22.  After initTableau and insertConToTableau (at least one variable,
    every variable of a constraint below varCount, rows * cols < 2^31) the
    tableau has row 0 all zero and one row for every constraint, the given
    ones first and then the range constraints. Row k + 1 holds the
    coefficients of constraint k in the variable columns (0 for a variable
    that does not occur), its right constant in the last column, its slack
    coefficient in its own slack column and 0 in the other slack columns, and
    its basis is -1 when the constraint needs an artificial variable and its
    slack column otherwise. *)
Theorem tableau_rows_hold_the_constraints (isMin : bool) (obj : Linearform.t)
    (cons : list Constraint.t) (vr : list (float * float)) :
  let lp1 := LP.construct isMin obj cons vr in
  let tb := LP.tableau lp1 in
  let n := Z.of_nat (length vr) in
  let L := cons ++ LP.varRangeMultiCon lp1 in
  1 <= n ->
  Forall (fun c => termsBelow n (Constraint.getTerms c)) cons ->
  (1 + Z.of_nat (length L)) * (n + LP.slackVarCount L + 1) < 2 ^ 31 ->
  Tableau.rows tb = 1 + Z.of_nat (length L)
  /\ Tableau.cols tb = n + LP.slackVarCount L + 1
  /\ shaped tb
  /\ (forall j, 0 <= j < Tableau.cols tb -> Tableau.get tb 0 j = 0%float)
  /\ forall k con, L !! k = Some con -> rowHolds tb n L k con.
Proof. exact (construct_cells isMin obj cons vr). Qed.

Lemma constraint_terms_fold (n : Z) (l : list (float * Z)) (con : Constraint.t) :
  Forall (fun p => 0 <= p.2 < n) l ->
  termsBelow n (Constraint.getTerms con) ->
  termsBelow n (Constraint.getTerms
                  (foldl (fun a '(c, i) => Constraint.add c i a) con l)).
Proof.
  revert con. induction l as [|[c i] l IH]; intros con Hl Hcon; [exact Hcon |].
  inversion Hl as [|? ? Hi Hl']; subst. cbn [foldl]. apply IH; [exact Hl' |].
  intros k c' Hk. apply Constraint_add_terms in Hk.
  destruct Hk as [-> | [c'' Hk]]; [exact Hi | exact (Hcon _ _ Hk)].
Qed.

Lemma constraint_terms (n : Z) (l : list (float * Z)) :
  Forall (fun p => 0 <= p.2 < n) l ->
  termsBelow n (Constraint.getTerms (Examples.constraint l)).
Proof.
  intros Hl. apply constraint_terms_fold; [exact Hl |].
  intros k c Hk. cbn in Hk. rewrite lookup_empty in Hk. discriminate Hk.
Qed.

Lemma tableau_rows_hold_the_constraints_witness :
  let lp1 := LP.construct false Examples.test0_obj Examples.test0_con Examples.nonneg2 in
  let tb := LP.tableau lp1 in
  let L := Examples.test0_con ++ LP.varRangeMultiCon lp1 in
  Tableau.rows tb = 1 + Z.of_nat (length L)
  /\ Tableau.cols tb = 2 + LP.slackVarCount L + 1
  /\ shaped tb
  /\ (forall j, 0 <= j < Tableau.cols tb -> Tableau.get tb 0 j = 0%float)
  /\ forall k con, L !! k = Some con -> rowHolds tb 2 L k con.
Proof.
  apply (tableau_rows_hold_the_constraints false Examples.test0_obj Examples.test0_con
           Examples.nonneg2).
  - cbn. lia.
  - repeat (apply Forall_cons_2; [| try apply Forall_nil_2]);
      (refine (constraint_terms _ _ _); repeat constructor; cbn; lia).
  - vm_compute. reflexivity.
Defined.

(** * The objective row *)

Lemma insertObjFuncToTableau_cells (lp : LP.t) :
  let tb := LP.tableau lp in
  let tb' := LP.tableau (LP.insertObjFuncToTableau lp) in
  shaped tb -> 1 <= Tableau.rows tb ->
  termsBelow (Tableau.cols tb) (Linearform.terms (LP.objFunc lp)) ->
  shaped tb' /\ sameFrame tb tb'
  /\ forall i j, cell tb i j ->
       Tableau.get tb' i j
       = if decide (i = 0)
         then match Linearform.terms (LP.objFunc lp) !! j with
              | Some coef => (coef * (if LP.isMin lp then -1 else 1))%float
              | None => Tableau.get tb i j
              end
         else Tableau.get tb i j.
Proof.
  cbv zeta. intros Hs Hr Ht.
  unfold LP.insertObjFuncToTableau. cbn [LP.tableau LP.withTableau].
  destruct (map_fold_row (LP.tableau lp) 0
              (fun coef => (coef * LP.sign (negb (LP.isMin lp)))%float)
              (Linearform.terms (LP.objFunc lp)) Hs ltac:(lia) Ht) as (H1 & H2 & H3).
  split; [exact H1 | split; [exact H2 |]].
  intros i j Hij. rewrite (H3 i j Hij).
  destruct (decide (i = 0)); [| reflexivity].
  destruct (Linearform.terms (LP.objFunc lp) !! j); [| reflexivity].
  destruct (LP.isMin lp); reflexivity.
Qed.

(** X23.  insertObjFuncToTableau writes coef * (isMin ? -1 : 1) into row 0 at
    the column of every variable of the objective and changes no other cell,
    nor the dimensions or the basis: a min problem stores -coef, a max problem
    +coef, whatever the order in which the unordered map is traversed. *)
Theorem objective_row_holds_the_signed_coefficients (lp : LP.t) :
  let tb := LP.tableau lp in
  let tb' := LP.tableau (LP.insertObjFuncToTableau lp) in
  shaped tb -> 1 <= Tableau.rows tb ->
  termsBelow (Tableau.cols tb) (Linearform.terms (LP.objFunc lp)) ->
  shaped tb' /\ sameFrame tb tb'
  /\ forall i j, cell tb i j ->
       Tableau.get tb' i j
       = if decide (i = 0)
         then match Linearform.terms (LP.objFunc lp) !! j with
              | Some coef => (coef * (if LP.isMin lp then -1 else 1))%float
              | None => Tableau.get tb i j
              end
         else Tableau.get tb i j.
Proof. exact (insertObjFuncToTableau_cells lp). Qed.

Lemma linearform_terms (n : Z) (l : list (float * Z)) :
  Forall (fun p => 0 <= p.2 < n) l ->
  termsBelow n (Linearform.terms (Examples.linearform l)).
Proof.
  unfold Examples.linearform.
  assert (G : forall lf, Forall (fun p => 0 <= p.2 < n) l ->
                termsBelow n (Linearform.terms lf) ->
                termsBelow n (Linearform.terms
                                (foldl (fun a '(c, i) => Linearform.add c i a) lf l))).
  { induction l as [|[c i] l IH]; intros lf Hl Hlf; [exact Hlf |].
    inversion Hl as [|? ? Hi Hl']; subst. cbn [foldl]. apply IH; [exact Hl' |].
    intros k c' Hk. apply Linearform_add_terms in Hk.
    destruct Hk as [-> | [c'' Hk]]; [exact Hi | exact (Hlf _ _ Hk)]. }
  intros Hl. apply G; [exact Hl |].
  intros k c Hk. cbn in Hk. rewrite lookup_empty in Hk. discriminate Hk.
Qed.

Lemma objective_row_holds_the_signed_coefficients_witness :
  let lp := LP.construct false Examples.test2_obj Examples.test2_con Examples.nonneg2 in
  let tb := LP.tableau lp in
  let tb' := LP.tableau (LP.insertObjFuncToTableau lp) in
  shaped tb' /\ sameFrame tb tb'
  /\ forall i j, cell tb i j ->
       Tableau.get tb' i j
       = if decide (i = 0)
         then match Linearform.terms (LP.objFunc lp) !! j with
              | Some coef => (coef * (if LP.isMin lp then -1 else 1))%float
              | None => Tableau.get tb i j
              end
         else Tableau.get tb i j.
Proof.
  apply (objective_row_holds_the_signed_coefficients
           (LP.construct false Examples.test2_obj Examples.test2_con Examples.nonneg2)).
  - closed_shape.
  - vm_compute. congruence.
  - refine (linearform_terms _ _ _). repeat constructor; vm_compute; congruence.
Defined.

Lemma foldl_fix {A B : Type} (f : A -> B -> A) (a : A) (l : list B) :
  Forall (fun x => f a x = a) l -> foldl f a l = a.
Proof.
  induction 1 as [|x l Hx _ IH]; [reflexivity |].
  cbn [foldl]. rewrite Hx. exact IH.
Qed.

Lemma withTableau_same (lp : LP.t) : LP.withTableau lp (LP.tableau lp) = lp.
Proof. destruct lp. reflexivity. Qed.

Lemma slackCol_range (n : Z) (L : list Constraint.t) (k : nat) (con : Constraint.t) :
  L !! k = Some con -> Constraint.haveSlackVar con = true ->
  n <= slackCol n L k <= n - 1 + LP.slackVarCount L.
Proof.
  intros Hk Hs. unfold slackCol.
  rewrite (take_S_r L k con Hk), slackVarCount_app, slackVarCount_one, Hs.
  pose proof (slackVarCount_nonneg (take k L)).
  pose proof (slackVarCount_nonneg (drop (S k) L)).
  assert (E : LP.slackVarCount L
              = LP.slackVarCount (take k L) + 1 + LP.slackVarCount (drop (S k) L)).
  { rewrite <- (take_drop (S k) L) at 1.
    rewrite slackVarCount_app, (take_S_r L k con Hk), slackVarCount_app,
      slackVarCount_one, Hs. reflexivity. }
  lia.
Qed.

(** X24.  For an LP with <= constraints only and no positive lower bound
    (variables below varCount, rows * cols < 2^31) handleNonZeroHead changes
    nothing, as its comment says of a run without phase 1. Phase 2 so starts
    from the rows of the constraints, with row 0 holding coef * (isMin ? -1 :
    1) for the variables of the objective and 0 elsewhere, and the basis of
    every row is a slack column. *)
Theorem leq_problem_starts_phase2_from_the_objective (isMin : bool) (obj : Linearform.t)
    (cons : list Constraint.t) (vr : list (float * float)) :
  let lp1 := LP.construct isMin obj cons vr in
  let n := Z.of_nat (length vr) in
  let L := cons ++ LP.varRangeMultiCon lp1 in
  let tb1 := LP.tableau lp1 in
  let tb2 := LP.tableau (LP.phase2Start lp1) in
  1 <= n ->
  Forall (fun c => Constraint.relation c = LEQ) cons ->
  Forall (fun r => (0 <? r.1)%float = false) vr ->
  Forall (fun c => termsBelow n (Constraint.getTerms c)) cons ->
  termsBelow n (Linearform.terms obj) ->
  (1 + Z.of_nat (length L)) * (n + LP.slackVarCount L + 1) < 2 ^ 31 ->
  LP.handleNonZeroHead (LP.insertObjFuncToTableau lp1) = LP.insertObjFuncToTableau lp1
  /\ (forall j, 0 <= j < Tableau.cols tb1 ->
        Tableau.get tb2 0 j
        = match Linearform.terms obj !! j with
          | Some coef => (coef * (if isMin then -1 else 1))%float
          | None => 0%float
          end)
  /\ (forall i j, 1 <= i < Tableau.rows tb1 -> 0 <= j < Tableau.cols tb1 ->
        Tableau.get tb2 i j = Tableau.get tb1 i j)
  /\ (forall i, 1 <= i < Tableau.rows tb1 ->
        n <= Tableau.base tb2 i < Tableau.cols tb1 - 1).
Proof.
  cbv zeta. intros Hn Hleq Hvr Hcons Hobj Hb.
  destruct (construct_cells isMin obj cons vr Hn Hcons Hb) as (Hrows & Hcols & Hs & Hrow0 & Hrowk).
  set (lp1 := LP.construct isMin obj cons vr) in *.
  set (L := cons ++ LP.varRangeMultiCon lp1) in *.
  set (n := Z.of_nat (length vr)) in *.
  pose proof (slackVarCount_nonneg L) as Hsv.
  assert (HL : Forall (fun c => Constraint.relation c = LEQ) L).
  { subst L. apply Forall_app_2; [exact Hleq |].
    exact (proj1 (varRange_leq vr [] 0 Hvr ltac:(constructor))). }
  assert (Hobj1 : LP.objFunc lp1 = obj) by reflexivity.
  assert (Hmin1 : LP.isMin lp1 = isMin) by reflexivity.
  assert (Hobjc : termsBelow (Tableau.cols (LP.tableau lp1))
                    (Linearform.terms (LP.objFunc lp1))).
  { rewrite Hobj1, Hcols. intros j c Hj. specialize (Hobj j c Hj). lia. }
  destruct (insertObjFuncToTableau_cells lp1 Hs ltac:(lia) Hobjc) as (Os & Of & Oc).
  rewrite Hobj1, Hmin1 in Oc.
  set (lpO := LP.insertObjFuncToTableau lp1) in *.
  assert (Hbase : forall i, 1 <= i < Tableau.rows (LP.tableau lp1) ->
            n <= Tableau.base (LP.tableau lp1) i < Tableau.cols (LP.tableau lp1) - 1).
  { intros i Hi.
    destruct (lookup_lt_is_Some_2 L (Z.to_nat (i - 1)) ltac:(lia)) as [con Hcon].
    pose proof (Hrowk _ _ Hcon) as (_ & _ & _ & Hbs).
    replace (Z.of_nat (Z.to_nat (i - 1)) + 1) with i in Hbs by lia.
    assert (Hrel : Constraint.relation con = LEQ).
    { exact (proj1 (Forall_lookup _ _) HL _ _ Hcon). }
    assert (Hart : Constraint.haveArtificialVar con = false).
    { unfold Constraint.haveArtificialVar. rewrite Hrel.
      apply bool_decide_eq_false_2. intros Hne. apply Hne. reflexivity. }
    assert (Hsl : Constraint.haveSlackVar con = true).
    { unfold Constraint.haveSlackVar. rewrite Hrel.
      apply bool_decide_eq_true_2. discriminate. }
    rewrite Hart in Hbs. rewrite Hbs.
    pose proof (slackCol_range n L _ con Hcon Hsl). lia. }
  assert (HbaseO : forall i, Tableau.base (LP.tableau lpO) i = Tableau.base (LP.tableau lp1) i).
  { intros i. unfold Tableau.base. destruct Of as (_ & _ & ->). reflexivity. }
  assert (Hfix : LP.handleNonZeroHead lpO = lpO).
  { unfold LP.handleNonZeroHead.
    rewrite foldl_fix; [apply withTableau_same |].
    apply Forall_forall. intros i Hi.
    assert (Hri : 1 <= i < Tableau.rows (LP.tableau lp1)).
    { destruct Of as (Er & _ & _). rewrite Er in Hi.
      unfold range in Hi. apply elem_of_seqZ in Hi. lia. }
    cbv zeta. rewrite HbaseO.
    pose proof (Hbase i Hri) as Hbi.
    rewrite u32_small by lia.
    rewrite Oc by (split; lia).
    destruct (decide (0 = 0)) as [_ | Hne]; [| congruence].
    destruct (Linearform.terms obj !! Tableau.base (LP.tableau lp1) i) as [c |] eqn:El.
    { specialize (Hobj _ _ El). lia. }
    rewrite Hrow0 by lia. reflexivity. }
  split; [exact Hfix |].
  unfold LP.phase2Start. fold lpO. rewrite Hfix.
  split; [| split].
  - intros j Hj. rewrite Oc by (split; lia).
    destruct (decide (0 = 0)) as [_ | Hne]; [| congruence].
    rewrite Hrow0 by lia. reflexivity.
  - intros i j Hi Hj. rewrite Oc by (split; lia).
    destruct (decide (i = 0)); [lia | reflexivity].
  - intros i Hi. rewrite HbaseO. apply Hbase. exact Hi.
Qed.

Lemma leq_problem_starts_phase2_from_the_objective_witness :
  let lp1 := LP.construct false Examples.test2_obj Examples.test2_con Examples.nonneg2 in
  let tb1 := LP.tableau lp1 in
  let tb2 := LP.tableau (LP.phase2Start lp1) in
  LP.handleNonZeroHead (LP.insertObjFuncToTableau lp1) = LP.insertObjFuncToTableau lp1
  /\ (forall j, 0 <= j < Tableau.cols tb1 ->
        Tableau.get tb2 0 j
        = match Linearform.terms Examples.test2_obj !! j with
          | Some coef => (coef * (if false then -1 else 1))%float
          | None => 0%float
          end)
  /\ (forall i j, 1 <= i < Tableau.rows tb1 -> 0 <= j < Tableau.cols tb1 ->
        Tableau.get tb2 i j = Tableau.get tb1 i j)
  /\ (forall i, 1 <= i < Tableau.rows tb1 ->
        2 <= Tableau.base tb2 i < Tableau.cols tb1 - 1).
Proof.
  apply (leq_problem_starts_phase2_from_the_objective false Examples.test2_obj
           Examples.test2_con Examples.nonneg2).
  - cbn. lia.
  - repeat constructor.
  - repeat constructor.
  - repeat (apply Forall_cons_2; [| try apply Forall_nil_2]);
      (refine (constraint_terms _ _ _); repeat constructor; cbn; lia).
  - refine (linearform_terms _ _ _). repeat constructor; cbn; lia.
  - vm_compute. reflexivity.
Defined.

(** * A root that is not branched on *)

(** X25.  If the root relaxation of a fresh problem is not LP_FEASIBLE, solve
    returns after this one LP, without entering its loop and with an empty
    queue. An integral root with a lower bound below +inf gives BOUNDED with
    the solution of the root and its lower bound as extremum (negated for a
    max problem); an unbounded or infeasible root gives UNBOUNDED or
    INFEASIBLE with an empty solution and the extremum +inf for min and -inf
    for max, which is the untouched incumbent bound and not the -inf of the
    unbounded LP. *)
Theorem root_without_branch_needs_one_relaxation (fuel : nat) (ip : IP.t)
    (root : Node.t) :
  let obj := if negb (IP.isMin ip) then Linearform.negate (IP.objFunc ip)
             else IP.objFunc ip in
  let varRange :=
    replicate (Z.to_nat (VarBimap.getVarCount (IP.bimap ip))) (0%float, FP64_INF) in
  fresh ip ->
  Node.new fuel obj (IP.multiCon ip) varRange = Some root ->
  Node.type root <> Node.LP_FEASIBLE ->
  exists r,
    IP.solve fuel ip = Some r
    /\ IP.nodeSolvedCount r = u32 (IP.nodeSolvedCount ip + 1)
    /\ IP.nodeQueue r = []
    /\ match Node.type root with
       | Node.IP_FEASIBLE =>
           if (Node.lowerBound root <? infinity)%float
           then IP.solutionType r = IP.BOUNDED
                /\ IP.solution r = Node.solution root
                /\ IP.extremum r = Some (if IP.isMin ip then Node.lowerBound root
                                         else (- Node.lowerBound root)%float)
           else IP.solutionType r = IP.INFEASIBLE /\ IP.solution r = []
                /\ IP.extremum r = Some (if IP.isMin ip then infinity else neg_infinity)
       | Node.UNBOUNDED =>
           IP.solutionType r = IP.UNBOUNDED /\ IP.solution r = []
           /\ IP.extremum r = Some (if IP.isMin ip then infinity else neg_infinity)
       | _ =>
           IP.solutionType r = IP.INFEASIBLE /\ IP.solution r = []
           /\ IP.extremum r = Some (if IP.isMin ip then infinity else neg_infinity)
       end.
Proof.
  cbv zeta. intros (Hq & Hub & Hty & Hsol) Hroot Hnlp.
  unfold IP.solve, IP.init. rewrite Hroot. cbn [mbind option_bind].
  set (ip1 := IP.checkNode root _).
  assert (Hq1 : IP.nodeQueue ip1 = []).
  { subst ip1. unfold IP.checkNode. cbn [IP.nodeQueue IP.objValueUpperBound].
    destruct (Node.type root); try congruence;
      cbn [bool_decide decide_rel andb]; try exact Hq;
      destruct (_ <? _)%float; exact Hq. }
  assert (Hloop : IP.loop fuel fuel ip1 = Some ip1).
  { destruct fuel; cbn [IP.loop]; unfold IP.continue; rewrite Hq1; reflexivity. }
  rewrite Hloop. cbn [mbind option_bind].
  eexists. split; [reflexivity |].
  unfold IP.finish. cbn [IP.nodeSolvedCount IP.nodeQueue IP.solutionType IP.solution
                           IP.extremum IP.objValueUpperBound IP.isMin].
  split; [subst ip1; unfold IP.checkNode; cbn [IP.nodeSolvedCount];
          destruct (_ && _); [reflexivity |];
          destruct (_ && _); [reflexivity |];
          destruct (bool_decide _); reflexivity |].
  split; [exact Hq1 |].
  assert (Einf : (FP64_INF * LP.sign (IP.isMin ip))%float
                 = if IP.isMin ip then infinity else neg_infinity)
    by (destruct (IP.isMin ip); reflexivity).
  subst ip1. unfold IP.checkNode in *.
  cbn [IP.objValueUpperBound IP.solutionType IP.solution IP.isMin] in *.
  rewrite Hub.
  destruct (Node.type root) eqn:Et; try congruence;
    cbn [bool_decide decide_rel andb].
  - change FP64_INF with infinity.
    destruct (Node.lowerBound root <? infinity)%float;
      cbn [IP.objValueUpperBound IP.solutionType IP.solution IP.isMin].
    + split; [reflexivity | split; [reflexivity |]].
      destruct (IP.isMin ip); cbn [LP.sign negb];
        [rewrite mul_1_r | rewrite mul_m1_r]; reflexivity.
    + rewrite ?Hub, ?Hty, ?Hsol, <- Einf. repeat split; reflexivity.
  - cbn [IP.objValueUpperBound IP.solutionType IP.solution IP.isMin].
    rewrite ?Hub, ?Hty, ?Hsol, <- Einf. repeat split; reflexivity.
  - cbn [IP.objValueUpperBound IP.solutionType IP.solution IP.isMin].
    rewrite ?Hub, ?Hsol, <- Einf. repeat split; reflexivity.
Qed.

Lemma root_without_branch_needs_one_relaxation_witness :
  exists root r,
    Node.new 5 (IP.objFunc integral_ip) (IP.multiCon integral_ip)
             [(0%float, FP64_INF)] = Some root
    /\ Node.type root = Node.IP_FEASIBLE
    /\ IP.solve 5 integral_ip = Some r
    /\ IP.nodeSolvedCount r = 1
    /\ IP.solutionType r = IP.BOUNDED
    /\ IP.solution r = Node.solution root
    /\ IP.extremum r = Some (Node.lowerBound root).
Proof.
  destruct (Node.new 5 (IP.objFunc integral_ip) (IP.multiCon integral_ip)
                     [(0%float, FP64_INF)]) as [root |] eqn:E;
    [| vm_compute in E; discriminate E].
  assert (Hty : Node.type root = Node.IP_FEASIBLE).
  { revert E. generalize root. vm_compute. intros r0 [= <-]. reflexivity. }
  assert (Hlb : (Node.lowerBound root <? infinity)%float = true).
  { revert E. generalize root. vm_compute. intros r0 [= <-]. reflexivity. }
  destruct (root_without_branch_needs_one_relaxation 5 integral_ip root)
    as (r & Hr & Hc & _ & Hres).
  - repeat split.
  - exact E.
  - rewrite Hty. discriminate.
  - rewrite Hty, Hlb in Hres. destruct Hres as (H1 & H2 & H3).
    exists root, r. repeat split; assumption.
Defined.

(** * Repeated variables in a list of terms *)

Lemma addTerms_keeps {X : Type} (add : float -> Z -> X -> X)
    (terms : list (float * string)) (x : X) (b : VarBimap.t) (name : string) (j : Z) :
  VarBimap.strToIndex b !! name = Some j ->
  VarBimap.strToIndex (IP.addTerms add terms (x, b)).2 !! name = Some j.
Proof.
  unfold IP.addTerms. revert x b.
  induction terms as [|[coef nm] terms IH]; intros x b Hj; [exact Hj |].
  cbn [foldl fst snd].
  pose proof (getVarIndex_keeps name nm j b Hj) as Hk.
  destruct (VarBimap.getVarIndex nm b) as [j0 b1]. cbn [snd] in Hk.
  exact (IH _ _ Hk).
Qed.

Lemma bimapOk_inj (b : VarBimap.t) (n1 n2 : string) (j : Z) :
  bimapOk b ->
  VarBimap.strToIndex b !! n1 = Some j ->
  VarBimap.strToIndex b !! n2 = Some j ->
  n1 = n2.
Proof.
  intros Hb H1 H2. apply Hb in H1. apply Hb in H2.
  destruct H1 as [_ H1]. destruct H2 as [_ H2]. congruence.
Qed.

Section AddCoef.
Context {X : Type} (add : float -> Z -> X -> X) (termsOf : X -> gmap Z float).
Hypothesis add_eq :
  forall coef j x,
    termsOf (add coef j x)
    = match termsOf x !! j with
      | Some c => <[j := (c + coef)%float]> (termsOf x)
      | None => <[j := coef]> (termsOf x)
      end.

Lemma add_eq_terms (coef : float) (j : Z) (x : X) (k : Z) (c : float) :
  termsOf (add coef j x) !! k = Some c ->
  k = j \/ exists c', termsOf x !! k = Some c'.
Proof.
  rewrite add_eq. intros H.
  destruct (decide (k = j)) as [-> | Hne]; [left; reflexivity | right].
  destruct (termsOf x !! j); rewrite lookup_insert_ne in H by congruence; eauto.
Qed.

Lemma addTerms_coef (terms : list (float * string)) (x : X) (b : VarBimap.t) :
  bimapOk b ->
  varCountOf b + Z.of_nat (length terms) <= 2 ^ 32 ->
  termsBelow (varCountOf b) (termsOf x) ->
  let r := IP.addTerms add terms (x, b) in
  forall name j,
    VarBimap.strToIndex r.2 !! name = Some j ->
    termsOf r.1 !! j = coefSumFrom (termsOf x !! j) name terms.
Proof.
  revert x b. induction terms as [|[coef nm] terms IH]; intros x b Hb Hsz Hlt; cbv zeta.
  - intros name j _. reflexivity.
  - intros name j Hj.
    cbn [length] in Hsz.
    pose proof (addTerms_below add termsOf add_eq_terms [(coef, nm)] x b Hb
                  ltac:(cbn [length]; lia) Hlt) as H1.
    cbv zeta in H1. destruct H1 as (Hb1 & Hlt1 & Hsz1).
    pose proof (getVarIndex_registers nm b) as Hreg.
    unfold IP.addTerms in *. cbn [foldl fst snd length] in *.
    destruct (VarBimap.getVarIndex nm b) as [j0 b1]. cbn [fst snd] in *.
    pose proof (IH (add coef j0 x) b1 Hb1 ltac:(lia) Hlt1) as IH1.
    cbv zeta in IH1. rewrite (IH1 name j Hj).
    unfold coefSumFrom. cbn [foldl]. f_equal.
    pose proof (addTerms_keeps add terms (add coef j0 x) b1 nm j0 Hreg) as Hnm.
    unfold IP.addTerms in Hnm.
    pose proof (addTerms_below add termsOf add_eq_terms terms (add coef j0 x) b1 Hb1
                  ltac:(lia) Hlt1) as H2.
    cbv zeta in H2. destruct H2 as (Hb2 & _ & _). unfold IP.addTerms in Hb2.
    rewrite add_eq.
    destruct (bool_decide (nm = name)) eqn:E.
    + apply bool_decide_eq_true_1 in E. subst nm.
      assert (j = j0) by congruence. subst j.
      destruct (termsOf x !! j0); apply lookup_insert_eq.
    + apply bool_decide_eq_false_1 in E.
      assert (j <> j0).
      { intros ->. apply E. exact (bimapOk_inj _ _ _ _ Hb2 Hnm Hj). }
      destruct (termsOf x !! j0); apply lookup_insert_ne; congruence.
Qed.

End AddCoef.

Lemma Linearform_add_eq (coef : float) (j : Z) (lf : Linearform.t) :
  Linearform.terms (Linearform.add coef j lf)
  = match Linearform.terms lf !! j with
    | Some c => <[j := (c + coef)%float]> (Linearform.terms lf)
    | None => <[j := coef]> (Linearform.terms lf)
    end.
Proof. unfold Linearform.add. destruct (Linearform.terms lf !! j); reflexivity. Qed.

Lemma Constraint_add_eq (coef : float) (j : Z) (con : Constraint.t) :
  Constraint.getTerms (Constraint.add coef j con)
  = match Constraint.getTerms con !! j with
    | Some c => <[j := (c + coef)%float]> (Constraint.getTerms con)
    | None => <[j := coef]> (Constraint.getTerms con)
    end.
Proof. apply Linearform_add_eq. Qed.

(** X26.  A variable name that occurs several times in a list of terms
    accumulates: the coefficient the objective stores for a registered name is
    the sum, in the order of the list, of the coefficients given for it. The
    constraint that addConstraint appends stores the same sum for a name of
    its list and nothing for the other names, with every coefficient negated
    when rightConst >= 0 does not hold. *)
Theorem repeated_variables_accumulate :
  (forall (mode : string) (terms : list (float * string)) (name : string) (j : Z),
      Z.of_nat (length terms) <= 2 ^ 32 ->
      VarBimap.strToIndex (IP.bimap (IP.new mode terms)) !! name = Some j ->
      Linearform.terms (IP.objFunc (IP.new mode terms)) !! j = coefSum name terms)
  /\ (forall (terms : list (float * string)) (mode : string) (rightConst : float)
             (ip : IP.t) (name : string) (j : Z),
        variablesOk ip ->
        varCountOf (IP.bimap ip) + Z.of_nat (length terms) <= 2 ^ 32 ->
        let ip' := IP.addConstraint terms mode rightConst ip in
        VarBimap.strToIndex (IP.bimap ip') !! name = Some j ->
        exists con,
          IP.multiCon ip' = IP.multiCon ip ++ [con]
          /\ Constraint.getTerms con !! j
             = if (0 <=? rightConst)%float then coefSum name terms
               else PrimFloat.opp <$> coefSum name terms).
Proof.
  split.
  - intros mode terms name j Hsz Hj.
    pose proof (addTerms_coef Linearform.add Linearform.terms Linearform_add_eq terms
                  Linearform.empty VarBimap.empty bimapOk_empty
                  ltac:(unfold varCountOf; cbn; lia)
                  ltac:(intros k c Hk; cbn in Hk; rewrite lookup_empty in Hk;
                        discriminate Hk)) as H.
    cbv zeta in H. unfold IP.new in *.
    destruct (IP.addTerms Linearform.add terms (Linearform.empty, VarBimap.empty))
      as [obj b]. cbn [IP.bimap IP.objFunc fst snd] in *.
    rewrite (H name j Hj). reflexivity.
  - intros terms mode rightConst ip name j (Hb & _ & _) Hsz. cbv zeta. intros Hj.
    pose proof (addTerms_coef Constraint.add Constraint.getTerms Constraint_add_eq terms
                  Constraint.new (IP.bimap ip) Hb Hsz
                  ltac:(intros k c Hk; cbn in Hk; rewrite lookup_empty in Hk;
                        discriminate Hk)) as H.
    cbv zeta in H. unfold IP.addConstraint in *.
    destruct (IP.addTerms Constraint.add terms (Constraint.new, IP.bimap ip)) as [con b].
    cbn [IP.bimap IP.multiCon fst snd] in *.
    specialize (H name j Hj).
    change (Constraint.getTerms Constraint.new !! j) with (@None float) in H.
    fold (coefSum name terms) in H.
    eexists. split; [reflexivity |].
    set (con1 := if bool_decide (mode = "<="%string) then Constraint.leq rightConst con
                 else if bool_decide (mode = ">="%string) then Constraint.geq rightConst con
                      else Constraint.eq rightConst con).
    assert (H1 : Constraint.rightConst con1 = rightConst).
    { subst con1. destruct (bool_decide (mode = "<="%string));
        [| destruct (bool_decide (mode = ">="%string))]; reflexivity. }
    assert (H2 : Constraint.getTerms con1 = Constraint.getTerms con).
    { subst con1. destruct (bool_decide (mode = "<="%string));
        [| destruct (bool_decide (mode = ">="%string))]; reflexivity. }
    clearbody con1.
    unfold Constraint.stdOfNegativeRightConst. rewrite H1.
    destruct (0 <=? rightConst)%float.
    + rewrite H2. exact H.
    + unfold Constraint.getTerms in *. cbn [Constraint.linearform Linearform.negate Linearform.terms].
      rewrite lookup_fmap, H2, H. reflexivity.
Qed.
